(** * auto-enter-by-lrc: the timed playback engine

    A shallow embedding of the engine of [auto-enter-by-lrc.py]: the LRC
    parser ([parse_time], [load_lrc_file]), the action blocks
    ([ActionBlock.execute], [execute_action_sequence]) and the scheduler
    ([start_filling], [stop_filling], [lyric_filling_loop]) of class
    [LyricAutoFiller]. Around the engine: the preview list and the two
    buttons of the main window, [dropEvent], the action editor
    ([ActionEditor], [open_action_editor]), the global hotkeys
    ([set_hotkey], [register_hotkeys]) and the capture of a key
    ([get_key_name], [HotkeyCaptureDialog.keyPressEvent]).

    Conventions of the model.
    - A Python [str] is a [string] whose characters are the code points
      below 256. On that range the character classes used by the program
      are exactly the ones defined in [PyStr]: [\d] and [int()] accept
      the ten ASCII digits, [str.strip()] removes the twelve white-space
      code points listed in [isspace], and [.] matches everything but
      line feed.
    - A Python [float] is an IEEE binary64 value, [spec_float] with
      precision 53 and maximal exponent 1024.
    - Exceptions are values of type [exn]; a computation that may raise
      returns a [res]. Methods are computations in a state and exception
      monad over [world].
    - [keyboard], [time] and the widgets are outside the program: each
      call to them is recorded in the [trace] of the world, and whether
      [keyboard] or [time.sleep] rejects an argument is a parameter, the
      [Backend].
    - The thread of [lyric_filling_loop] is followed through a list of
      polls: one entry per evaluation of the loop condition, with the
      clock reading of that pass and the calls the other thread made
      since the previous one. *)

From Stdlib Require Import ZArith Lia Ascii String List Sorted.
From Stdlib Require Import Floats.SpecFloat DecimalString.
From stdpp Require Import base option list strings gmap.

Local Open Scope Z_scope.

#[local] Arguments String.append _ _ : simpl nomatch.

(** ** Exceptions *)

Inductive exn :=
| OverflowError
| ValueError
| TypeError
| IndexError
| OSError.

Inductive res (A : Type) :=
| Ok (a : A)
| Raise (e : exn).
Arguments Ok {A} a.
Arguments Raise {A} e.

Definition res_bind {A B} (m : res A) (k : A -> res B) : res B :=
  match m with
  | Ok a => k a
  | Raise e => Raise e
  end.

(** ** Python strings *)

Module PyStr.

Definition code (c : ascii) : N := N_of_ascii c.

(** [str.isspace] on a single character, code points below 256. *)
Definition isspace (c : ascii) : bool :=
  let n := code c in
  ((9 <=? n) && (n <=? 13) || (28 <=? n) && (n <=? 32)
   || (n =? 133) || (n =? 160))%N.

(** The class [\d] of [re], which is also what [int()] reads. *)
Definition isdigit (c : ascii) : bool :=
  let n := code c in ((48 <=? n) && (n <=? 57))%N.

Definition digit_value (c : ascii) : Z := Z.of_N (code c) - 48.

Definition LF : ascii := "010"%char.

Fixpoint forallb (p : ascii -> bool) (s : string) : bool :=
  match s with
  | EmptyString => true
  | String c s' => p c && forallb p s'
  end.

Definition is_empty (s : string) : bool :=
  match s with EmptyString => true | _ => false end.

(** [s.startswith(c)] for a one-character prefix. *)
Definition startswith (c : ascii) (s : string) : bool :=
  match s with
  | String a _ => if ascii_dec a c then true else false
  | EmptyString => false
  end.

Fixpoint lstrip (s : string) : string :=
  match s with
  | String c s' => if isspace c then lstrip s' else s
  | EmptyString => EmptyString
  end.

Fixpoint rstrip (s : string) : string :=
  match s with
  | String c s' =>
      let r := rstrip s' in
      if is_empty r && isspace c then EmptyString else String c r
  | EmptyString => EmptyString
  end.

(** [s.strip()] *)
Definition strip (s : string) : string := rstrip (lstrip s).

(** Value of a run of decimal digits, most significant first. *)
Fixpoint digits_value (acc : Z) (s : string) : Z :=
  match s with
  | String c s' => digits_value (10 * acc + digit_value c) s'
  | EmptyString => acc
  end.

(** The default of [sys.get_int_max_str_digits()]. *)
Definition max_str_digits : nat := 4300.

(** [int(s)] for the strings the program passes to it, which are
    non-empty runs of digits captured by [\d+]; any other string is
    reported as [ValueError]. Python integers are unbounded, but
    CPython does not read a run of more than [max_str_digits] digits,
    leading zeros counted: it raises [ValueError]. *)
Definition int (s : string) : res Z :=
  if negb (is_empty s) && forallb isdigit s then
    if (String.length s <=? max_str_digits)%nat then Ok (digits_value 0 s)
    else Raise ValueError
  else Raise ValueError.

(** A line as [readlines()] returns it: a line feed can only be its
    last character. *)
Fixpoint single_line (s : string) : bool :=
  match s with
  | String c s' => is_empty s' || (negb (if ascii_dec c LF then true else false) && single_line s')
  | EmptyString => true
  end.

(** [f.readlines()] on the text of the file, once text mode has turned
    every line ending into a line feed: the lines, each with its line
    feed, the last one possibly without. *)
Fixpoint readlines (text : string) : list string :=
  match text with
  | EmptyString => []
  | String c text' =>
      if ascii_dec c LF then String c EmptyString :: readlines text'
      else match readlines text' with
           | [] => [String c EmptyString]
           | l :: ls => String c l :: ls
           end
  end.

(** No line feed anywhere in the string. *)
Definition no_lf (s : string) : bool :=
  forallb (fun c => negb (if ascii_dec c LF then true else false)) s.

End PyStr.

(** ** Regular expressions, as [re.match] runs them

    A backtracking matcher in continuation-passing style: alternation
    tries its left branch first, repetition is greedy and gives back one
    character at a time, a group records the text it consumed. *)

Module Re.
Import PyStr.

Inductive charset :=
| CsChar (c : ascii)   (* an escaped or plain literal character *)
| CsDigit              (* \d *)
| CsAny.               (* .  *)

Definition charset_mem (cs : charset) (c : ascii) : bool :=
  match cs with
  | CsChar a => if ascii_dec c a then true else false
  | CsDigit => isdigit c
  | CsAny => negb (if ascii_dec c LF then true else false)
  end.

Inductive regex :=
| ROne (cs : charset)
| RPlus (cs : charset)
| RStar (cs : charset)
| RSeq (r1 r2 : regex)
| RAlt (r1 r2 : regex)
| RGroup (n : nat) (r : regex).

(** Captured groups, most recently closed first. *)
Definition captures := list (nat * string).

Fixpoint group (caps : captures) (n : nat) : option string :=
  match caps with
  | [] => None
  | (m, s) :: caps' => if Nat.eqb m n then Some s else group caps' n
  end.

(** The part of [s] in front of its suffix [s']. *)
Fixpoint consumed (s : string) (n : nat) : string :=
  match n, s with
  | S n', String c s' => String c (consumed s' n')
  | _, _ => EmptyString
  end.

Definition consumed_upto (s s' : string) : string :=
  consumed s (String.length s - String.length s')%nat.

Section Matcher.
Context {A : Type}.

Definition cont := string -> captures -> option A.

Fixpoint greedy (cs : charset) (s : string) (caps : captures) (k : cont)
  : option A :=
  match s with
  | String c s' =>
      if charset_mem cs c then
        match greedy cs s' caps k with
        | Some r => Some r
        | None => k s caps
        end
      else k s caps
  | EmptyString => k s caps
  end.

Fixpoint run (r : regex) (s : string) (caps : captures) (k : cont)
  : option A :=
  match r with
  | ROne cs =>
      match s with
      | String c s' => if charset_mem cs c then k s' caps else None
      | EmptyString => None
      end
  | RPlus cs =>
      match s with
      | String c s' => if charset_mem cs c then greedy cs s' caps k else None
      | EmptyString => None
      end
  | RStar cs => greedy cs s caps k
  | RSeq r1 r2 => run r1 s caps (fun s1 caps1 => run r2 s1 caps1 k)
  | RAlt r1 r2 =>
      match run r1 s caps k with
      | Some x => Some x
      | None => run r2 s caps k
      end
  | RGroup n r1 =>
      run r1 s caps (fun s1 caps1 => k s1 ((n, consumed_upto s s1) :: caps1))
  end.
End Matcher.

(** [re.match(pattern, s)]: anchored at the start, free at the end. *)
Definition re_match (r : regex) (s : string) : option captures :=
  run r s [] (fun _ caps => Some caps).

Definition lit (c : ascii) : regex := ROne (CsChar c).
Definition digits : regex := RPlus CsDigit.

Fixpoint seq (rs : list regex) (last : regex) : regex :=
  match rs with
  | [] => last
  | r :: rs' => RSeq r (seq rs' last)
  end.

(** What it means for a regular expression to match a prefix of [s]
    and leave [s']. *)
Inductive matches : regex -> string -> string -> Prop :=
| MOne cs c s :
    charset_mem cs c = true -> matches (ROne cs) (String c s) s
| MPlus cs d s :
    d <> "" -> forallb (charset_mem cs) d = true ->
    matches (RPlus cs) (d +:+ s) s
| MStar cs d s :
    forallb (charset_mem cs) d = true -> matches (RStar cs) (d +:+ s) s
| MSeq r1 r2 s s1 s2 :
    matches r1 s s1 -> matches r2 s1 s2 -> matches (RSeq r1 r2) s s2
| MAltL r1 r2 s s' : matches r1 s s' -> matches (RAlt r1 r2) s s'
| MAltR r1 r2 s s' : matches r2 s s' -> matches (RAlt r1 r2) s s'
| MGroup n r s s' : matches r s s' -> matches (RGroup n r) s s'.

(** [s] starts with a character of [cs]; a continuation that fails on
    every such string. *)
Definition starts_in (cs : charset) (s : string) : bool :=
  match s with
  | String c _ => charset_mem cs c
  | EmptyString => false
  end.

Definition rejects {A} (cs : charset) (k : @cont A) : Prop :=
  forall c s caps, charset_mem cs c = true -> k (String c s) caps = None.

End Re.

(** ** Python floats *)

Module PyFloat.

Definition prec : Z := 53.
Definition emax : Z := 1024.

Definition float := spec_float.

(** Conversion of a Python [int] to [float]: correctly rounded, and
    [OverflowError] when the rounded value is not finite. *)
Definition of_int (n : Z) : res float :=
  match binary_normalize prec emax n 0 false with
  | S754_infinity _ => Raise OverflowError
  | f => Ok f
  end.

Definition add : float -> float -> float := SFadd prec emax.
Definition sub : float -> float -> float := SFsub prec emax.
Definition div : float -> float -> float := SFdiv prec emax.

(** [a < b] and [a >= b] *)
Definition lt (a b : float) : bool := SFltb a b.
Definition ge (a b : float) : bool := SFleb b a.
Definition le (a b : float) : bool := SFleb a b.

(** The literal [100.0]. *)
Definition hundred : float := binary_normalize prec emax 100 0 false.

(** [n / 100.0] for an [int] n: the int operand is converted first. *)
Definition int_truediv_hundred (n : Z) : res float :=
  res_bind (of_int n) (fun f => Ok (div f hundred)).

(** [n + x] for an [int] n and a [float] x. *)
Definition int_add_float (n : Z) (x : float) : res float :=
  res_bind (of_int n) (fun f => Ok (add f x)).

(** The floats the parser can produce: zero, a positive finite value
    or plus infinity. *)
Definition nonneg (x : float) : bool :=
  match x with
  | S754_zero _ => true
  | S754_infinity s => negb s
  | S754_finite s _ _ => negb s
  | S754_nan => false
  end.

Definition is_finite (x : float) : bool :=
  match x with
  | S754_zero _ | S754_finite _ _ _ => true
  | _ => false
  end.

(** Position of a non-negative float in the order: zeros, then finite
    values by exponent and mantissa, then infinity. *)
Definition rank (x : float) : Z * Z * Z :=
  match x with
  | S754_zero _ => (0, 0, 0)
  | S754_finite _ m e => (1, e, Z.pos m)
  | _ => (2, 0, 0)
  end.

Definition lex_le (a b : Z * Z * Z) : Prop :=
  let '(a1, a2, a3) := a in
  let '(b1, b2, b3) := b in
  a1 < b1 \/ (a1 = b1 /\ (a2 < b2 \/ (a2 = b2 /\ a3 <= b3))).

Definition lex_lt (a b : Z * Z * Z) : Prop :=
  let '(a1, a2, a3) := a in
  let '(b1, b2, b3) := b in
  a1 < b1 \/ (a1 = b1 /\ (a2 < b2 \/ (a2 = b2 /\ a3 < b3))).

End PyFloat.

Abbreviation float := PyFloat.float.

(** ** The LRC parser *)

Module Parser.
Import PyStr Re.

(** [r'\[(\d+):(\d+)\.(\d+)\]'] *)
Definition pattern : regex :=
  seq [lit "["%char; RGroup 1 digits; lit ":"%char; RGroup 2 digits; lit "."%char;
       RGroup 3 digits] (lit "]"%char).

(** [r'\[(\d+):(\d+):(\d+)\]'] *)
Definition pattern2 : regex :=
  seq [lit "["%char; RGroup 1 digits; lit ":"%char; RGroup 2 digits; lit ":"%char;
       RGroup 3 digits] (lit "]"%char).

(** The pattern of [load_lrc_file]: group 1 is the alternation
    [\[\d+:\d+\.\d+\]|\[\d+:\d+:\d+\]], group 2 a greedy run of [.]
    of any length. *)
Definition line_pattern : regex :=
  RSeq
    (RGroup 1
       (RAlt
          (seq [lit "["%char; digits; lit ":"%char; digits; lit "."%char; digits] (lit "]"%char))
          (seq [lit "["%char; digits; lit ":"%char; digits; lit ":"%char; digits] (lit "]"%char))))
    (RGroup 2 (RStar CsAny)).

(** [int(match.group(n))] *)
Definition group_int (caps : captures) (n : nat) : res Z :=
  match group caps n with
  | Some s => int s
  | None => Raise TypeError
  end.

(** [minutes * 60 + seconds + hundredths / 100.0] *)
Definition timestamp_value (minutes seconds hundredths : Z) : res float :=
  let whole := minutes * 60 + seconds in
  res_bind (PyFloat.int_truediv_hundred hundredths) (fun frac =>
  PyFloat.int_add_float whole frac).

Definition timestamp_of_groups (caps : captures) : res float :=
  res_bind (group_int caps 1) (fun minutes =>
  res_bind (group_int caps 2) (fun seconds =>
  res_bind (group_int caps 3) (fun hundredths =>
  timestamp_value minutes seconds hundredths))).

(** The value of a timestamp with the groups [m], [s] and [f]: the
    three calls of [int], then the sum. *)
Definition groups_value (m s f : string) : res float :=
  timestamp_of_groups [(3%nat, f); (2%nat, s); (1%nat, m)].

(** [parse_time]: [Ok None] is Python's [return None]. *)
Definition parse_time (time_str : string) : res (option float) :=
  match re_match pattern time_str with
  | Some caps => res_bind (timestamp_of_groups caps) (fun t => Ok (Some t))
  | None =>
      match re_match pattern2 time_str with
      | Some caps => res_bind (timestamp_of_groups caps) (fun t => Ok (Some t))
      | None => Ok None
      end
  end.

Definition record : Type := float * string.

(** The text of a bracketed timestamp: three groups, [sep] in front of
    the last one. *)
Definition timestamp (sep : ascii) (m s f : string) : string :=
  "[" +:+ m +:+ ":" +:+ s +:+ String sep (f +:+ "]").

Definition dot : ascii := "."%char.
Definition colon : ascii := ":"%char.

(** A non-empty run of digits. *)
Definition is_number (s : string) : bool :=
  negb (is_empty s) && forallb isdigit s.

(** A run that [int] reads: no more than [max_str_digits] digits. *)
Definition short (s : string) : Prop :=
  (String.length s <= max_str_digits)%nat.

(** The body of the [for line in content] loop of [load_lrc_file]:
    the record the line contributes, if any. *)
Definition load_line (line : string) : res (option record) :=
  let line := strip line in
  if negb (is_empty line) && startswith "["%char line then
    match re_match line_pattern line with
    | Some caps =>
        match group caps 1, group caps 2 with
        | Some time_str, Some text =>
            let lyric := strip text in
            res_bind (parse_time time_str) (fun total_seconds =>
            match total_seconds with
            | Some t => Ok (Some (t, lyric))
            | None => Ok None
            end)
        | _, _ => Raise TypeError
        end
    | None => Ok None
    end
  else Ok None.

(** [list.sort(key=lambda x: x[0])]: a stable sort that compares keys
    with [<] only. *)
Fixpoint insert (x : record) (l : list record) : list record :=
  match l with
  | [] => [x]
  | y :: l' => if PyFloat.lt (fst y) (fst x) then y :: insert x l' else x :: l
  end.

Definition sort_by_time (l : list record) : list record :=
  foldr insert [] l.

(** Ascending by time. *)
Definition time_le (r1 r2 : record) : Prop :=
  PyFloat.le (fst r1) (fst r2) = true.

(** The time is zero, positive or plus infinity. *)
Definition nonneg_key (r : record) : Prop := PyFloat.nonneg (fst r) = true.

(** The stripped line starts with a timestamp in one of the two
    formats. *)
Definition timed_line (l : string) : Prop :=
  exists sep m s f rest,
    (sep = dot \/ sep = colon) /\
    is_number m = true /\ is_number s = true /\ is_number f = true /\
    l = timestamp sep m s f +:+ rest.

(** What the [for] loop of [load_lrc_file] has appended when it ends:
    the records of the lines in front of the first line that raises,
    and the exception of that line if there is one. *)
Fixpoint scan_lines (content : list string) : list record * option exn :=
  match content with
  | [] => ([], None)
  | line :: content' =>
      match load_line line with
      | Raise e => ([], Some e)
      | Ok r =>
          let '(rs, e) := scan_lines content' in
          (match r with Some x => x :: rs | None => rs end, e)
      end
  end.

End Parser.

(** ** The application object and its effects *)

Module Engine.
Import PyStr Parser.

(** Values stored in a [params] dictionary. *)
Inductive value :=
| VStr (s : string)
| VInt (n : Z)
| VFloat (x : float).

(** [class ActionBlock]: [action_type] and the [params] dict. *)
Record ActionBlock := {
  action_type : string;
  params : gmap string value
}.

(** [d.get(k, dflt)] *)
Definition dict_get (d : gmap string value) (k : string) (dflt : value) : value :=
  default dflt (d !! k).

(** Object references. *)
Definition loc := positive.

(** The two messages [show_warning] is called with. *)
Inductive warning :=
| WarnNoLyrics                (* "请先选择LRC文件", in start_filling *)
| WarnCannotRead (e : exn).   (* "无法读取LRC文件: ...", in load_lrc_file *)

(** The texts [status_label] is set to. *)
Inductive status :=
| StatusLoaded (n : nat)      (* "已加载 n 条歌词" *)
| StatusFilling               (* "正在自动填写歌词..." *)
| StatusStopped               (* "已停止" *)
| StatusCompleted.            (* "所有歌词已填写完成" *)

(** Calls that leave the object: the keyboard, the clock, the widgets
    and the thread library. *)
Inductive event :=
| KeyboardWrite (text : value)
| KeyboardPressAndRelease (key : value)
| TimeSleep (duration : value)
| TickSleep
| Highlight (index : Z)
| ShowWarning (w : warning)
| SetStatus (s : status)
| StartButtonEnabled (b : bool)
| StopButtonEnabled (b : bool)
| FileLabel (file_path : string)
| LyricListClear
| LyricListAdd (seconds : float) (lyric : string)
| ThreadStart.

(** The attributes of [LyricAutoFiller] the engine uses, the store of
    [ActionBlock] objects its [action_sequence] points into, and the
    calls made so far, oldest first. *)
Record world := World {
  lyrics : list record;
  is_playing : bool;
  start_time : option float;
  current_index : nat;
  action_sequence : list loc;
  heap : gmap loc ActionBlock;
  trace : list event
}.

Definition set_lyrics (l : list record) (w : world) : world :=
  World l (is_playing w) (start_time w) (current_index w)
        (action_sequence w) (heap w) (trace w).
Definition set_is_playing (b : bool) (w : world) : world :=
  World (lyrics w) b (start_time w) (current_index w)
        (action_sequence w) (heap w) (trace w).
Definition set_start_time (t : option float) (w : world) : world :=
  World (lyrics w) (is_playing w) t (current_index w)
        (action_sequence w) (heap w) (trace w).
Definition set_current_index (i : nat) (w : world) : world :=
  World (lyrics w) (is_playing w) (start_time w) i
        (action_sequence w) (heap w) (trace w).
Definition set_heap (h : gmap loc ActionBlock) (w : world) : world :=
  World (lyrics w) (is_playing w) (start_time w) (current_index w)
        (action_sequence w) h (trace w).
Definition add_event (e : event) (w : world) : world :=
  World (lyrics w) (is_playing w) (start_time w) (current_index w)
        (action_sequence w) (heap w) (trace w ++ [e]).

(** *** The monad of methods: state and exceptions *)

Definition M (A : Type) : Type := world -> res A * world.

Definition ret {A} (a : A) : M A := fun w => (Ok a, w).
Definition raise {A} (e : exn) : M A := fun w => (Raise e, w).
Definition bind {A B} (m : M A) (k : A -> M B) : M B :=
  fun w => match m w with
           | (Ok a, w') => k a w'
           | (Raise e, w') => (Raise e, w')
           end.
Definition get : M world := fun w => (Ok w, w).
Definition modify (f : world -> world) : M unit := fun w => (Ok tt, f w).
Definition emit (e : event) : M unit := modify (add_event e).
Definition lift {A} (r : res A) : M A := fun w => (r, w).
(** [try: body except Exception as e: handler(e)] *)
Definition try_except {A} (body : M A) (handler : exn -> M A) : M A :=
  fun w => match body w with
           | (Ok a, w') => (Ok a, w')
           | (Raise e, w') => handler e w'
           end.

Declare Scope method_scope.
Delimit Scope method_scope with method.
Notation "x <- m ;; k" := (bind m (fun x => k))
  (at level 100, m at next level, k at level 200) : method_scope.
Notation "m ;; k" := (bind m (fun _ => k))
  (at level 100, k at level 200) : method_scope.
Local Open Scope method_scope.

(** The state a method leaves behind, and its outcome. *)
Definition exec {A} (m : M A) (w : world) : world := snd (m w).
Definition outcome {A} (m : M A) (w : world) : res A := fst (m w).

(** *** The input-injection backend

    [keyboard] and [time] are not part of the program. What the engine
    depends on is which arguments each call rejects, and with which
    exception. *)
Record Backend := {
  write_error : value -> option exn;   (* keyboard.write(text) *)
  press_error : value -> option exn;   (* keyboard.press_and_release(key) *)
  sleep_error : value -> option exn    (* time.sleep(duration) *)
}.

Section Methods.
Variable B : Backend.

Definition keyboard_write (text : value) : M unit :=
  match write_error B text with
  | Some e => raise e
  | None => emit (KeyboardWrite text)
  end.

Definition keyboard_press_and_release (key : value) : M unit :=
  match press_error B key with
  | Some e => raise e
  | None => emit (KeyboardPressAndRelease key)
  end.

Definition time_sleep (duration : value) : M unit :=
  match sleep_error B duration with
  | Some e => raise e
  | None => emit (TimeSleep duration)
  end.

(** [ActionBlock(action_type, params)]: a new object. *)
Definition new_ActionBlock (ty : string) (ps : gmap string value) : M loc :=
  fun w =>
    let l := fresh (dom (heap w)) in
    (Ok l, set_heap (<[l := {| action_type := ty; params := ps |}]> (heap w)) w).

(** Attribute access through a reference. A reference held by the
    program always points to an object; the error branch is there to
    make the function total. *)
Definition deref (l : loc) : M ActionBlock :=
  fun w => match heap w !! l with
           | Some a => (Ok a, w)
           | None => (Raise TypeError, w)
           end.

(** [ActionBlock.execute] *)
Definition execute (self : loc) : M unit :=
  a <- deref self ;;
  if String.eqb (action_type a) "text" then
    keyboard_write (dict_get (params a) "text" (VStr ""))
  else if String.eqb (action_type a) "key" then
    keyboard_press_and_release (dict_get (params a) "key" (VStr "enter"))
  else if String.eqb (action_type a) "wait" then
    time_sleep (dict_get (params a) "duration" (VInt 1))
  else ret tt.

Definition show_warning (w : warning) : M unit := emit (ShowWarning w).

(** [highlight_current_lyric]: the update is queued for the main
    thread. *)
Definition highlight_current_lyric (index : Z) : M unit :=
  emit (Highlight index).

(** *** load_lrc_file *)

Fixpoint load_lines (content : list string) : M unit :=
  match content with
  | [] => ret tt
  | line :: content' =>
      r <- lift (load_line line) ;;
      match r with
      | Some rec => modify (fun w => set_lyrics (lyrics w ++ [rec]) w)
      | None => ret tt
      end ;;
      load_lines content'
  end.

(** [int(seconds)] of the item text: an infinity or a NaN raises. *)
Definition int_of_float_check (x : float) : M unit :=
  match x with
  | S754_infinity _ => raise OverflowError
  | S754_nan => raise ValueError
  | _ => ret tt
  end.

Fixpoint add_items (l : list record) : M unit :=
  match l with
  | [] => ret tt
  | (seconds, lyric) :: l' =>
      int_of_float_check seconds ;;
      emit (LyricListAdd seconds lyric) ;;
      add_items l'
  end.

(** [file] is what [open(file_path).readlines()] gives: the lines, or
    the exception raised while opening or decoding. *)
Definition load_lrc_file (file_path : string) (file : res (list string))
  : M unit :=
  try_except
    (content <- lift file ;;
     modify (set_lyrics []) ;;
     load_lines content ;;
     modify (fun w => set_lyrics (sort_by_time (lyrics w)) w) ;;
     emit (FileLabel file_path) ;;
     emit LyricListClear ;;
     w <- get ;;
     add_items (lyrics w) ;;
     w <- get ;;
     emit (SetStatus (StatusLoaded (length (lyrics w)))))
    (fun e => show_warning (WarnCannotRead e)).

(** *** execute_action_sequence *)

(** The body of the [for action in self.action_sequence] loop. *)
Definition dispatch_action (lyric_text : string) (action : loc) : M unit :=
  a <- deref action ;;
  if String.eqb (action_type a) "text" then
    temp_action <- new_ActionBlock "text" {[ "text" := VStr lyric_text ]} ;;
    execute temp_action
  else execute action.

Fixpoint run_actions (lyric_text : string) (actions : list loc) : M unit :=
  match actions with
  | [] => ret tt
  | action :: actions' =>
      dispatch_action lyric_text action ;;
      run_actions lyric_text actions'
  end.

Definition execute_action_sequence (lyric_text : string) : M unit :=
  w <- get ;;
  run_actions lyric_text (action_sequence w).

(** *** start_filling, stop_filling

    [now] is the value [time.time()] returns. *)
Definition start_filling (now : float) : M unit :=
  w <- get ;;
  match lyrics w with
  | [] => show_warning WarnNoLyrics
  | _ :: _ =>
      if is_playing w then ret tt
      else
        modify (set_is_playing true) ;;
        modify (set_start_time (Some now)) ;;
        modify (set_current_index 0) ;;
        emit (StartButtonEnabled false) ;;
        emit (StopButtonEnabled true) ;;
        emit (SetStatus StatusFilling) ;;
        emit ThreadStart
  end.

Definition stop_filling : M unit :=
  w <- get ;;
  if negb (is_playing w) then ret tt
  else
    modify (set_is_playing false) ;;
    emit (StartButtonEnabled true) ;;
    emit (StopButtonEnabled false) ;;
    emit (SetStatus StatusStopped) ;;
    highlight_current_lyric (-1).

(** *** lyric_filling_loop *)

(** [self.lyrics[self.current_index]] *)
Definition current_lyric : M record :=
  w <- get ;;
  match lyrics w !! current_index w with
  | Some r => ret r
  | None => raise IndexError
  end.

(** One pass through the body of the [while] loop; [now] is the
    value of [time.time()]. *)
Definition loop_body (now : float) : M unit :=
  w <- get ;;
  match start_time w with
  | None => raise TypeError
  | Some t0 =>
      let current_time := PyFloat.sub now t0 in
      next <- current_lyric ;;
      (if PyFloat.ge current_time (fst next) then
         w1 <- get ;;
         highlight_current_lyric (Z.of_nat (current_index w1)) ;;
         cur <- current_lyric ;;
         execute_action_sequence (snd cur) ;;
         modify (fun w2 => set_current_index (current_index w2 + 1) w2)
       else ret tt) ;;
      emit TickSleep
  end.

(** What the other thread does between two evaluations of the loop
    condition: presses of the start and stop hotkeys or buttons. *)
Inductive ui_call :=
| CallStart (now : float)
| CallStop.

Definition run_ui_call (c : ui_call) : M unit :=
  match c with
  | CallStart now => start_filling now
  | CallStop => stop_filling
  end.

Fixpoint run_ui_calls (cs : list ui_call) : M unit :=
  match cs with
  | [] => ret tt
  | c :: cs' => run_ui_call c ;; run_ui_calls cs'
  end.

(** One evaluation of the loop condition: the calls of the other
    thread that came before it, and the clock reading used if the
    body runs. *)
Record poll := Poll { ui : list ui_call; clock : float }.

Inductive loop_exit :=
| Completed      (* left the loop with every lyric dispatched *)
| Stopped        (* left the loop with lyrics remaining *)
| Polling.       (* still in the loop when the observation ends *)

(** The code after the [while] loop. *)
Definition loop_end : M loop_exit :=
  w <- get ;;
  if (length (lyrics w) <=? current_index w)%nat then
    stop_filling ;;
    emit (SetStatus StatusCompleted) ;;
    ret Completed
  else ret Stopped.

(** [lyric_filling_loop], observed for as many evaluations of its
    condition as [polls] has entries. An exception ends the thread. *)
Fixpoint lyric_filling_loop (polls : list poll) : M loop_exit :=
  match polls with
  | [] => ret Polling
  | p :: polls' =>
      run_ui_calls (ui p) ;;
      w <- get ;;
      if is_playing w && (current_index w <? length (lyrics w))%nat then
        loop_body (clock p) ;;
        lyric_filling_loop polls'
      else loop_end
  end.

End Methods.

(** *** Vocabulary for the statements about the engine *)

(** The world after allocations and calls: the heap replaced, the
    trace extended, everything else kept. *)
Definition upd (h : gmap loc ActionBlock) (es : list event) (w : world) : world :=
  World (lyrics w) (is_playing w) (start_time w) (current_index w)
        (action_sequence w) h (trace w ++ es).

(** Calls to the keyboard and the clock made by an action. *)
Definition backend_call (ev : event) : Prop :=
  match ev with
  | KeyboardWrite _ | KeyboardPressAndRelease _ | TimeSleep _ => True
  | _ => False
  end.

(** The world [start_filling] and [stop_filling] produce when they
    act. *)
Definition started (now : float) (w : world) : world :=
  World (lyrics w) true (Some now) 0 (action_sequence w) (heap w)
        (trace w ++ [StartButtonEnabled false; StopButtonEnabled true;
                     SetStatus StatusFilling; ThreadStart]).

Definition stopped (w : world) : world :=
  World (lyrics w) false (start_time w) (current_index w)
        (action_sequence w) (heap w)
        (trace w ++ [StartButtonEnabled true; StopButtonEnabled false;
                     SetStatus StatusStopped; Highlight (-1)]).

(** Everything a session is played from is kept; the heap may grow. *)
Definition same_session (w w' : world) : Prop :=
  lyrics w' = lyrics w /\ start_time w' = start_time w /\
  action_sequence w' = action_sequence w /\ heap w ⊆ heap w'.

(** Calls made from inside the loop body. *)
Definition loop_event (ev : event) : Prop :=
  match ev with
  | KeyboardWrite _ | KeyboardPressAndRelease _ | TimeSleep _
  | TickSleep | Highlight _ => True
  | _ => False
  end.

(** The objects a list of references points to. *)
Definition resolves (h : gmap loc ActionBlock) (ls : list loc)
  (acts : list ActionBlock) : Prop :=
  Forall2 (fun l a => h !! l = Some a) ls acts.

(** The call an action of the sequence asks for when the sequence is run
    for a lyric: a text action types the lyric, a key action presses its
    stored key, a wait action sleeps its stored duration. *)
Definition action_calls (lyric_text : string) (a : ActionBlock) : list event :=
  if String.eqb (action_type a) "text" then
    [KeyboardWrite (VStr lyric_text)]
  else if String.eqb (action_type a) "key" then
    [KeyboardPressAndRelease (dict_get (params a) "key" (VStr "enter"))]
  else if String.eqb (action_type a) "wait" then
    [TimeSleep (dict_get (params a) "duration" (VInt 1))]
  else [].

Definition sequence_calls (lyric_text : string) (acts : list ActionBlock)
  : list event :=
  flat_map (action_calls lyric_text) acts.

(** The exception the backend answers a call with, if it rejects it. *)
Definition rejected (B : Backend) (ev : event) : option exn :=
  match ev with
  | KeyboardWrite v => write_error B v
  | KeyboardPressAndRelease v => press_error B v
  | TimeSleep v => sleep_error B v
  | _ => None
  end.

(** The calls made until the backend rejects one. *)
Fixpoint perform (B : Backend) (calls : list event) : list event * option exn :=
  match calls with
  | [] => ([], None)
  | ev :: calls' =>
      match rejected B ev with
      | Some e => ([], Some e)
      | None => let '(done, r) := perform B calls' in (ev :: done, r)
      end
  end.

(** The indices of the lyrics whose dispatch was announced, in order. *)
Definition fired_index (ev : event) : option nat :=
  match ev with
  | Highlight z => if 0 <=? z then Some (Z.to_nat z) else None
  | _ => None
  end.

Definition fired (evs : list event) : list nat := omap fired_index evs.

(** The other thread only ever asks to stop. *)
Definition stop_only (polls : list poll) : Prop :=
  Forall (fun p => Forall (fun c => c = CallStop) (ui p)) polls.

(** The other thread stays away. *)
Definition undisturbed (polls : list poll) : Prop :=
  Forall (fun p => ui p = []) polls.

(** The other thread only ever asks to start. *)
Definition start_only (polls : list poll) : Prop :=
  Forall (fun p => Forall (fun c => exists now, c = CallStart now) (ui p)) polls.

(** The same clock readings with no call in between. *)
Definition without_ui (polls : list poll) : list poll :=
  map (fun p => Poll [] (clock p)) polls.

(** At every poll every lyric is due. *)
Definition all_due (t0 : float) (ls : list record) (polls : list poll) : Prop :=
  Forall (fun p =>
            Forall (fun r => PyFloat.ge (PyFloat.sub (clock p) t0) (fst r) = true) ls)
         polls.

(** The backend rejects no call of the sequence, whichever lyric it is
    run for. *)
Definition accepts_all (B : Backend) (acts : list ActionBlock)
  (ls : list record) : Prop :=
  Forall (fun r => snd (perform B (sequence_calls (snd r) acts)) = None) ls.

(** What [stop_filling] calls when it acts. *)
Definition stop_events : list event :=
  [StartButtonEnabled true; StopButtonEnabled false;
   SetStatus StatusStopped; Highlight (-1)].

(** The status shown last. *)
Definition last_status (evs : list event) : option status :=
  last (omap (fun ev => match ev with SetStatus s => Some s | _ => None end) evs).

(** The number of threads started. *)
Definition is_thread_start (ev : event) : bool :=
  match ev with ThreadStart => true | _ => false end.

Definition threads_started (evs : list event) : nat :=
  length (List.filter is_thread_start evs).

(** [LyricAutoFiller.__init__]: the default sequence is a text block
    with empty text followed by the enter key. *)
Definition default_heap : gmap loc ActionBlock :=
  {[ 1%positive := {| action_type := "text"; params := {[ "text" := VStr "" ]} |};
     2%positive := {| action_type := "key"; params := {[ "key" := VStr "enter" ]} |} ]}.

Definition init : world :=
  {| lyrics := []; is_playing := false; start_time := None;
     current_index := 0; action_sequence := [1%positive; 2%positive];
     heap := default_heap; trace := [] |}.

End Engine.

(** ** Concrete inputs used in examples *)

Module Samples.
Import PyStr Parser Engine.

Fixpoint nines (n : nat) : string :=
  match n with
  | O => ""
  | S n' => String "9" (nines n')
  end.

(** A timestamp whose last group has four hundred digits. *)
Definition huge_line : string := "[0:0." +:+ nines 400 +:+ "]x".

Definition unsorted_file : list string :=
  ["[00:05.00]b"; "[00:01.00]a"; huge_line].

Fixpoint zeros (n : nat) : string :=
  match n with
  | O => ""
  | S n' => String "0" (zeros n')
  end.

(** A timestamp whose last group has one digit more than [int]
    reads. *)
Definition long_line : string := "[0:0." +:+ zeros 4301 +:+ "]x".

Definition scenario_a : list string :=
  ["[00:01.50]Hello"; "[00:00.00]Hi"; "not a tag"].

(** The key names the program's own key capture can produce. *)
Definition captured_keys : list string :=
  ["enter"; "space"; "tab"; "esc"; "backspace"; "delete";
   "up"; "down"; "left"; "right"].

(** A backend that types any text, knows the keys above, and sleeps
    any non-negative whole number of seconds. *)
Definition sample_backend : Backend :=
  {| write_error := fun v =>
       match v with VStr _ => None | _ => Some TypeError end;
     press_error := fun v =>
       match v with
       | VStr k => if existsb (String.eqb k) captured_keys then None
                   else Some ValueError
       | _ => Some TypeError
       end;
     sleep_error := fun v =>
       match v with
       | VInt n => if n <? 0 then Some ValueError else None
       | _ => Some TypeError
       end |}.

(** Floats with whole values. *)
Definition seconds (n : Z) : float :=
  binary_normalize PyFloat.prec PyFloat.emax n 0 false.

(** The application after scenario A has been loaded. *)
Definition loaded : world :=
  exec (load_lrc_file "a.lrc" (Ok scenario_a)) init.

(** ... and after playback has been started at time 0. *)
Definition playing : world := exec (start_filling (seconds 0)) loaded.

(** Polls with the clock at one hundred seconds and no call from the
    other thread. *)
Definition late_polls (n : nat) : list poll :=
  replicate n (Poll [] (seconds 100)).

(** A sequence edited to type the lyric, press a key the backend does
    not know, then press enter. *)
Definition text_block : ActionBlock :=
  {| action_type := "text"; params := {[ "text" := VStr "" ]} |}.
Definition unknown_key_block : ActionBlock :=
  {| action_type := "key"; params := {[ "key" := VStr "nosuchkey" ]} |}.
Definition enter_block : ActionBlock :=
  {| action_type := "key"; params := {[ "key" := VStr "enter" ]} |}.

Definition edited : world :=
  {| lyrics := lyrics playing; is_playing := true;
     start_time := Some (seconds 0); current_index := 0;
     action_sequence := [1%positive; 3%positive; 2%positive];
     heap := <[3%positive := unknown_key_block]> default_heap;
     trace := [] |}.

End Samples.

(** ** Lyrics of one time *)

Module Order.
Import Parser.

(** [r[0] == t] *)
Definition same_time (t : float) (r : record) : bool := SFeqb (fst r) t.

(** Two lines with the time of a third one that comes first. *)
Definition chorus_file : list string :=
  ["[00:02.00]la"; "[00:01.00]first"; "[00:01.00]second"].

End Order.

(** ** Vocabulary for whole loads and whole sessions *)

Module Session.
Import Parser Engine.

(** The time can be shown: it is not an infinity. *)
Definition finite_key (r : record) : Prop := PyFloat.is_finite (fst r) = true.

(** The call that adds the row of a record to the preview list. *)
Definition row_event (r : record) : event := LyricListAdd (fst r) (snd r).

(** The calls [load_lrc_file] makes after a load in which nothing
    raised. *)
Definition load_events (file_path : string) (ls : list record) : list event :=
  [FileLabel file_path; LyricListClear] ++ map row_event ls
  ++ [SetStatus (StatusLoaded (length ls))].

(** The calls of the passes that dispatch the lyrics [ls], the first of
    which has index [i]: each lyric is announced, its actions are run,
    and the loop sleeps one tick. *)
Fixpoint played (i : nat) (ls : list record) (acts : list ActionBlock)
  : list event :=
  match ls with
  | [] => []
  | r :: ls' =>
      [Highlight (Z.of_nat i)] ++ sequence_calls (snd r) acts ++ [TickSleep]
      ++ played (S i) ls' acts
  end.

(** A call that is not a call to the keyboard or to [time.sleep]. *)
Definition quiet (ev : event) : Prop := ~ backend_call ev.

(** At none of the polls the lyric of time [t] is due. *)
Definition not_due (t0 t : float) (polls : list poll) : Prop :=
  Forall (fun p => PyFloat.ge (PyFloat.sub (clock p) t0) t = false) polls.

(** The application playing its second lyric, one second after the
    start. *)
Definition waiting : world := set_current_index 1 Samples.playing.

Definition early_polls (n : nat) : list poll :=
  replicate n (Poll [] (Samples.seconds 1)).

End Session.

(** ** The main window around the engine *)

Module Window.
Import PyStr Parser Engine.
Local Open Scope method_scope.

(** *** The text of a row of the preview list *)

(** [int(x)] for a float: the integer part, toward zero. *)
Definition int_of_float (x : float) : res Z :=
  match x with
  | S754_zero _ => Ok 0
  | S754_finite s m e =>
      let n := if 0 <=? e then Z.shiftl (Z.pos m) e else Z.shiftr (Z.pos m) (- e) in
      Ok (if s then - n else n)
  | S754_infinity _ => Raise OverflowError
  | S754_nan => Raise ValueError
  end.

Definition mul : float -> float -> float := SFmul PyFloat.prec PyFloat.emax.

(** [x - n] and [x * n] for a float [x] and an int [n]: the int
    operand is converted first. *)
Definition float_sub_int (x : float) (n : Z) : res float :=
  res_bind (PyFloat.of_int n) (fun f => Ok (PyFloat.sub x f)).

Definition float_mul_int (x : float) (n : Z) : res float :=
  res_bind (PyFloat.of_int n) (fun f => Ok (mul x f)).

(** [str(n)] for an int. *)
Definition str (n : Z) : string := NilZero.string_of_int (Z.to_int n).

(** [f"{n:02d}"]: at least two characters, zeros in front. *)
Definition format_02d (n : Z) : string :=
  let s := str n in
  if (String.length s <? 2)%nat then "0" +:+ s else s.

(** The [time_str] of [load_lrc_file]:
    [f"{int(seconds)//60}:{int(seconds)%60:02d}.{int((seconds - int(seconds)) * 100):02d}"] *)
Definition time_str (seconds : float) : res string :=
  res_bind (int_of_float seconds) (fun whole =>
  res_bind (float_sub_int seconds whole) (fun part =>
  res_bind (float_mul_int part 100) (fun scaled =>
  res_bind (int_of_float scaled) (fun hundredths =>
  Ok (str (whole / 60) +:+ ":" +:+ format_02d (whole mod 60)
      +:+ "." +:+ format_02d hundredths))))).

(** The text of the item: [f"[{time_str}] {lyric}"] *)
Definition item_text (seconds : float) (lyric : string) : res string :=
  res_bind (time_str seconds) (fun t => Ok ("[" +:+ t +:+ "] " +:+ lyric)).

(** What a timestamp [[m:s.c]] reads as when it is shown with
    [hundredths] in its last field. *)
Definition shown_as (m s hundredths : Z) : string :=
  str m +:+ ":" +:+ format_02d s +:+ "." +:+ format_02d hundredths.

(** [time_str] shows [n] whole seconds and, in its last field, [c] or
    one less. *)
Definition shows (t : float) (n c : Z) : bool :=
  match int_of_float t with
  | Ok whole =>
      (whole =? n)
      && match res_bind (float_sub_int t whole) (fun part =>
               res_bind (float_mul_int part 100) int_of_float) with
         | Ok h => (h =? c) || (h =? c - 1)
         | Raise _ => false
         end
  | Raise _ => false
  end.

(** The same for every timestamp with less than [seconds] whole
    seconds and a last group from 00 to 99. *)
Definition shows_all (seconds : nat) : bool :=
  List.forallb
    (fun c =>
       match PyFloat.int_truediv_hundred c with
       | Ok frac =>
           List.forallb
             (fun n =>
                match PyFloat.int_add_float n frac with
                | Ok t => shows t n c
                | Raise _ => false
                end)
             (map Z.of_nat (seq 0 seconds))
       | Raise _ => false
       end)
    (map Z.of_nat (seq 0 100)).

(** The rows of [lyric_list] after the calls of a trace: [clear()]
    empties the list, [addItem] appends the row made from a record. *)
Definition list_call (rows : list record) (ev : event) : list record :=
  match ev with
  | LyricListClear => []
  | LyricListAdd seconds lyric => rows ++ [(seconds, lyric)]
  | _ => rows
  end.

Definition rows_after (evs : list event) (rows : list record) : list record :=
  foldl list_call rows evs.

(** The text [file_label] shows last, if it was set. *)
Definition last_file_label (evs : list event) : option string :=
  last (omap (fun ev => match ev with FileLabel p => Some p | _ => None end) evs).

(** *** The start and stop buttons *)







(** *** Dropping a file on the window *)

(** [str.lower] on one character, code points below 256: the letters
    A to Z and the capital letters of Latin-1 move up by 32. *)
Definition lower_char (c : ascii) : ascii :=
  let n := code c in
  if ((65 <=? n) && (n <=? 90)
      || (192 <=? n) && (n <=? 222) && negb (n =? 215))%N
  then ascii_of_N (n + 32) else c.

Fixpoint lower (s : string) : string :=
  match s with
  | String c s' => String (lower_char c) (lower s')
  | EmptyString => EmptyString
  end.

(** [s.endswith(suffix)] *)
Fixpoint endswith (suffix s : string) : bool :=
  String.eqb s suffix
  || match s with
     | String _ s' => endswith suffix s'
     | EmptyString => false
     end.

(** A [QUrl] of the dropped data, as far as the program looks at it. *)
Record url := { isLocalFile : bool; toLocalFile : string }.

(** [LyricAutoFiller.dropEvent]; [fs] gives what
    [open(path).readlines()] does for each path. *)
Definition dropEvent (fs : string -> res (list string)) (urls : list url)
  : M unit :=
  match urls with
  | u :: _ =>
      if isLocalFile u then
        let file_path := toLocalFile u in
        if endswith ".lrc" (lower file_path)
        then load_lrc_file file_path (fs file_path)
        else ret tt
      else ret tt
  | [] => ret tt
  end.

(** The three letters of the extension in either case. *)
Definition either_case (small capital c : ascii) : Prop := c = small \/ c = capital.

Definition lrc_name (file_path : string) : Prop :=
  exists stem l r c,
    either_case "l" "L" l /\ either_case "r" "R" r /\ either_case "c" "C" c /\
    file_path = stem +:+ String "." (String l (String r (String c ""))).

End Window.

(** ** The action editor *)

Module Editor.
Import PyStr Parser Engine.
Local Open Scope method_scope.

(** The texts of column 0 of the sequence list. *)
Inductive label :=
| NoLabel
| InputText      (* "输入文本" *)
| PressKey       (* "按键" *)
| Wait.          (* "等待" *)

(** The texts of column 1. *)
Inductive column :=
| NoText
| Text (s : string)
| Seconds (v : value).   (* f"{v}秒" *)

(** A row of [sequence_list]: the data of the two columns under
    [Qt.UserRole], and the two texts. *)
Record item := {
  data0 : string;
  data1 : gmap string value;
  text0 : label;
  text1 : column
}.

Definition set_text0 (l : label) (it : item) : item :=
  {| data0 := data0 it; data1 := data1 it; text0 := l; text1 := text1 it |}.
Definition set_text1 (c : column) (it : item) : item :=
  {| data0 := data0 it; data1 := data1 it; text0 := text0 it; text1 := c |}.

(** [item.setText(1, v)]: the binding takes a [str] and raises
    [TypeError] for anything else. *)
Definition setText1 (v : value) (it : item) : res unit * item :=
  match v with
  | VStr s => (Ok tt, set_text1 (Text s) it)
  | _ => (Raise TypeError, it)
  end.

(** [ActionEditor.update_item_display] *)
Definition update_item_display (it : item) (action_type : string)
  (params : gmap string value) : res unit * item :=
  if String.eqb action_type "text" then
    setText1 (dict_get params "text" (VStr "")) (set_text0 InputText it)
  else if String.eqb action_type "key" then
    setText1 (dict_get params "key" (VStr "enter")) (set_text0 PressKey it)
  else if String.eqb action_type "wait" then
    (Ok tt, set_text1 (Seconds (dict_get params "duration" (VInt 1)))
                      (set_text0 Wait it))
  else (Ok tt, it).

(** [params or {}]: the dict itself, or an empty one for [None] and
    for a dict that is empty already. *)
Definition or_empty (params : option (gmap string value)) : gmap string value :=
  match params with
  | Some p => p
  | None => ∅
  end.

(** [ActionEditor.add_action]: the new item is in the list before its
    texts are set. *)
Definition add_action (action_type : string)
  (params : option (gmap string value)) (sequence_list : list item)
  : res unit * list item :=
  let it := {| data0 := action_type; data1 := or_empty params;
               text0 := NoLabel; text1 := NoText |} in
  let '(r, it') := update_item_display it action_type (or_empty params) in
  (r, sequence_list ++ [it']).

(** The loop of [set_actions]. *)
Fixpoint add_actions (actions : list ActionBlock) (sequence_list : list item)
  : res unit * list item :=
  match actions with
  | [] => (Ok tt, sequence_list)
  | action :: actions' =>
      match add_action (action_type action) (Some (params action)) sequence_list with
      | (Ok _, l) => add_actions actions' l
      | (Raise e, l) => (Raise e, l)
      end
  end.

(** [ActionEditor.set_actions]: [sequence_list.clear()], then one row
    for each action. *)
Definition set_actions (actions : list ActionBlock) (sequence_list : list item)
  : res unit * list item :=
  add_actions actions [].

(** [ActionEditor.clear_actions] *)
Definition clear_actions (sequence_list : list item) : list item := [].

(** [ActionEditor.remove_action]; [current] is the index of
    [currentItem()], if there is one. *)
Definition remove_action (current : option nat) (sequence_list : list item)
  : list item :=
  match current with
  | Some index => delete index sequence_list
  | None => sequence_list
  end.

(** [ActionEditor.get_actions]: a new [ActionBlock] for each row. *)
Fixpoint get_actions (sequence_list : list item) : M (list loc) :=
  match sequence_list with
  | [] => ret []
  | it :: l =>
      a <- new_ActionBlock (data0 it) (or_empty (Some (data1 it))) ;;
      actions <- get_actions l ;;
      ret (a :: actions)
  end.

(** The objects behind a list of references. *)
Fixpoint deref_all (ls : list loc) : M (list ActionBlock) :=
  match ls with
  | [] => ret []
  | l :: ls' =>
      a <- deref l ;;
      actions <- deref_all ls' ;;
      ret (a :: actions)
  end.

Definition set_action_sequence (ls : list loc) (w : world) : world :=
  World (lyrics w) (is_playing w) (start_time w) (current_index w)
        ls (heap w) (trace w).

(** [LyricAutoFiller.open_action_editor]. What happens between the
    opening of the dialog and its end is the user's doing:
    [dialog_exec] gives, for the rows the dialog opens with, the value
    of [dialog.exec()] and the rows the dialog ends with. *)
Definition open_action_editor (dialog_exec : list item -> bool * list item)
  : M unit :=
  w <- get ;;
  actions <- deref_all (action_sequence w) ;;
  match set_actions actions [] with
  | (Raise e, _) => raise e
  | (Ok _, rows) =>
      let '(accepted, rows') := dialog_exec rows in
      if accepted then
        new_sequence <- get_actions rows' ;;
        modify (set_action_sequence new_sequence)
      else ret tt
  end.

(** The row [add_action] makes for an action. *)
Definition row_of (a : ActionBlock) : item :=
  snd (update_item_display
         {| data0 := action_type a; data1 := params a;
            text0 := NoLabel; text1 := NoText |}
         (action_type a) (params a)).

(** The action a row stands for. *)
Definition block_of (it : item) : ActionBlock :=
  {| action_type := data0 it; params := data1 it |}.

(** The parameter a text or key action shows is a string. *)
Definition displayable (a : ActionBlock) : Prop :=
  (action_type a = "text" -> exists s, dict_get (params a) "text" (VStr "") = VStr s) /\
  (action_type a = "key" -> exists s, dict_get (params a) "key" (VStr "enter") = VStr s).

(** The user presses OK, or Cancel, without touching the rows. *)
Definition press_ok (rows : list item) : bool * list item := (true, rows).
Definition press_cancel (rows : list item) : bool * list item := (false, rows).

(** What the user can do to the rows with the two buttons whose
    [clicked] signal is connected to a method of the dialog: press the
    remove button, with or without a current row, and press the clear
    button. Drags and drops are not among the edits: the dialog does
    not accept drops, so that its [dropEvent] is not what a drop runs;
    a drop on the list is handled by the tree widget of Qt. *)
Inductive edit :=
| Remove (current : option nat)
| Clear.

Definition apply_edit (rows : list item) (e : edit) : list item :=
  match e with
  | Remove current => remove_action current rows
  | Clear => clear_actions rows
  end.

(** The user makes the edits in turn and presses OK. *)
Definition edit_and_press_ok (es : list edit) (rows : list item)
  : bool * list item :=
  (true, foldl apply_edit rows es).

(** The same edits made to a list of actions. *)
Definition edit_action_list (acts : list ActionBlock) (e : edit)
  : list ActionBlock :=
  match e with
  | Remove (Some index) => delete index acts
  | Remove None => acts
  | Clear => []
  end.

End Editor.

(** ** The global hotkeys *)

Module Hotkeys.

(** The two methods given to [keyboard.add_hotkey]. *)
Inductive callback := StartFilling | StopFilling.

(** The calls of [set_hotkey] and [register_hotkeys] that leave the
    object. *)
Inductive call :=
| RemoveHotkey (hotkey : string)               (* keyboard.remove_hotkey *)
| AddHotkey (hotkey : string) (f : callback)   (* keyboard.add_hotkey *)
| StartHotkeyButton (key : string)    (* start_hotkey_btn.setText(key.upper()) *)
| StopHotkeyButton (key : string)     (* stop_hotkey_btn.setText(key.upper()) *)
| HotkeyWarning (e : exn).            (* show_warning("热键注册失败", ...) *)

(** The two attributes, and the calls made so far, oldest first. *)
Record settings := {
  start_hotkey : string;
  stop_hotkey : string;
  calls : list call
}.

Definition add_call (c : call) (s : settings) : settings :=
  {| start_hotkey := start_hotkey s; stop_hotkey := stop_hotkey s;
     calls := calls s ++ [c] |}.
Definition set_start_hotkey (key : string) (s : settings) : settings :=
  {| start_hotkey := key; stop_hotkey := stop_hotkey s; calls := calls s |}.
Definition set_stop_hotkey (key : string) (s : settings) : settings :=
  {| start_hotkey := start_hotkey s; stop_hotkey := key; calls := calls s |}.

(** The [keyboard] library is not part of the program. What the two
    methods depend on is which calls it answers with an exception; the
    answer may depend on the calls made before. *)
Record Keyboard := {
  remove_hotkey_error : list call -> string -> option exn;
  add_hotkey_error : list call -> string -> option exn
}.

Section Methods.
Variable K : Keyboard.

(** [register_hotkeys]: both hotkeys are added; the first exception
    ends the attempt with a warning. *)
Definition register_hotkeys (s : settings) : settings :=
  match add_hotkey_error K (calls s) (start_hotkey s) with
  | Some e => add_call (HotkeyWarning e) s
  | None =>
      let s1 := add_call (AddHotkey (start_hotkey s) StartFilling) s in
      match add_hotkey_error K (calls s1) (stop_hotkey s1) with
      | Some e => add_call (HotkeyWarning e) s1
      | None => add_call (AddHotkey (stop_hotkey s1) StopFilling) s1
      end
  end.

(** [set_hotkey]: the old hotkey of the kind is removed and the new
    key stored; an exception of the removal is swallowed, and with it
    the new key. Then both hotkeys are registered. *)
Definition set_hotkey (hotkey_type key : string) (s : settings) : settings :=
  let s1 :=
    if String.eqb hotkey_type "start" then
      match remove_hotkey_error K (calls s) (start_hotkey s) with
      | Some _ => s
      | None =>
          add_call (StartHotkeyButton key)
            (set_start_hotkey key (add_call (RemoveHotkey (start_hotkey s)) s))
      end
    else
      match remove_hotkey_error K (calls s) (stop_hotkey s) with
      | Some _ => s
      | None =>
          add_call (StopHotkeyButton key)
            (set_stop_hotkey key (add_call (RemoveHotkey (stop_hotkey s)) s))
      end
  in
  register_hotkeys s1.

(** The hotkey part of [LyricAutoFiller.__init__]. *)
Definition init : settings :=
  register_hotkeys {| start_hotkey := "f6"; stop_hotkey := "f7"; calls := [] |}.

(** Changes of hotkeys made one after the other, each given as the
    kind and the new key. *)
Definition set_hotkeys (changes : list (string * string)) (s : settings)
  : settings :=
  foldl (fun s c => set_hotkey (fst c) (snd c) s) s changes.

End Methods.

Definition is_add (c : call) : bool :=
  match c with AddHotkey _ _ => true | _ => false end.
Definition is_remove (c : call) : bool :=
  match c with RemoveHotkey _ => true | _ => false end.

(** The numbers of calls that add and that remove a hotkey. *)
Definition added (cs : list call) : nat := length (List.filter is_add cs).
Definition removed (cs : list call) : nat := length (List.filter is_remove cs).

(** A library that takes every call. *)
Definition accepts (K : Keyboard) : Prop :=
  (forall cs k, remove_hotkey_error K cs k = None) /\
  (forall cs k, add_hotkey_error K cs k = None).

Definition obliging : Keyboard :=
  {| remove_hotkey_error := fun _ _ => None;
     add_hotkey_error := fun _ _ => None |}.

End Hotkeys.

(** ** Key capture *)

Module Keys.
Import PyStr Window.

(** The members of [Qt.Key] the program compares a key with. Their
    values belong to Qt, not to the program. *)
Record QtKey := {
  Key_A : Z; Key_Z : Z; Key_0 : Z; Key_9 : Z;
  Key_Space : Z; Key_Enter : Z; Key_Return : Z; Key_Tab : Z;
  Key_Escape : Z; Key_Backspace : Z; Key_Delete : Z;
  Key_Up : Z; Key_Down : Z; Key_Left : Z; Key_Right : Z;
  Key_F1 : Z; Key_F2 : Z; Key_F3 : Z; Key_F4 : Z; Key_F5 : Z; Key_F6 : Z;
  Key_F7 : Z; Key_F8 : Z; Key_F9 : Z; Key_F10 : Z; Key_F11 : Z; Key_F12 : Z
}.

(** The values Qt 6 documents. *)
Definition qt6 : QtKey :=
  {| Key_A := 0x41; Key_Z := 0x5a; Key_0 := 0x30; Key_9 := 0x39;
     Key_Space := 0x20; Key_Enter := 0x01000005; Key_Return := 0x01000004;
     Key_Tab := 0x01000001; Key_Escape := 0x01000000;
     Key_Backspace := 0x01000003; Key_Delete := 0x01000007;
     Key_Up := 0x01000013; Key_Down := 0x01000015;
     Key_Left := 0x01000012; Key_Right := 0x01000014;
     Key_F1 := 0x01000030; Key_F2 := 0x01000031; Key_F3 := 0x01000032;
     Key_F4 := 0x01000033; Key_F5 := 0x01000034; Key_F6 := 0x01000035;
     Key_F7 := 0x01000036; Key_F8 := 0x01000037; Key_F9 := 0x01000038;
     Key_F10 := 0x01000039; Key_F11 := 0x0100003a; Key_F12 := 0x0100003b |}.

(** [chr(key)], for the code points below 256. *)
Definition chr (key : Z) : string := String (ascii_of_N (Z.to_N key)) "".

Section Capture.
Variable Q : QtKey.

(** [get_key_name], the same in [HotkeyCaptureDialog] and in
    [ActionParamsDialog]; [None] is Python's [None]. *)
Definition get_key_name (key : Z) : option string :=
  if (Key_A Q <=? key) && (key <=? Key_Z Q) then Some (lower (chr key))
  else if (Key_0 Q <=? key) && (key <=? Key_9 Q) then Some (chr key)
  else if key =? Key_Space Q then Some "space"
  else if (key =? Key_Enter Q) || (key =? Key_Return Q) then Some "enter"
  else if key =? Key_Tab Q then Some "tab"
  else if key =? Key_Escape Q then Some "esc"
  else if key =? Key_Backspace Q then Some "backspace"
  else if key =? Key_Delete Q then Some "delete"
  else if key =? Key_Up Q then Some "up"
  else if key =? Key_Down Q then Some "down"
  else if key =? Key_Left Q then Some "left"
  else if key =? Key_Right Q then Some "right"
  else if key =? Key_F1 Q then Some "f1"
  else if key =? Key_F2 Q then Some "f2"
  else if key =? Key_F3 Q then Some "f3"
  else if key =? Key_F4 Q then Some "f4"
  else if key =? Key_F5 Q then Some "f5"
  else if key =? Key_F6 Q then Some "f6"
  else if key =? Key_F7 Q then Some "f7"
  else if key =? Key_F8 Q then Some "f8"
  else if key =? Key_F9 Q then Some "f9"
  else if key =? Key_F10 Q then Some "f10"
  else if key =? Key_F11 Q then Some "f11"
  else if key =? Key_F12 Q then Some "f12"
  else None.

(** The modifiers of a key event the dialog looks at:
    [modifiers & Qt.ControlModifier] and so on. *)
Record modifiers := { control : bool; alt : bool; shift : bool }.

(** The prefix [HotkeyCaptureDialog.keyPressEvent] builds. *)
Definition prefix (m : modifiers) : string :=
  (if control m then "ctrl+" else "")
  +:+ (if alt m then "alt+" else "")
  +:+ (if shift m then "shift+" else "").

(** [HotkeyCaptureDialog.keyPressEvent]: the string given to
    [key_captured.emit], after which the dialog is accepted; [None]
    when the key has no name and the dialog stays open. *)
Definition keyPressEvent (key : Z) (m : modifiers) : option string :=
  match get_key_name key with
  | Some key_name => Some (prefix m +:+ key_name)
  | None => None
  end.

End Capture.

Definition PLUS : ascii := "+"%char.

(** No plus sign in the string. *)
Definition no_plus (s : string) : bool :=
  forallb (fun c => negb (if ascii_dec c PLUS then true else false)) s.

(** What follows the last plus sign of a string. *)
Fixpoint after_last_plus (s : string) : string :=
  match s with
  | String c s' =>
      if no_plus s' then (if ascii_dec c PLUS then s' else s)
      else after_last_plus s'
  | EmptyString => EmptyString
  end.

(** A name is well formed: not empty, in lower case, without a plus
    sign. *)
Definition well_formed (s : string) : bool :=
  negb (is_empty s) && String.eqb (lower s) s && no_plus s.

(** The letters and the digits have the codes of their characters. *)
Definition ascii_keys (Q : QtKey) : Prop :=
  Key_A Q = 65 /\ Key_Z Q = 90 /\ Key_0 Q = 48 /\ Key_9 Q = 57.

End Keys.

(** * Properties *)

(** ** Strings *)

Module PyStrFacts.
Import PyStr.

Lemma app_assoc_s (a b c : string) : (a +:+ b) +:+ c = a +:+ (b +:+ c).
Proof. induction a as [|x a IH]; simpl; [reflexivity | now rewrite IH]. Qed.

Lemma app_nil_r_s (a : string) : a +:+ "" = a.
Proof. induction a as [|x a IH]; simpl; [reflexivity | now rewrite IH]. Qed.

Lemma length_app_s (a b : string) :
  String.length (a +:+ b) = (String.length a + String.length b)%nat.
Proof. induction a as [|x a IH]; simpl; [reflexivity | now rewrite IH]. Qed.

Lemma forallb_app (p : ascii -> bool) (a b : string) :
  forallb p (a +:+ b) = forallb p a && forallb p b.
Proof.
  induction a as [|x a IH]; simpl; [reflexivity |].
  rewrite IH. now rewrite andb_assoc.
Qed.

Lemma isspace_LF : isspace LF = true.
Proof. reflexivity. Qed.

(** Every line [readlines] returns has its line feed, if any, at the
    end. *)
Lemma readlines_single_line (text : string) :
  Forall (fun l => single_line l = true) (readlines text).
Proof.
  induction text as [|c text IH]; cbn [readlines]; [constructor |].
  destruct (ascii_dec c LF) as [->|Hc].
  - constructor; [reflexivity | exact IH].
  - destruct (readlines text) as [|l ls]; [repeat constructor |].
    apply Forall_cons in IH. destruct IH as [Hl Hls].
    constructor; [| exact Hls].
    cbn [single_line]. destruct (ascii_dec c LF); [contradiction |].
    cbn. rewrite Hl. apply orb_true_r.
Qed.

Example readlines_example :
  readlines ("[00:01.50]Hello" +:+ String LF "[00:00.00]Hi")
  = ["[00:01.50]Hello" +:+ String LF ""; "[00:00.00]Hi"].
Proof. reflexivity. Qed.

Lemma single_line_lstrip (s : string) :
  single_line s = true -> single_line (lstrip s) = true.
Proof.
  induction s as [|c s IH]; [reflexivity |].
  intros H. cbn [lstrip]. destruct (isspace c); [| exact H].
  apply IH. cbn [single_line] in H.
  destruct s as [|c' s']; [reflexivity |].
  cbn [is_empty] in H. rewrite orb_false_l in H.
  apply andb_true_iff in H. tauto.
Qed.

Lemma no_lf_rstrip (s : string) :
  single_line s = true -> no_lf (rstrip s) = true.
Proof.
  induction s as [|c s IH]; [reflexivity |].
  intros H. cbn [rstrip single_line] in *.
  destruct s as [|c' s'].
  - cbn. destruct (isspace c) eqn:Hsp; [reflexivity |].
    cbn. destruct (ascii_dec c LF) as [->|]; [| reflexivity].
    rewrite isspace_LF in Hsp. discriminate.
  - cbn [is_empty] in H. rewrite orb_false_l in H.
    apply andb_true_iff in H. destruct H as [Hc Hs].
    specialize (IH Hs).
    destruct (is_empty (rstrip (String c' s')) && isspace c); [reflexivity |].
    unfold no_lf in *. cbn [forallb]. now rewrite Hc, IH.
Qed.

(** The stripped form of a line read by [readlines()] has no line
    feed in it. *)
Lemma no_lf_strip (s : string) :
  single_line s = true -> no_lf (strip s) = true.
Proof. intros H. apply no_lf_rstrip, single_line_lstrip, H. Qed.

Lemma no_lf_app (a b : string) :
  no_lf (a +:+ b) = no_lf a && no_lf b.
Proof. apply forallb_app. Qed.

End PyStrFacts.

(** ** The matcher *)

Module ReFacts.
Import PyStr PyStrFacts Re.

Lemma greedy_sound {A} cs s caps (k : @cont A) x :
  greedy cs s caps k = Some x ->
  exists d s', s = d +:+ s' /\ forallb (charset_mem cs) d = true /\
               k s' caps = Some x.
Proof.
  induction s as [|c s IH]; cbn [greedy]; intros H.
  - exists "", "". auto.
  - destruct (charset_mem cs c) eqn:Hc.
    + destruct (greedy cs s caps k) as [y|] eqn:Hg.
      * destruct (IH H) as (d & s' & -> & Hd & Hk).
        exists (String c d), s'. cbn. rewrite Hc, Hd.
        split; [reflexivity | split; [reflexivity | assumption]].
      * exists "", (String c s). auto.
    + exists "", (String c s). auto.
Qed.

(** Every success of the backtracking matcher is a match. *)
Lemma run_sound {A} r : forall s caps (k : @cont A) x,
  run r s caps k = Some x ->
  exists s' caps', matches r s s' /\ k s' caps' = Some x.
Proof.
  induction r as [cs|cs|cs|r1 IH1 r2 IH2|r1 IH1 r2 IH2|n r IH];
    intros s caps k x H; cbn [run] in H.
  - destruct s as [|c s]; [discriminate |].
    destruct (charset_mem cs c) eqn:Hc; [| discriminate].
    exists s, caps. split; [now constructor | assumption].
  - destruct s as [|c s]; [discriminate |].
    destruct (charset_mem cs c) eqn:Hc; [| discriminate].
    apply greedy_sound in H. destruct H as (d & s' & -> & Hd & Hk).
    exists s', caps. split; [| assumption].
    change (String c (d +:+ s')) with (String c d +:+ s').
    constructor; [discriminate |]. cbn. now rewrite Hc, Hd.
  - apply greedy_sound in H. destruct H as (d & s' & -> & Hd & Hk).
    exists s', caps. split; [now constructor | assumption].
  - apply IH1 in H. destruct H as (s1 & caps1 & Hm1 & H).
    apply IH2 in H. destruct H as (s2 & caps2 & Hm2 & H).
    exists s2, caps2. split; [econstructor; eassumption | assumption].
  - destruct (run r1 s caps k) as [y|] eqn:H1.
    + apply IH1 in H1. destruct H1 as (s' & caps' & Hm & Hk).
      exists s', caps'. split; [now apply MAltL | congruence].
    + apply IH2 in H. destruct H as (s' & caps' & Hm & Hk).
      exists s', caps'. split; [now apply MAltR | assumption].
  - apply IH in H. destruct H as (s' & caps' & Hm & Hk).
    eexists s', _. split; [constructor; eassumption | eassumption].
Qed.

Lemma re_match_sound r s caps :
  re_match r s = Some caps -> exists s', matches r s s'.
Proof.
  unfold re_match. intros H. apply run_sound in H.
  destruct H as (s' & _ & Hm & _). eauto.
Qed.

(** *** Matching is deterministic when what follows a run cannot
    start inside the run. *)

Lemma greedy_all {A} cs d rest caps (k : @cont A) :
  forallb (charset_mem cs) d = true ->
  starts_in cs rest = false ->
  rejects cs k ->
  greedy cs (d +:+ rest) caps k = k rest caps.
Proof.
  intros Hd Hrest Hk. induction d as [|c d IH]; cbn [append greedy].
  - destruct rest as [|c rest]; [reflexivity |].
    cbn in Hrest. cbn [greedy]. now rewrite Hrest.
  - cbn in Hd. apply andb_true_iff in Hd. destruct Hd as [Hc Hd].
    rewrite Hc, (IH Hd).
    destruct (k rest caps); [reflexivity |]. now apply Hk.
Qed.

Lemma greedy_first {A} cs d rest caps (k : @cont A) x :
  forallb (charset_mem cs) d = true ->
  starts_in cs rest = false ->
  k rest caps = Some x ->
  greedy cs (d +:+ rest) caps k = Some x.
Proof.
  intros Hd Hrest Hk. induction d as [|c d IH]; cbn [append greedy].
  - destruct rest as [|c rest]; [assumption |].
    cbn in Hrest. cbn [greedy]. now rewrite Hrest.
  - cbn in Hd. apply andb_true_iff in Hd. destruct Hd as [Hc Hd].
    now rewrite Hc, (IH Hd).
Qed.

Lemma consumed_app (d rest : string) :
  consumed (d +:+ rest) (String.length d) = d.
Proof. induction d as [|c d IH]; cbn; [now destruct rest | now rewrite IH]. Qed.

Lemma consumed_upto_app (d rest : string) :
  consumed_upto (d +:+ rest) rest = d.
Proof.
  unfold consumed_upto. rewrite length_app_s.
  replace (String.length d + String.length rest - String.length rest)%nat
    with (String.length d) by lia.
  apply consumed_app.
Qed.

Lemma run_lit {A} c s caps (k : @cont A) :
  run (lit c) (String c s) caps k = k s caps.
Proof. cbn. destruct (ascii_dec c c); [reflexivity | congruence]. Qed.

Lemma run_lit_ne {A} c a s caps (k : @cont A) :
  a <> c -> run (lit c) (String a s) caps k = None.
Proof. intros H. cbn. destruct (ascii_dec a c); [congruence | reflexivity]. Qed.

(** A run of digits followed by a continuation that rejects digits
    is consumed whole. *)
Lemma run_digits {A} d rest caps (k : @cont A) :
  d <> "" -> forallb isdigit d = true ->
  starts_in CsDigit rest = false ->
  rejects CsDigit k ->
  run digits (d +:+ rest) caps k = k rest caps.
Proof.
  intros Hne Hd Hrest Hk. destruct d as [|c d]; [congruence |].
  cbn in Hd. apply andb_true_iff in Hd. destruct Hd as [Hc Hd].
  cbn [digits run append]. cbn [charset_mem]. rewrite Hc.
  now apply greedy_all.
Qed.

Lemma rejects_lit {A} c r (k : @cont A) :
  isdigit c = false ->
  rejects CsDigit (fun s caps => run (RSeq (lit c) r) s caps k).
Proof.
  intros Hc a s caps Ha. cbn in Ha. cbn [run]. apply run_lit_ne.
  intros ->. congruence.
Qed.

Lemma rejects_lit_last {A} c (k : @cont A) :
  isdigit c = false ->
  rejects CsDigit (fun s caps => run (lit c) s caps k).
Proof.
  intros Hc a s caps Ha. cbn in Ha. apply run_lit_ne.
  intros ->. congruence.
Qed.

End ReFacts.


(** ** Floats: what the parser computes is never negative or NaN *)

Module PyFloatFacts.
Import PyFloat.

Lemma iter_pos_invariant {A} (P : A -> Prop) (f : A -> A) :
  (forall x, P x -> P (f x)) -> forall p x, P x -> P (SpecFloat.iter_pos f p x).
Proof.
  intros Hf. induction p as [p IH|p IH|]; intros x Hx; cbn; auto.
Qed.

Lemma shr_1_nonneg (mrs : shr_record) :
  0 <= shr_m mrs -> 0 <= shr_m (shr_1 mrs).
Proof.
  destruct mrs as [m r s]. cbn. intros Hm.
  destruct m as [|p|p]; [cbn; lia | | lia].
  destruct p; cbn; lia.
Qed.

Lemma shr_nonneg (mrs : shr_record) (e n : Z) :
  0 <= shr_m mrs -> 0 <= shr_m (fst (shr mrs e n)).
Proof.
  intros Hm. unfold shr. destruct n as [|p|p]; cbn [fst]; try assumption.
  apply (iter_pos_invariant (fun x => 0 <= shr_m x)); [apply shr_1_nonneg | assumption].
Qed.

Lemma shr_record_of_loc_m (m : Z) (l : location) :
  shr_m (shr_record_of_loc m l) = m.
Proof. destruct l as [|[]]; reflexivity. Qed.

Lemma shr_fexp_nonneg (p em m e : Z) (l : location) :
  0 <= m -> 0 <= shr_m (fst (shr_fexp p em m e l)).
Proof.
  intros Hm. unfold shr_fexp. apply shr_nonneg. now rewrite shr_record_of_loc_m.
Qed.

Lemma round_nearest_even_nonneg (m : Z) (l : location) :
  0 <= m -> 0 <= round_nearest_even m l.
Proof.
  intros Hm. unfold round_nearest_even.
  destruct l as [|[]]; try destruct (Z.even m); lia.
Qed.

(** Rounding a non-negative mantissa never gives a NaN or a negative
    value. *)
Lemma binary_round_aux_nonneg (p em m e : Z) (l : location) :
  0 <= m -> nonneg (binary_round_aux p em false m e l) = true.
Proof.
  intros Hm. unfold binary_round_aux.
  pose proof (shr_fexp_nonneg p em m e l Hm) as H1.
  destruct (shr_fexp p em m e l) as [mrs' e'] eqn:E1. cbn [fst] in H1.
  pose proof (shr_fexp_nonneg p em _ e' loc_Exact
                (round_nearest_even_nonneg _ (loc_of_shr_record mrs') H1)) as H2.
  destruct (shr_fexp p em (round_nearest_even (shr_m mrs') (loc_of_shr_record mrs'))
              e' loc_Exact) as [mrs'' e''] eqn:E2.
  cbn [fst] in H2.
  destruct (shr_m mrs'') as [|q|q]; [reflexivity | | lia].
  destruct (e'' <=? em - p); reflexivity.
Qed.

Lemma binary_round_nonneg (p em : Z) (m : positive) (e : Z) :
  nonneg (binary_round p em false m e) = true.
Proof.
  unfold binary_round.
  destruct (shl_align m e _) as [mz ez]. now apply binary_round_aux_nonneg.
Qed.

Lemma binary_normalize_nonneg (p em n e : Z) :
  0 <= n -> nonneg (binary_normalize p em n e false) = true.
Proof.
  intros Hn. destruct n as [|q|q]; [reflexivity | apply binary_round_nonneg | lia].
Qed.

Lemma of_int_nonneg (n : Z) (x : float) :
  0 <= n -> of_int n = Ok x -> nonneg x = true /\ is_finite x = true.
Proof.
  intros Hn. unfold of_int.
  pose proof (binary_normalize_nonneg prec emax n 0 Hn) as H.
  destruct (binary_normalize prec emax n 0 false); intros [= <-];
    (split; [exact H | try reflexivity]). discriminate H.
Qed.

Lemma hundred_eq : hundred = S754_finite false 7036874417766400 (-46).
Proof. reflexivity. Qed.

Lemma div_hundred_nonneg (x : float) :
  nonneg x = true -> nonneg (div x hundred) = true.
Proof.
  rewrite hundred_eq. unfold div.
  destruct x as [s|s| |s m e]; cbn [nonneg SFdiv]; try discriminate.
  - reflexivity.
  - now rewrite xorb_false_r.
  - destruct s; [discriminate |]. intros _. cbn [xorb].
    destruct (SFdiv_core_binary prec emax (Z.pos m) e 7036874417766400 (-46))
      as [[mz ez] lz] eqn:E.
    apply binary_round_aux_nonneg.
    unfold SFdiv_core_binary in E.
    match type of E with
    | (let '(q, r) := Z.div_eucl ?a ?b in _) = _ =>
        pose proof (Z.div_pos a b) as Hq; unfold Z.div in Hq;
        destruct (Z.div_eucl a b) as [q r] eqn:Ediv
    end.
    injection E as <- _ _. apply Hq; [| lia].
    match goal with |- 0 <= match ?s with _ => _ end =>
      destruct s eqn:Es; [lia | | lia] end.
    apply Z.shiftl_nonneg. lia.
Qed.

Lemma add_nonneg (x y : float) :
  nonneg x = true -> nonneg y = true -> nonneg (add x y) = true.
Proof.
  unfold add.
  destruct x as [sx|sx| |sx mx ex], y as [sy|sy| |sy my ey];
    cbn [nonneg SFadd]; try discriminate; try (intros; assumption).
  - destruct sx, sy; reflexivity.
  - destruct sx, sy; try discriminate; reflexivity.
  - destruct sx, sy; try discriminate. intros _ _.
    cbn [cond_Zopp]. apply binary_normalize_nonneg. lia.
Qed.

Lemma compare_cont_Eq (p q : positive) : Pos.compare_cont Eq p q = (p ?= q)%positive.
Proof. reflexivity. Qed.

Lemma le_rank (x y : float) :
  nonneg x = true -> nonneg y = true ->
  (le x y = true <-> lex_le (rank x) (rank y)).
Proof.
  unfold le, SFleb.
  destruct x as [sx|sx| |sx mx ex], y as [sy|sy| |sy my ey];
    cbn [nonneg SFcompare rank lex_le]; try discriminate;
    repeat match goal with s : bool |- _ => destruct s end;
    cbn [negb]; try discriminate; intros _ _;
    try (split; [intros _; lia | reflexivity]);
    try (split; [discriminate | lia]).
  rewrite compare_cont_Eq.
  destruct (Z.compare_spec ex ey); destruct (Pos.compare_spec mx my);
    split; try discriminate; try reflexivity; lia.
Qed.

Lemma lt_rank (x y : float) :
  nonneg x = true -> nonneg y = true ->
  (lt x y = true <-> lex_lt (rank x) (rank y)).
Proof.
  unfold lt, SFltb.
  destruct x as [sx|sx| |sx mx ex], y as [sy|sy| |sy my ey];
    cbn [nonneg SFcompare rank lex_lt]; try discriminate;
    repeat match goal with s : bool |- _ => destruct s end;
    cbn [negb]; try discriminate; intros _ _;
    try (split; [intros _; lia | reflexivity]);
    try (split; [discriminate | lia]).
  rewrite compare_cont_Eq.
  destruct (Z.compare_spec ex ey); destruct (Pos.compare_spec mx my);
    split; try discriminate; try reflexivity; lia.
Qed.

Lemma le_trans (x y z : float) :
  nonneg x = true -> nonneg y = true -> nonneg z = true ->
  le x y = true -> le y z = true -> le x z = true.
Proof.
  intros Hx Hy Hz. rewrite !le_rank by assumption.
  destruct (rank x) as [[? ?] ?], (rank y) as [[? ?] ?], (rank z) as [[? ?] ?].
  cbn. lia.
Qed.

Lemma lt_le (x y : float) :
  nonneg x = true -> nonneg y = true -> lt x y = true -> le x y = true.
Proof.
  intros Hx Hy. rewrite lt_rank, le_rank by assumption.
  destruct (rank x) as [[? ?] ?], (rank y) as [[? ?] ?]. cbn. lia.
Qed.

Lemma not_lt_le (x y : float) :
  nonneg x = true -> nonneg y = true -> lt x y = false -> le y x = true.
Proof.
  intros Hx Hy H. apply le_rank; [assumption .. |].
  assert (Hn : ~ lex_lt (rank x) (rank y)).
  { intros Hlt. apply lt_rank in Hlt; [congruence | assumption ..]. }
  destruct (rank x) as [[? ?] ?], (rank y) as [[? ?] ?]. cbn in *. lia.
Qed.

End PyFloatFacts.


(** ** The parser on one line *)

Module ParserFacts.
Import PyStr PyStrFacts Re ReFacts Parser.

Lemma is_number_inv (s : string) :
  is_number s = true -> s <> "" /\ forallb isdigit s = true.
Proof.
  unfold is_number. intros H. apply andb_true_iff in H. destruct H as [H1 H2].
  split; [| assumption]. intros ->. discriminate.
Qed.

Lemma is_number_intro (s : string) :
  s <> "" -> forallb isdigit s = true -> is_number s = true.
Proof.
  intros H1 H2. unfold is_number. rewrite H2. destruct s; [congruence | reflexivity].
Qed.

Lemma int_number (s : string) :
  is_number s = true -> short s -> int s = Ok (digits_value 0 s).
Proof.
  unfold int, is_number, short. intros -> H.
  apply Nat.leb_le in H. now rewrite H.
Qed.

Lemma int_long (s : string) :
  is_number s = true -> ~ short s -> int s = Raise ValueError.
Proof.
  unfold int, is_number, short. intros -> H.
  destruct (String.length s <=? max_str_digits)%nat eqn:E; [| reflexivity].
  apply Nat.leb_le in E. contradiction.
Qed.

(** [int] raises nothing but [ValueError]. *)
Lemma int_raises (s : string) e : int s = Raise e -> e = ValueError.
Proof.
  unfold int. destruct (negb (is_empty s) && forallb isdigit s);
    [destruct (String.length s <=? max_str_digits)%nat |]; congruence.
Qed.

Lemma timestamp_app (sep : ascii) (m s f rest : string) :
  timestamp sep m s f +:+ rest
  = String "[" (m +:+ String ":" (s +:+ String sep (f +:+ String "]" rest))).
Proof.
  unfold timestamp. cbn. rewrite app_assoc_s. cbn. rewrite app_assoc_s. cbn.
  now rewrite app_assoc_s.
Qed.

Lemma run_seq {A} r1 r2 s caps (k : @cont A) :
  run (RSeq r1 r2) s caps k = run r1 s caps (fun s1 caps1 => run r2 s1 caps1 k).
Proof. reflexivity. Qed.

Lemma run_group_digits {A} n d rest caps (k : @cont A) :
  is_number d = true ->
  starts_in CsDigit rest = false ->
  rejects CsDigit k ->
  run (RGroup n digits) (d +:+ rest) caps k = k rest ((n, d) :: caps).
Proof.
  intros Hd Hrest Hk. apply is_number_inv in Hd. destruct Hd as [Hne Hd].
  cbn [run]. fold digits. rewrite run_digits; try assumption.
  - now rewrite consumed_upto_app.
  - intros c s caps' Hc. now apply Hk.
Qed.

(** The three-group pattern of [parse_time] with separator [sep], run
    on a timestamp written with separator [sep']. *)
Lemma run_ts_grouped {A} sep sep' m s f rest caps (k : @cont A) :
  is_number m = true -> is_number s = true -> is_number f = true ->
  isdigit sep = false -> isdigit sep' = false ->
  run (seq [lit "["%char; RGroup 1 digits; lit ":"%char; RGroup 2 digits;
            lit sep; RGroup 3 digits] (lit "]"%char))
      (timestamp sep' m s f +:+ rest) caps k
  = if ascii_dec sep' sep then k rest ((3%nat, f) :: (2%nat, s) :: (1%nat, m) :: caps)
    else None.
Proof.
  intros Hm Hs Hf Hsep Hsep'. rewrite timestamp_app. cbn [seq].
  rewrite run_seq, run_lit.
  rewrite run_seq, run_group_digits;
    [| assumption | reflexivity | now apply rejects_lit].
  rewrite run_seq, run_lit.
  rewrite run_seq, run_group_digits;
    [| assumption | exact Hsep' | now apply rejects_lit].
  rewrite run_seq.
  destruct (ascii_dec sep' sep) as [->|Hne]; [| now apply run_lit_ne].
  rewrite run_lit.
  rewrite run_seq, run_group_digits;
    [| assumption | reflexivity | now apply rejects_lit_last].
  apply run_lit.
Qed.

(** The same without groups, as inside [line_pattern]. *)
Lemma run_ts_plain {A} sep sep' m s f rest caps (k : @cont A) :
  is_number m = true -> is_number s = true -> is_number f = true ->
  isdigit sep = false -> isdigit sep' = false ->
  run (seq [lit "["%char; digits; lit ":"%char; digits; lit sep; digits]
           (lit "]"%char))
      (timestamp sep' m s f +:+ rest) caps k
  = if ascii_dec sep' sep then k rest caps else None.
Proof.
  intros Hm Hs Hf Hsep Hsep'. rewrite timestamp_app. cbn [seq].
  apply is_number_inv in Hm, Hs, Hf.
  destruct Hm as [Hm0 Hm], Hs as [Hs0 Hs], Hf as [Hf0 Hf].
  rewrite run_seq, run_lit.
  rewrite run_seq, run_digits;
    [| assumption | assumption | reflexivity | now apply rejects_lit].
  rewrite run_seq, run_lit.
  rewrite run_seq, run_digits;
    [| assumption | assumption | exact Hsep' | now apply rejects_lit].
  rewrite run_seq.
  destruct (ascii_dec sep' sep) as [->|Hne]; [| now apply run_lit_ne].
  rewrite run_lit.
  rewrite run_seq, run_digits;
    [| assumption | assumption | reflexivity | now apply rejects_lit_last].
  apply run_lit.
Qed.

Lemma re_match_pattern sep m s f rest :
  is_number m = true -> is_number s = true -> is_number f = true ->
  isdigit sep = false ->
  re_match pattern (timestamp sep m s f +:+ rest)
  = if ascii_dec sep dot then Some [(3%nat, f); (2%nat, s); (1%nat, m)] else None.
Proof.
  intros. unfold re_match, pattern. now rewrite run_ts_grouped.
Qed.

Lemma re_match_pattern2 sep m s f rest :
  is_number m = true -> is_number s = true -> is_number f = true ->
  isdigit sep = false ->
  re_match pattern2 (timestamp sep m s f +:+ rest)
  = if ascii_dec sep colon then Some [(3%nat, f); (2%nat, s); (1%nat, m)] else None.
Proof.
  intros. unfold re_match, pattern2. now rewrite run_ts_grouped.
Qed.

Lemma groups_value_eq m s f :
  groups_value m s f
  = res_bind (int m) (fun minutes =>
    res_bind (int s) (fun seconds =>
    res_bind (int f) (fun hundredths =>
    timestamp_value minutes seconds hundredths))).
Proof. reflexivity. Qed.

(** Groups that [int] reads. *)
Lemma groups_value_short m s f :
  is_number m = true -> is_number s = true -> is_number f = true ->
  short m -> short s -> short f ->
  groups_value m s f
  = timestamp_value (digits_value 0 m) (digits_value 0 s) (digits_value 0 f).
Proof.
  intros Hm Hs Hf Lm Ls Lf. rewrite groups_value_eq.
  now rewrite (int_number _ Hm Lm), (int_number _ Hs Ls), (int_number _ Hf Lf).
Qed.

(** A group that is too long. *)
Lemma groups_value_long m s f :
  is_number m = true -> is_number s = true -> is_number f = true ->
  ~ short m \/ ~ short s \/ ~ short f ->
  groups_value m s f = Raise ValueError.
Proof.
  intros Hm Hs Hf H. rewrite groups_value_eq.
  destruct (int m) as [a|e] eqn:Em; [| now rewrite (int_raises _ _ Em)].
  destruct (int s) as [b|e] eqn:Es; [| now rewrite (int_raises _ _ Es)].
  destruct (int f) as [c|e] eqn:Ef; [| now rewrite (int_raises _ _ Ef)].
  exfalso. destruct H as [H|[H|H]].
  - rewrite (int_long _ Hm H) in Em. discriminate.
  - rewrite (int_long _ Hs H) in Es. discriminate.
  - rewrite (int_long _ Hf H) in Ef. discriminate.
Qed.

(** [parse_time] on a timestamp of either format, whatever follows. *)
Lemma parse_time_timestamp sep m s f rest :
  sep = dot \/ sep = colon ->
  is_number m = true -> is_number s = true -> is_number f = true ->
  parse_time (timestamp sep m s f +:+ rest)
  = res_bind (groups_value m s f) (fun t => Ok (Some t)).
Proof.
  intros Hsep Hm Hs Hf. unfold parse_time.
  assert (Hd : isdigit sep = false) by (destruct Hsep; subst; reflexivity).
  rewrite re_match_pattern, re_match_pattern2 by assumption.
  destruct Hsep; subst sep; reflexivity.
Qed.

(** [line_pattern] on a timestamp followed by text without line feed:
    group 1 is the timestamp, group 2 the text. *)
Lemma re_match_line_pattern sep m s f rest :
  sep = dot \/ sep = colon ->
  is_number m = true -> is_number s = true -> is_number f = true ->
  no_lf rest = true ->
  re_match line_pattern (timestamp sep m s f +:+ rest)
  = Some [(2%nat, rest); (1%nat, timestamp sep m s f)].
Proof.
  intros Hsep Hm Hs Hf Hrest. unfold re_match, line_pattern.
  assert (Hd : isdigit sep = false) by (destruct Hsep; subst; reflexivity).
  rewrite run_seq. cbn [run].
  rewrite !run_ts_plain by (assumption || reflexivity).
  assert (Hstar : forall caps,
    greedy CsAny rest caps
      (fun s1 caps1 => Some ((2%nat, consumed_upto rest s1) :: caps1))
    = Some ((2%nat, rest) :: caps)).
  { intros caps. rewrite <- (app_nil_r_s rest) at 1.
    apply greedy_first; [exact Hrest | reflexivity |].
    rewrite <- (app_nil_r_s rest) at 1. now rewrite consumed_upto_app. }
  rewrite Hstar, consumed_upto_app.
  destruct Hsep; subst sep; reflexivity.
Qed.

End ParserFacts.

(** ** Which lines give a record *)

Module LineFacts.
Import PyStr PyStrFacts Re ReFacts Parser ParserFacts PyFloatFacts.

(** A line whose stripped form is a timestamp followed by text. *)
Lemma load_line_timestamp line sep m s f rest :
  sep = dot \/ sep = colon ->
  is_number m = true -> is_number s = true -> is_number f = true ->
  no_lf rest = true ->
  strip line = timestamp sep m s f +:+ rest ->
  load_line line
  = res_bind (groups_value m s f) (fun t => Ok (Some (t, strip rest))).
Proof.
  intros Hsep Hm Hs Hf Hrest Hline. unfold load_line. rewrite Hline.
  assert (Hhead : negb (is_empty (timestamp sep m s f +:+ rest))
                  && startswith "["%char (timestamp sep m s f +:+ rest) = true)
    by (rewrite timestamp_app; reflexivity).
  rewrite Hhead, re_match_line_pattern by assumption.
  cbn [group Nat.eqb].
  rewrite <- (app_nil_r_s (timestamp sep m s f)).
  rewrite parse_time_timestamp by assumption.
  now destruct (groups_value _ _ _).
Qed.

Lemma matches_lit_inv c s s' : matches (lit c) s s' -> s = String c s'.
Proof.
  unfold lit. intros H. inversion H as [cs a t Hc| | | | | |]; subst.
  cbn in Hc. destruct (ascii_dec a c); congruence.
Qed.

Lemma matches_digits_inv s s' :
  matches digits s s' -> exists d, is_number d = true /\ s = d +:+ s'.
Proof.
  unfold digits. intros H. inversion H as [|cs d t Hne Hd| | | | |]; subst.
  exists d. split; [now apply is_number_intro | reflexivity].
Qed.

Lemma matches_seq_inv r1 r2 s s2 :
  matches (RSeq r1 r2) s s2 -> exists s1, matches r1 s s1 /\ matches r2 s1 s2.
Proof. intros H. inversion H; subst. eauto. Qed.

Lemma matches_ts_inv sep s s' :
  matches (seq [lit "["%char; digits; lit ":"%char; digits; lit sep; digits]
               (lit "]"%char)) s s' ->
  exists m sec f,
    is_number m = true /\ is_number sec = true /\ is_number f = true /\
    s = timestamp sep m sec f +:+ s'.
Proof.
  cbn [seq]. intros H.
  apply matches_seq_inv in H. destruct H as (s1 & H1 & H).
  apply matches_seq_inv in H. destruct H as (s2 & H2 & H).
  apply matches_seq_inv in H. destruct H as (s3 & H3 & H).
  apply matches_seq_inv in H. destruct H as (s4 & H4 & H).
  apply matches_seq_inv in H. destruct H as (s5 & H5 & H).
  apply matches_seq_inv in H. destruct H as (s6 & H6 & H7).
  apply matches_lit_inv in H1, H3, H5, H7.
  apply matches_digits_inv in H2, H4, H6.
  destruct H2 as (m & Hm & E2), H4 as (sec & Hsec & E4), H6 as (f & Hf & E6).
  exists m, sec, f. repeat split; try assumption.
  rewrite timestamp_app. congruence.
Qed.

Lemma matches_line_pattern_inv s s' :
  matches line_pattern s s' -> timed_line s.
Proof.
  unfold line_pattern. intros H.
  apply matches_seq_inv in H. destruct H as (s1 & H & _).
  inversion H as [| | | | | |n r t t' Halt]; subst.
  inversion Halt as [| | | |r1 r2 t t' Hl|r1 r2 t t' Hr|]; subst.
  - apply matches_ts_inv in Hl. destruct Hl as (m & sec & f & Hm & Hs & Hf & ->).
    exists dot, m, sec, f, s1. auto 10.
  - apply matches_ts_inv in Hr. destruct Hr as (m & sec & f & Hm & Hs & Hf & ->).
    exists colon, m, sec, f, s1. auto 10.
Qed.

(** A line either contributes nothing, silently, or its stripped form
    starts with a timestamp. *)
Lemma load_line_cases line :
  load_line line = Ok None \/ timed_line (strip line).
Proof.
  unfold load_line.
  destruct (negb (is_empty (strip line)) && startswith "["%char (strip line));
    [| now left].
  destruct (re_match line_pattern (strip line)) as [caps|] eqn:E; [| now left].
  right. apply re_match_sound in E. destruct E as (s' & Hm).
  eapply matches_line_pattern_inv, Hm.
Qed.

Lemma digits_value_nonneg s : forall acc,
  forallb isdigit s = true -> 0 <= acc -> 0 <= digits_value acc s.
Proof.
  induction s as [|c s IH]; intros acc Hd Hacc; cbn in *; [assumption |].
  apply andb_true_iff in Hd. destruct Hd as [Hc Hd]. apply IH; [assumption |].
  unfold isdigit in Hc. apply andb_true_iff in Hc. destruct Hc as [Hc _].
  apply N.leb_le in Hc. unfold digit_value. lia.
Qed.

Lemma int_nonneg s n : int s = Ok n -> 0 <= n.
Proof.
  unfold int. destruct (negb (is_empty s)); cbn [andb]; [| discriminate].
  destruct (forallb isdigit s) eqn:E; [| discriminate].
  destruct (String.length s <=? max_str_digits)%nat; [| discriminate].
  intros [= <-]. now apply digits_value_nonneg.
Qed.

Lemma timestamp_value_nonneg m s f t :
  0 <= m -> 0 <= s -> 0 <= f ->
  timestamp_value m s f = Ok t -> PyFloat.nonneg t = true.
Proof.
  intros Hm Hs Hf. unfold timestamp_value, PyFloat.int_truediv_hundred,
    PyFloat.int_add_float.
  destruct (PyFloat.of_int f) as [b|] eqn:Eb; [| discriminate]. cbn [res_bind].
  destruct (PyFloat.of_int (m * 60 + s)) as [a|] eqn:Ea; [| discriminate].
  cbn [res_bind]. intros [= <-].
  apply of_int_nonneg in Ea, Eb; [| lia ..].
  apply add_nonneg; [tauto |]. apply div_hundred_nonneg. tauto.
Qed.

Lemma timestamp_of_groups_nonneg caps t :
  timestamp_of_groups caps = Ok t -> PyFloat.nonneg t = true.
Proof.
  unfold timestamp_of_groups, group_int.
  destruct (group caps 1) as [s1|]; [| discriminate].
  destruct (int s1) as [m|] eqn:E1; [| discriminate]. cbn [res_bind].
  destruct (group caps 2) as [s2|]; [| discriminate].
  destruct (int s2) as [s|] eqn:E2; [| discriminate]. cbn [res_bind].
  destruct (group caps 3) as [s3|]; [| discriminate].
  destruct (int s3) as [f|] eqn:E3; [| discriminate]. cbn [res_bind].
  apply timestamp_value_nonneg; eapply int_nonneg; eassumption.
Qed.

(** [parse_time] never returns a negative number or a NaN. *)
Lemma parse_time_nonneg time_str t :
  parse_time time_str = Ok (Some t) -> PyFloat.nonneg t = true.
Proof.
  unfold parse_time.
  destruct (re_match pattern time_str) as [caps|].
  - destruct (timestamp_of_groups caps) as [t'|] eqn:E; [| discriminate].
    intros [= <-]. eapply timestamp_of_groups_nonneg, E.
  - destruct (re_match pattern2 time_str) as [caps|]; [| discriminate].
    destruct (timestamp_of_groups caps) as [t'|] eqn:E; [| discriminate].
    intros [= <-]. eapply timestamp_of_groups_nonneg, E.
Qed.

Lemma load_line_nonneg line r :
  load_line line = Ok (Some r) -> PyFloat.nonneg (fst r) = true.
Proof.
  unfold load_line.
  destruct (negb (is_empty (strip line)) && startswith "["%char (strip line));
    [| discriminate].
  destruct (re_match line_pattern (strip line)) as [caps|]; [| discriminate].
  destruct (group caps 1) as [time_str|]; [| discriminate].
  destruct (group caps 2) as [text|]; [| discriminate].
  destruct (parse_time time_str) as [[t|]|] eqn:E; cbn [res_bind]; try discriminate.
  intros [= <-]. eapply parse_time_nonneg, E.
Qed.

Lemma load_line_head line r :
  load_line line = Ok (Some r) ->
  is_empty (strip line) = false /\ startswith "["%char (strip line) = true.
Proof.
  unfold load_line.
  destruct (is_empty (strip line)); cbn [negb andb]; [discriminate |].
  destruct (startswith "["%char (strip line)); [auto | discriminate].
Qed.

End LineFacts.

(** ** Sorting and loading *)

Module SortFacts.
Import Parser PyFloatFacts.

Lemma Forall_insert (P : record -> Prop) x l :
  Forall P (insert x l) <-> P x /\ Forall P l.
Proof.
  induction l as [|y l IH]; cbn [insert].
  - rewrite !Forall_cons. tauto.
  - destruct (PyFloat.lt (fst y) (fst x)).
    + rewrite !Forall_cons, IH. tauto.
    + rewrite !Forall_cons. tauto.
Qed.

Lemma insert_perm x l : Permutation (insert x l) (x :: l).
Proof.
  induction l as [|y l IH]; cbn [insert]; [reflexivity |].
  destruct (PyFloat.lt (fst y) (fst x)); [| reflexivity].
  rewrite IH. apply perm_swap.
Qed.

(** Sorting neither drops nor invents records. *)
Lemma sort_by_time_perm l : Permutation (sort_by_time l) l.
Proof.
  induction l as [|x l IH]; cbn; [reflexivity |].
  rewrite insert_perm. now constructor.
Qed.

Lemma insert_sorted x l :
  nonneg_key x -> Forall nonneg_key l ->
  StronglySorted time_le l -> StronglySorted time_le (insert x l).
Proof.
  intros Hx Hl Hs. induction l as [|y l IH]; cbn [insert].
  - repeat constructor.
  - apply Forall_cons in Hl. destruct Hl as [Hy Hl].
    apply StronglySorted_inv in Hs. destruct Hs as [Hs Hyl].
    destruct (PyFloat.lt (fst y) (fst x)) eqn:E.
    + constructor; [now apply IH |].
      apply Forall_insert. split; [| assumption].
      now apply lt_le.
    + assert (Hxy : time_le x y) by now apply not_lt_le.
      constructor; [now constructor |].
      constructor; [assumption |].
      rewrite Forall_forall in Hyl, Hl |- *. intros z Hz.
      eapply le_trans; [exact Hx | exact Hy | now apply Hl | exact Hxy | now apply Hyl].
Qed.

(** Records whose times are not NaN come out in ascending order. *)
Lemma sort_by_time_sorted l :
  Forall nonneg_key l -> StronglySorted time_le (sort_by_time l).
Proof.
  induction l as [|x l IH]; intros H; cbn; [constructor |].
  apply Forall_cons in H. destruct H as [Hx Hl].
  apply insert_sorted; [assumption | | now apply IH].
  eapply Permutation_Forall; [symmetry; apply sort_by_time_perm | assumption].
Qed.

End SortFacts.

Module LoadFacts.
Import PyStr Parser LineFacts SortFacts Engine.

Lemma set_lyrics_id w : set_lyrics (lyrics w) w = w.
Proof. now destruct w. Qed.

Lemma set_lyrics_twice l1 l2 w : set_lyrics l2 (set_lyrics l1 w) = set_lyrics l2 w.
Proof. reflexivity. Qed.

(** The loop of [load_lrc_file] appends what [scan_lines] describes,
    and raises what the first failing line raises. *)
Lemma load_lines_scan content : forall w,
  load_lines content w
  = (match snd (scan_lines content) with None => Ok tt | Some e => Raise e end,
     set_lyrics (lyrics w ++ fst (scan_lines content)) w).
Proof.
  induction content as [|line content IH]; intros w; cbn [load_lines scan_lines].
  - cbn. now rewrite app_nil_r, set_lyrics_id.
  - unfold bind at 1. unfold lift at 1.
    destruct (load_line line) as [r|e]; cbn [fst snd].
    + destruct (scan_lines content) as [rs oe] eqn:E. cbn [fst snd] in *.
      unfold bind at 1.
      destruct r as [x|]; cbn [modify ret]; rewrite IH; cbn [fst snd lyrics set_lyrics].
      * now rewrite <- app_assoc.
      * reflexivity.
    + cbn. now rewrite app_nil_r, set_lyrics_id.
Qed.

Lemma scan_lines_nonneg content :
  Forall nonneg_key (fst (scan_lines content)).
Proof.
  induction content as [|line content IH]; cbn [scan_lines]; [constructor |].
  destruct (load_line line) as [r|e] eqn:E; [| constructor].
  destruct (scan_lines content) as [rs oe]. cbn [fst] in *.
  destruct r as [x|]; [| assumption].
  constructor; [| assumption]. eapply load_line_nonneg, E.
Qed.

Lemma add_items_lyrics l : forall w, lyrics (snd (add_items l w)) = lyrics w.
Proof.
  induction l as [|[seconds lyric] l IH]; intros w; [reflexivity |].
  cbn [add_items]. unfold bind at 1.
  destruct seconds; cbn; try reflexivity; unfold bind; cbn; now rewrite IH.
Qed.

(** The lyrics [load_lrc_file] leaves behind, for a file that could be
    read: sorted when the loop finished, as collected when it raised. *)
Lemma load_lrc_file_lyrics file_path content w :
  lyrics (exec (load_lrc_file file_path (Ok content)) w)
  = match snd (scan_lines content) with
    | None => sort_by_time (fst (scan_lines content))
    | Some _ => fst (scan_lines content)
    end.
Proof.
  unfold exec, load_lrc_file, try_except.
  unfold bind at 1. unfold lift at 1.
  unfold bind at 1. cbn [modify].
  unfold bind at 1. rewrite load_lines_scan.
  destruct (snd (scan_lines content)) as [e|]; [reflexivity |].
  cbn [set_lyrics lyrics app].
  unfold bind at 1. cbn [modify emit].
  unfold bind at 1. cbn [modify emit].
  unfold bind at 1. cbn [modify emit].
  unfold bind at 1. cbn [get].
  unfold bind at 1.
  match goal with |- context [add_items ?l ?w] =>
    pose proof (add_items_lyrics l w) as H; destruct (add_items l w) as [[[]|e] w'] end;
    cbn [snd] in *; cbn; exact H.
Qed.

Lemma load_lrc_file_unreadable file_path e w :
  load_lrc_file file_path (Raise e) w
  = (Ok tt, add_event (ShowWarning (WarnCannotRead e)) w).
Proof. reflexivity. Qed.

(** The method itself never raises. *)
Lemma load_lrc_file_outcome file_path file w :
  outcome (load_lrc_file file_path file) w = Ok tt.
Proof.
  unfold outcome, load_lrc_file, try_except.
  match goal with |- context [match ?m w with _ => _ end] => destruct (m w) as [[[]|e] w'] end;
    reflexivity.
Qed.

End LoadFacts.

(** ** Dispatch of the action sequence *)

Module DispatchFacts.
Import Parser Engine.

Lemma upd_id w : upd (heap w) [] w = w.
Proof. destruct w. unfold upd. cbn. now rewrite app_nil_r. Qed.

Lemma upd_upd h1 h2 e1 e2 w : upd h2 e2 (upd h1 e1 w) = upd h2 (e1 ++ e2) w.
Proof. unfold upd. cbn. now rewrite app_assoc. Qed.

Lemma perform_app B c1 c2 :
  perform B (c1 ++ c2)
  = match snd (perform B c1) with
    | Some e => (fst (perform B c1), Some e)
    | None => (fst (perform B c1) ++ fst (perform B c2), snd (perform B c2))
    end.
Proof.
  induction c1 as [|ev c1 IH]; cbn [app perform].
  - cbn. now destruct (perform B c2).
  - destruct (rejected B ev); [reflexivity |].
    rewrite IH. destruct (perform B c1) as [d1 [e|]]; cbn; [reflexivity |].
    now destruct (perform B c2).
Qed.

Lemma perform_calls B calls :
  Forall backend_call calls -> Forall backend_call (fst (perform B calls)).
Proof.
  induction 1 as [|ev calls Hev _ IH]; cbn [perform]; [constructor |].
  destruct (rejected B ev); [constructor |].
  destruct (perform B calls). cbn in *. now constructor.
Qed.

Lemma action_calls_backend text a : Forall backend_call (action_calls text a).
Proof.
  unfold action_calls.
  repeat match goal with |- context [if ?b then _ else _] => destruct b end;
    repeat constructor.
Qed.

Lemma sequence_calls_backend text acts :
  Forall backend_call (sequence_calls text acts).
Proof.
  unfold sequence_calls. induction acts as [|a acts IH]; cbn; [constructor |].
  apply Forall_app. split; [apply action_calls_backend | assumption].
Qed.

Section WithBackend.
Variable B : Backend.

Lemma backend_op_spec (err : value -> option exn) (mk : value -> event) v w :
  (match err v with Some e => raise e | None => emit (mk v) end) w
  = (match err v with Some e => Raise e | None => Ok tt end,
     upd (heap w) (match err v with Some _ => [] | None => [mk v] end) w).
Proof. destruct (err v); cbn; [now rewrite upd_id | reflexivity]. Qed.

(** One call, as [perform] describes it. *)
Lemma call_spec (m : M unit) ev w :
  (forall w, m w = match rejected B ev with
                   | Some e => (Raise e, w)
                   | None => (Ok tt, add_event ev w)
                   end) ->
  m w = (match snd (perform B [ev]) with None => Ok tt | Some e => Raise e end,
         upd (heap w) (fst (perform B [ev])) w).
Proof.
  intros H. rewrite H. cbn [perform]. destruct (rejected B ev); cbn.
  - now rewrite upd_id.
  - reflexivity.
Qed.

Lemma keyboard_write_spec v w :
  keyboard_write B v w
  = (match snd (perform B [KeyboardWrite v]) with None => Ok tt | Some e => Raise e end,
     upd (heap w) (fst (perform B [KeyboardWrite v])) w).
Proof.
  apply call_spec. intros w'. unfold keyboard_write. cbn [rejected].
  now destruct (write_error B v).
Qed.

Lemma keyboard_press_spec v w :
  keyboard_press_and_release B v w
  = (match snd (perform B [KeyboardPressAndRelease v]) with
     | None => Ok tt | Some e => Raise e end,
     upd (heap w) (fst (perform B [KeyboardPressAndRelease v])) w).
Proof.
  apply call_spec. intros w'. unfold keyboard_press_and_release. cbn [rejected].
  now destruct (press_error B v).
Qed.

Lemma time_sleep_spec v w :
  time_sleep B v w
  = (match snd (perform B [TimeSleep v]) with None => Ok tt | Some e => Raise e end,
     upd (heap w) (fst (perform B [TimeSleep v])) w).
Proof.
  apply call_spec. intros w'. unfold time_sleep. cbn [rejected].
  now destruct (sleep_error B v).
Qed.

Lemma dispatch_action_spec text l a w :
  heap w !! l = Some a ->
  exists h', heap w ⊆ h' /\
    dispatch_action B text l w
    = (match snd (perform B (action_calls text a)) with
       | None => Ok tt | Some e => Raise e end,
       upd h' (fst (perform B (action_calls text a))) w).
Proof.
  intros Hl. unfold dispatch_action, bind at 1, deref. rewrite Hl.
  unfold action_calls.
  destruct (String.eqb (action_type a) "text") eqn:Et.
  - unfold bind at 1, new_ActionBlock.
    set (l' := fresh (dom (heap w))).
    set (h' := <[l' := {| action_type := "text";
                          params := {[ "text" := VStr text ]} |}]> (heap w)).
    assert (Hfresh : heap w !! l' = None)
      by (apply not_elem_of_dom, is_fresh).
    exists h'. split; [now apply insert_subseteq |].
    unfold execute, bind at 1, deref.
    cbn [heap set_heap]. unfold h' at 1. rewrite lookup_insert_eq.
    cbn [action_type params String.eqb Ascii.eqb Bool.eqb].
    unfold dict_get. rewrite lookup_singleton_eq. cbn [default].
    rewrite keyboard_write_spec. cbn [heap set_heap]. reflexivity.
  - exists (heap w). split; [reflexivity |].
    unfold execute, bind at 1, deref. rewrite Hl, Et.
    destruct (String.eqb (action_type a) "key").
    + apply keyboard_press_spec.
    + destruct (String.eqb (action_type a) "wait").
      * apply time_sleep_spec.
      * cbn. now rewrite upd_id.
Qed.

Lemma resolves_weaken h h' ls acts :
  resolves h ls acts -> h ⊆ h' -> resolves h' ls acts.
Proof.
  intros H Hsub. induction H as [|l a ls acts Hl _ IH]; constructor; [| assumption].
  eapply lookup_weaken; eassumption.
Qed.

(** The calls [execute_action_sequence] makes are those the sequence
    asks for, in order, up to the first one the backend rejects; that
    rejection is what it raises. Nothing but the heap and the trace
    changes, and the heap only grows. *)
Lemma run_actions_spec text ls : forall acts w,
  resolves (heap w) ls acts ->
  exists h', heap w ⊆ h' /\
    run_actions B text ls w
    = (match snd (perform B (sequence_calls text acts)) with
       | None => Ok tt | Some e => Raise e end,
       upd h' (fst (perform B (sequence_calls text acts))) w).
Proof.
  induction ls as [|l ls IH]; intros acts w Hres.
  - inversion Hres; subst. exists (heap w). split; [reflexivity |].
    cbn. now rewrite upd_id.
  - inversion Hres as [|l0 a ls0 acts' Hl Hres']; subst.
    destruct (dispatch_action_spec text l a w Hl) as (h1 & Hsub1 & Hstep).
    cbn [run_actions].
    unfold bind at 1. rewrite Hstep.
    unfold sequence_calls. cbn [flat_map]. rewrite perform_app.
    destruct (snd (perform B (action_calls text a))) as [e|] eqn:E.
    + exists h1. split; [assumption | reflexivity].
    + destruct (IH acts' (upd h1 (fst (perform B (action_calls text a))) w))
        as (h2 & Hsub2 & Hrun).
      { cbn [heap upd]. eapply resolves_weaken; eassumption. }
      cbn [heap upd] in Hsub2.
      exists h2. split; [etrans; eassumption |].
      rewrite Hrun, upd_upd. reflexivity.
Qed.

Lemma execute_action_sequence_spec text acts w :
  resolves (heap w) (action_sequence w) acts ->
  exists h', heap w ⊆ h' /\
    execute_action_sequence B text w
    = (match snd (perform B (sequence_calls text acts)) with
       | None => Ok tt | Some e => Raise e end,
       upd h' (fst (perform B (sequence_calls text acts))) w).
Proof.
  intros H. unfold execute_action_sequence, bind at 1, get.
  now apply run_actions_spec.
Qed.

(** Without any assumption on the references: a dispatch changes
    nothing but the heap, which grows, and the trace, which gains calls
    to the backend. *)
Lemma dispatch_action_frame text l w :
  exists r h' evs, dispatch_action B text l w = (r, upd h' evs w) /\
                   heap w ⊆ h' /\ Forall backend_call evs.
Proof.
  destruct (heap w !! l) as [a|] eqn:Hl.
  - destruct (dispatch_action_spec text l a w Hl) as (h' & Hsub & ->).
    eexists _, h', _. split; [reflexivity |]. split; [assumption |].
    apply perform_calls, action_calls_backend.
  - exists (Raise TypeError), (heap w), []. split; [| split; [reflexivity | constructor]].
    unfold dispatch_action, bind, deref. rewrite Hl. now rewrite upd_id.
Qed.

Lemma run_actions_frame text ls : forall w,
  exists r h' evs, run_actions B text ls w = (r, upd h' evs w) /\
                   heap w ⊆ h' /\ Forall backend_call evs.
Proof.
  induction ls as [|l ls IH]; intros w.
  - exists (Ok tt), (heap w), []. split; [| split; [reflexivity | constructor]].
    cbn. now rewrite upd_id.
  - cbn [run_actions].
    destruct (dispatch_action_frame text l w) as (r1 & h1 & e1 & Hstep & Hsub1 & He1).
    unfold bind at 1. rewrite Hstep. destruct r1 as [[]|e].
    + destruct (IH (upd h1 e1 w)) as (r2 & h2 & e2 & Hrun & Hsub2 & He2).
      cbn [heap upd] in Hsub2.
      exists r2, h2, (e1 ++ e2). rewrite Hrun, upd_upd.
      split; [reflexivity |]. split; [etrans; eassumption | now apply Forall_app].
    + exists (Raise e), h1, e1. auto.
Qed.

Lemma execute_action_sequence_frame text w :
  exists r h' evs, execute_action_sequence B text w = (r, upd h' evs w) /\
                   heap w ⊆ h' /\ Forall backend_call evs.
Proof. unfold execute_action_sequence, bind at 1, get. apply run_actions_frame. Qed.

End WithBackend.
End DispatchFacts.

(** ** The scheduler *)

Module SchedulerFacts.
Import Parser Engine DispatchFacts.

Ltac unfold_world :=
  cbv [add_event upd set_lyrics set_is_playing set_start_time
       set_current_index set_heap started stopped
       lyrics is_playing start_time current_index action_sequence heap trace].

Lemma start_filling_eq now w :
  start_filling now w
  = (Ok tt, match lyrics w with
            | [] => add_event (ShowWarning WarnNoLyrics) w
            | _ :: _ => if is_playing w then w else started now w
            end).
Proof.
  destruct w as [ls p t0 i sq h tr].
  unfold start_filling, started, show_warning, emit, modify, bind, get, ret.
  cbn. destruct ls; [reflexivity |].
  destruct p; unfold_world; cbn; repeat rewrite <- app_assoc; reflexivity.
Qed.

Lemma stop_filling_eq w :
  stop_filling w = (Ok tt, if is_playing w then stopped w else w).
Proof.
  destruct w as [ls p t0 i sq h tr].
  unfold stop_filling, stopped, highlight_current_lyric, emit, modify,
    bind, get, ret.
  cbn. destruct p; unfold_world; cbn; repeat rewrite <- app_assoc; reflexivity.
Qed.

(** *** Reading a trace *)

Lemma fired_app a b : fired (a ++ b) = fired a ++ fired b.
Proof. apply omap_app. Qed.

Lemma fired_backend evs : Forall backend_call evs -> fired evs = [].
Proof.
  induction 1 as [|ev evs Hev _ IH]; [reflexivity |].
  unfold fired in *. cbn [omap]. destruct ev; cbn in Hev; try contradiction;
    cbn; exact IH.
Qed.

Lemma fired_highlight (i : nat) : fired [Highlight (Z.of_nat i)] = [i].
Proof.
  unfold fired. cbn. destruct (0 <=? Z.of_nat i) eqn:E.
  - cbn. now rewrite Nat2Z.id.
  - apply Z.leb_gt in E. lia.
Qed.

Lemma backend_call_loop_event ev : backend_call ev -> loop_event ev.
Proof. destruct ev; cbn; tauto. Qed.

Lemma threads_started_app a b :
  threads_started (a ++ b) = (threads_started a + threads_started b)%nat.
Proof. unfold threads_started. now rewrite List.filter_app, length_app. Qed.

Lemma threads_started_loop evs : Forall loop_event evs -> threads_started evs = 0%nat.
Proof.
  induction 1 as [|ev evs Hev _ IH]; [reflexivity |].
  unfold threads_started in *. cbn. destruct ev; cbn in *; try contradiction; exact IH.
Qed.

Lemma last_status_app a b :
  last_status (a ++ b)
  = match last_status b with Some s => Some s | None => last_status a end.
Proof. unfold last_status. rewrite omap_app. apply last_app. Qed.

Lemma last_status_loop evs : Forall loop_event evs -> last_status evs = None.
Proof.
  intros H. unfold last_status.
  replace (omap _ evs) with (@nil status); [reflexivity |].
  induction H as [|ev evs Hev _ IH]; [reflexivity |].
  destruct ev; cbn in *; try contradiction; exact IH.
Qed.

Lemma fired_loop_body (i : nat) evs :
  Forall backend_call evs ->
  fired ([Highlight (Z.of_nat i)] ++ evs ++ [TickSleep]) = [i].
Proof.
  intros H. rewrite !fired_app, fired_highlight, (fired_backend _ H). reflexivity.
Qed.

Section WithBackend.
Variable B : Backend.

(** One pass of the loop body: the session is kept, the flag is not
    touched, the calls are loop calls, and either the index moves on by
    one with exactly that lyric announced, or it stays. *)
Lemma loop_body_summary now w :
  let r := fst (loop_body B now w) in
  let w' := snd (loop_body B now w) in
  same_session w w' /\ is_playing w' = is_playing w /\
  exists evs, trace w' = trace w ++ evs /\ Forall loop_event evs /\
    ((r = Ok tt /\ current_index w' = S (current_index w) /\
      (current_index w < length (lyrics w))%nat /\
      fired evs = [current_index w]) \/
     (current_index w' = current_index w /\
      (r = Ok tt -> fired evs = []))).
Proof.
  cbv zeta. destruct (loop_body B now w) as [r w'] eqn:E. cbn [fst snd].
  unfold loop_body, bind at 1, get in E.
  destruct (start_time w) as [t0|] eqn:Et.
  2:{ injection E as <- <-. split; [repeat split; reflexivity |].
      split; [reflexivity |]. exists []. rewrite app_nil_r.
      split; [reflexivity |]. split; [constructor |].
      right. split; [reflexivity | discriminate]. }
  unfold bind at 1, current_lyric at 1, bind at 1, get in E.
  destruct (lyrics w !! current_index w) as [next|] eqn:En.
  2:{ injection E as <- <-. split; [repeat split; reflexivity |].
      split; [reflexivity |]. exists []. rewrite app_nil_r.
      split; [reflexivity |]. split; [constructor |].
      right. split; [reflexivity | discriminate]. }
  cbn [ret] in E.
  destruct (PyFloat.ge (PyFloat.sub now t0) (fst next)).
  2:{ injection E as <- <-. split; [repeat split; reflexivity |].
      split; [reflexivity |]. exists [TickSleep].
      split; [reflexivity |]. split; [repeat constructor |].
      right. split; reflexivity. }
  unfold bind at 1 in E. unfold bind at 1, get in E.
  unfold bind at 1, highlight_current_lyric, emit, modify in E.
  unfold bind at 1, current_lyric, bind at 1, get in E.
  cbn [lyrics add_event current_index] in E. rewrite En in E. cbn [ret] in E.
  unfold bind at 1 in E.
  destruct (execute_action_sequence_frame B (snd next)
              (add_event (Highlight (Z.of_nat (current_index w))) w))
    as (r1 & h' & evs & Hex & Hsub & Hevs).
  rewrite Hex in E. cbn [heap add_event] in Hsub.
  destruct r1 as [[]|e]; injection E as <- <-.
  - split; [repeat split; try reflexivity; assumption |]. split; [reflexivity |].
    exists ([Highlight (Z.of_nat (current_index w))] ++ evs ++ [TickSleep]).
    split; [cbn; now rewrite <- !app_assoc |]. split.
    + apply Forall_app. split; [repeat constructor |].
      apply Forall_app. split; [| repeat constructor].
      eapply Forall_impl; [exact Hevs | apply backend_call_loop_event].
    + left. repeat split; [cbn; lia | | now apply fired_loop_body].
      apply lookup_lt_Some in En. exact En.
  - split; [repeat split; try reflexivity; assumption |]. split; [reflexivity |].
    exists ([Highlight (Z.of_nat (current_index w))] ++ evs).
    split; [cbn; now rewrite <- !app_assoc |]. split.
    + apply Forall_app. split; [repeat constructor |].
      eapply Forall_impl; [exact Hevs | apply backend_call_loop_event].
    + right. split; [reflexivity | discriminate].
Qed.

Lemma run_ui_calls_stop cs w :
  Forall (fun c => c = CallStop) cs ->
  run_ui_calls cs w
  = (Ok tt, match cs with
            | [] => w
            | _ :: _ => if is_playing w then stopped w else w
            end).
Proof.
  intros H. revert w. induction H as [|c cs -> _ IH]; intros w; [reflexivity |].
  cbn [run_ui_calls run_ui_call]. unfold bind. rewrite stop_filling_eq, IH.
  destruct cs; [reflexivity |].
  destruct (is_playing w) eqn:E; cbn; rewrite ?E; reflexivity.
Qed.

Lemma loop_end_eq w :
  loop_end w
  = if (length (lyrics w) <=? current_index w)%nat
    then (Ok Completed,
          add_event (SetStatus StatusCompleted)
                    (if is_playing w then stopped w else w))
    else (Ok Stopped, w).
Proof.
  unfold loop_end, bind at 1, get.
  destruct (length (lyrics w) <=? current_index w)%nat; [| reflexivity].
  unfold bind. now rewrite stop_filling_eq.
Qed.

Lemma loop_cons p polls w :
  Forall (fun c => c = CallStop) (ui p) ->
  lyric_filling_loop B (p :: polls) w
  = let w1 := match ui p with
              | [] => w
              | _ :: _ => if is_playing w then stopped w else w
              end in
    if is_playing w1 && (current_index w1 <? length (lyrics w1))%nat
    then match loop_body B (clock p) w1 with
         | (Ok _, w2) => lyric_filling_loop B polls w2
         | (Raise e, w2) => (Raise e, w2)
         end
    else loop_end w1.
Proof.
  intros H. cbn [lyric_filling_loop]. unfold bind at 1.
  rewrite (run_ui_calls_stop _ _ H). cbv zeta. unfold bind at 1, get.
  destruct (is_playing _ && _); [| reflexivity]. reflexivity.
Qed.

(** The loop as a whole, while the other thread can only stop it: the
    session is kept, no thread is started, the index never goes back
    and never passes the number of lyrics; when the loop is left or
    still running, the lyrics announced are those from the old index up
    to the new one, each once and in order; a loop left with all lyrics
    done shows the completed status, a loop left earlier was stopped. *)
Lemma loop_summary polls :
  stop_only polls -> forall w,
  (current_index w <= length (lyrics w))%nat ->
  let r := fst (lyric_filling_loop B polls w) in
  let w' := snd (lyric_filling_loop B polls w) in
  same_session w w' /\
  (current_index w <= current_index w' <= length (lyrics w))%nat /\
  exists evs, trace w' = trace w ++ evs /\ threads_started evs = 0%nat /\
    (forall x, r = Ok x ->
       fired evs = seq (current_index w) (current_index w' - current_index w)) /\
    (r = Ok Completed ->
       current_index w' = length (lyrics w) /\ is_playing w' = false /\
       last_status evs = Some StatusCompleted) /\
    (r = Ok Stopped ->
       (current_index w' < length (lyrics w))%nat /\ is_playing w' = false /\
       (is_playing w = true -> last_status evs = Some StatusStopped)).
Proof.
  intros Hpolls. induction Hpolls as [|p polls Hp _ IH]; intros w Hle; cbv zeta.
  { cbn. split; [repeat split; reflexivity |]. split; [lia |].
    exists []. rewrite app_nil_r, Nat.sub_diag.
    repeat split; try reflexivity; discriminate. }
  rewrite (loop_cons p polls w Hp). cbv zeta.
  (* the world after the calls of the other thread *)
  set (w1 := match ui p with [] => w | _ :: _ => if is_playing w then stopped w else w end).
  assert (H1 : exists e1,
            (lyrics w1 = lyrics w /\ current_index w1 = current_index w /\
             same_session w w1 /\ trace w1 = trace w ++ e1) /\
            (e1 = [] \/ e1 = stop_events) /\
            (is_playing w1 = true -> e1 = []) /\
            (is_playing w = true -> is_playing w1 = false -> e1 = stop_events)).
  { subst w1. destruct (ui p); [| destruct (is_playing w) eqn:Ep].
    - exists []. rewrite app_nil_r.
      repeat split; auto; try reflexivity. congruence.
    - exists stop_events. repeat split; auto; try reflexivity. cbn. discriminate.
    - exists []. rewrite app_nil_r.
      repeat split; auto; try reflexivity. congruence. }
  destruct H1 as (e1 & (Hl1 & Hi1 & Hs1 & Ht1) & He1 & Hplay1 & Hstop1).
  assert (Hf1 : fired e1 = [] /\ threads_started e1 = 0%nat)
    by (destruct He1; subst e1; split; reflexivity).
  clearbody w1.
  destruct (is_playing w1 && (current_index w1 <? length (lyrics w1))%nat) eqn:Econd.
  - (* the body runs *)
    apply andb_true_iff in Econd. destruct Econd as [Ep1 Elt].
    specialize (Hplay1 Ep1). subst e1. rewrite app_nil_r in Ht1.
    pose proof (loop_body_summary (clock p) w1) as Hb. cbv zeta in Hb.
    destruct (loop_body B (clock p) w1) as [r1 w2]. cbn [fst snd] in Hb.
    destruct Hb as (Hs2 & Hp2 & e2 & Ht2 & He2 & Hcase).
    destruct Hs2 as (Hl2 & Hst2 & Hsq2 & Hh2).
    destruct Hs1 as (_ & Hst1 & Hsq1 & Hh1).
    assert (Hidx : (current_index w1 <= current_index w2 <= length (lyrics w1))%nat).
    { apply Nat.ltb_lt in Elt. destruct Hcase as [(_ & -> & _ & _)|(-> & _)]; lia. }
    destruct r1 as [[]|e].
    + assert (Hle2 : (current_index w2 <= length (lyrics w2))%nat) by (rewrite Hl2; lia).
      specialize (IH w2 Hle2). cbv zeta in IH.
      destruct (lyric_filling_loop B polls w2) as [r w']. cbn [fst snd] in *.
      destruct IH as (Hs3 & Hidx3 & e3 & Ht3 & Hth3 & Hfired3 & Hcomp3 & Hstop3).
      destruct Hs3 as (Hl3 & Hst3 & Hsq3 & Hh3).
      split; [repeat split; try congruence; repeat (etrans; [eassumption |]); reflexivity |].
      split; [rewrite Hl2, Hl1 in *; lia |].
      exists (e2 ++ e3). split; [rewrite Ht3, Ht2, Ht1; now rewrite app_assoc |].
      split; [rewrite threads_started_app, Hth3, (threads_started_loop _ He2); reflexivity |].
      split; [| split].
      * intros x Hx. rewrite fired_app, (Hfired3 x Hx).
        destruct Hcase as [(_ & Hi2 & _ & Hf2)|(Hi2 & Hf2)].
        -- rewrite Hf2, Hi2, Hi1.
           replace (current_index w' - current_index w)%nat
             with (S (current_index w' - S (current_index w)))%nat by lia.
           reflexivity.
        -- rewrite (Hf2 eq_refl), Hi2, Hi1. reflexivity.
      * intros Hr. destruct (Hcomp3 Hr) as (Hc1 & Hc2 & Hc3).
        rewrite last_status_app, Hc3. repeat split; congruence.
      * intros Hr. destruct (Hstop3 Hr) as (Hc1 & Hc2 & Hc3).
        rewrite Hl2, Hl1 in Hc1. repeat split; try assumption.
        intros _. rewrite last_status_app, Hc3; [reflexivity | congruence].
    + cbn [fst snd].
      split; [repeat split; try congruence; etrans; eassumption |].
      split; [rewrite Hl1 in *; lia |].
      exists e2. split; [rewrite Ht2, Ht1; reflexivity |].
      split; [apply (threads_started_loop _ He2) |].
      repeat split; discriminate.
  - (* the loop is left *)
    rewrite loop_end_eq.
    destruct (length (lyrics w1) <=? current_index w1)%nat eqn:Edone; cbn [fst snd].
    + apply Nat.leb_le in Edone.
      set (e2 := if is_playing w1 then stop_events else []).
      set (w2 := if is_playing w1 then stopped w1 else w1).
      assert (H2 : lyrics w2 = lyrics w1 /\ current_index w2 = current_index w1 /\
                   same_session w1 w2 /\ trace w2 = trace w1 ++ e2 /\
                   is_playing w2 = false).
      { subst w2 e2. destruct (is_playing w1) eqn:E; rewrite ?app_nil_r;
          repeat split; auto; reflexivity. }
      destruct H2 as (Hl2 & Hi2 & Hs2 & Ht2 & Hp2). clearbody w2.
      destruct Hs1 as (_ & Hst1 & Hsq1 & Hh1), Hs2 as (_ & Hst2 & Hsq2 & Hh2).
      split; [repeat split; cbn; try congruence; etrans; eassumption |].
      split; [cbn; rewrite Hi2, Hl1 in *; lia |].
      exists (e1 ++ e2 ++ [SetStatus StatusCompleted]).
      split; [cbn; rewrite Ht2, Ht1; now rewrite <- !app_assoc |].
      assert (Hf2 : fired e2 = [] /\ threads_started e2 = 0%nat)
        by (subst e2; destruct (is_playing w1); split; reflexivity).
      split; [rewrite !threads_started_app; destruct Hf1 as [_ ->], Hf2 as [_ ->]; reflexivity |].
      split; [| split].
      * intros _ _. rewrite !fired_app. destruct Hf1 as [-> _], Hf2 as [-> _].
        cbn [current_index add_event]. rewrite Hi2, Hi1, Nat.sub_diag. reflexivity.
      * intros _. cbn [current_index add_event lyrics is_playing].
        split; [rewrite Hi2, Hl1 in *; lia |].
        split; [assumption |].
        rewrite !last_status_app. reflexivity.
      * discriminate.
    + apply Nat.leb_gt in Edone.
      pose proof (proj2 (Nat.ltb_lt _ _) Edone) as Eb.
      rewrite Eb, andb_true_r in Econd.
      split; [assumption |]. split; [rewrite Hl1 in *; lia |].
      exists e1. split; [assumption |]. split; [apply Hf1 |].
      split; [| split].
      * intros _ _. rewrite Hi1, Nat.sub_diag. apply Hf1.
      * discriminate.
      * intros _. split; [rewrite Hl1 in *; lia |]. split; [assumption |].
        intros Hp0. rewrite (Hstop1 Hp0 Econd). reflexivity.
Qed.

(** *** A lyric that is due *)

Lemma perform_all calls :
  snd (perform B calls) = None -> fst (perform B calls) = calls.
Proof.
  induction calls as [|ev calls IH]; cbn [perform]; [reflexivity |].
  destruct (rejected B ev); [discriminate |].
  destruct (perform B calls) as [done r]. cbn in *. intros ->. now rewrite IH.
Qed.

Lemma loop_body_due now w t0 (next : record) acts :
  start_time w = Some t0 ->
  lyrics w !! current_index w = Some next ->
  PyFloat.ge (PyFloat.sub now t0) (fst next) = true ->
  resolves (heap w) (action_sequence w) acts ->
  exists h', heap w ⊆ h' /\
    loop_body B now w
    = match snd (perform B (sequence_calls (snd next) acts)) with
      | None =>
          (Ok tt,
           set_current_index (current_index w + 1)
             (upd h' ([Highlight (Z.of_nat (current_index w))]
                      ++ fst (perform B (sequence_calls (snd next) acts))
                      ++ [TickSleep]) w))
      | Some e =>
          (Raise e,
           upd h' ([Highlight (Z.of_nat (current_index w))]
                   ++ fst (perform B (sequence_calls (snd next) acts))) w)
      end.
Proof.
  intros Et En Hdue Hres.
  destruct (execute_action_sequence_spec B (snd next) acts
              (add_event (Highlight (Z.of_nat (current_index w))) w) Hres)
    as (h' & Hsub & Hex).
  exists h'. split; [exact Hsub |].
  unfold loop_body, bind at 1, get. rewrite Et.
  unfold bind at 1, current_lyric at 1, bind at 1, get. rewrite En. cbn [ret].
  rewrite Hdue.
  unfold bind at 1. unfold bind at 1, get.
  unfold bind at 1, highlight_current_lyric, emit, modify.
  unfold bind at 1, current_lyric, bind at 1, get.
  cbn [lyrics add_event current_index]. rewrite En. cbn [ret].
  unfold bind at 1. rewrite Hex.
  destruct (snd (perform B (sequence_calls (snd next) acts)));
    cbn; unfold upd, add_event, set_current_index; cbn;
    rewrite <- ?app_assoc; reflexivity.
Qed.

(** With lyrics all due, a backend that rejects nothing and more polls
    than lyrics left, the loop is left with every lyric dispatched. *)
Lemma loop_completes polls : forall w t0 acts,
  undisturbed polls ->
  is_playing w = true -> start_time w = Some t0 ->
  resolves (heap w) (action_sequence w) acts ->
  accepts_all B acts (lyrics w) ->
  all_due t0 (lyrics w) polls ->
  (current_index w <= length (lyrics w))%nat ->
  (length (lyrics w) - current_index w < length polls)%nat ->
  fst (lyric_filling_loop B polls w) = Ok Completed.
Proof.
  induction polls as [|p polls IH]; intros w t0 acts Hq Hp Ht Hres Hacc Hdue Hle Hlen.
  { cbn in Hlen. lia. }
  apply Forall_cons in Hq. destruct Hq as [Hui Hq].
  apply Forall_cons in Hdue. destruct Hdue as [Hdue_p Hdue].
  rewrite loop_cons by (rewrite Hui; constructor). rewrite Hui. cbv zeta. rewrite Hp.
  cbn [andb]. destruct (current_index w <? length (lyrics w))%nat eqn:Elt.
  - apply Nat.ltb_lt in Elt.
    destruct (lookup_lt_is_Some_2 (lyrics w) (current_index w) Elt) as [next En].
    assert (Hin : next ∈ lyrics w) by (eapply list_elem_of_lookup_2, En).
    rewrite Forall_forall in Hdue_p. specialize (Hdue_p next Hin).
    pose proof Hacc as Hacc'. unfold accepts_all in Hacc'.
    rewrite Forall_forall in Hacc'. specialize (Hacc' next Hin).
    destruct (loop_body_due (clock p) w t0 next acts Ht En Hdue_p Hres)
      as (h' & Hsub & Hbody).
    rewrite Hbody, Hacc'.
    eapply (IH _ t0 acts); try assumption; try reflexivity.
    + cbn. eapply resolves_weaken; eassumption.
    + cbn. lia.
    + cbn in *. lia.
  - apply Nat.ltb_ge in Elt. rewrite loop_end_eq.
    destruct (length (lyrics w) <=? current_index w)%nat eqn:E; [reflexivity |].
    apply Nat.leb_gt in E. lia.
Qed.

(** *** Start requests while playing *)

Lemma run_ui_calls_start cs w :
  Forall (fun c => exists now, c = CallStart now) cs ->
  is_playing w = true -> lyrics w <> [] ->
  run_ui_calls cs w = (Ok tt, w).
Proof.
  intros H Hp Hl. induction H as [|c cs [now ->] _ IH]; [reflexivity |].
  cbn [run_ui_calls run_ui_call]. unfold bind. rewrite start_filling_eq.
  destruct (lyrics w); [congruence |]. now rewrite Hp.
Qed.

Lemma starts_ignored polls :
  start_only polls -> forall w,
  is_playing w = true -> lyrics w <> [] ->
  lyric_filling_loop B polls w = lyric_filling_loop B (without_ui polls) w.
Proof.
  intros H. induction H as [|p polls Hp _ IH]; intros w Hplay Hl; [reflexivity |].
  cbn [without_ui map lyric_filling_loop ui clock run_ui_calls].
  unfold bind at 1. rewrite (run_ui_calls_start _ _ Hp Hplay Hl).
  unfold bind at 3. cbn [ret].
  unfold bind at 1, get. unfold bind at 2.
  destruct (is_playing w && (current_index w <? length (lyrics w))%nat); [| reflexivity].
  pose proof (loop_body_summary (clock p) w) as Hb. cbv zeta in Hb.
  unfold bind.
  destruct (loop_body B (clock p) w) as [[[]|e] w2]; [| reflexivity].
  cbn [fst snd] in Hb. destruct Hb as ((Hl2 & _) & Hp2 & _).
  apply IH; congruence.
Qed.

End WithBackend.
End SchedulerFacts.

(** ** The parser: the claims *)

Module ParserTheorems.
Import PyStr PyStrFacts Parser ParserFacts LineFacts SortFacts LoadFacts Engine Samples.

(** C1, as stated, fails: a line whose last group has four hundred
    digits has the form the claim asks for, yet [int / 100.0] raises
    [OverflowError], no record is emitted for it, and the load of a file
    made of this line alone leaves no lyrics. *)
Lemma huge_timestamp_gives_no_record :
  strip huge_line = timestamp dot "0" "0" (nines 400) +:+ "x" /\
  is_number "0" = true /\ is_number (nines 400) = true /\
  single_line huge_line = true /\
  load_line huge_line = Raise OverflowError /\
  lyrics (exec (load_lrc_file "song.lrc" (Ok [huge_line])) init) = [].
Proof. vm_compute. repeat split; reflexivity. Qed.

(** C1, amended: a line as [readlines()] gives it, whose stripped form
    is a timestamp [[M:S.F]] or [[M:S:F]] followed by [rest], where
    none of the three groups has more than 4300 digits, so that [int]
    reads them, and where [M*60+S] and [F] convert to floats [a] and
    [b], contributes exactly one record: its time is [a + b / 100.0] in
    float arithmetic and its text is [rest] stripped, empty or not. A
    file made of this line loads as that one record. *)
Theorem timestamp_line_gives_one_record line sep m s f rest a b :
  sep = dot \/ sep = colon ->
  is_number m = true -> is_number s = true -> is_number f = true ->
  short m -> short s -> short f ->
  single_line line = true ->
  strip line = timestamp sep m s f +:+ rest ->
  PyFloat.of_int (digits_value 0 m * 60 + digits_value 0 s) = Ok a ->
  PyFloat.of_int (digits_value 0 f) = Ok b ->
  load_line line
  = Ok (Some (PyFloat.add a (PyFloat.div b PyFloat.hundred), strip rest)) /\
  forall file_path w,
    lyrics (exec (load_lrc_file file_path (Ok [line])) w)
    = [(PyFloat.add a (PyFloat.div b PyFloat.hundred), strip rest)].
Proof.
  intros Hsep Hm Hs Hf Lm Ls Lf Hline Hstrip Ha Hb.
  assert (Hrest : no_lf rest = true).
  { pose proof (no_lf_strip line Hline) as H. rewrite Hstrip, no_lf_app in H.
    apply andb_true_iff in H. tauto. }
  assert (Hload : load_line line
    = Ok (Some (PyFloat.add a (PyFloat.div b PyFloat.hundred), strip rest))).
  { rewrite (load_line_timestamp line sep m s f rest) by assumption.
    rewrite groups_value_short by assumption.
    unfold timestamp_value, PyFloat.int_truediv_hundred, PyFloat.int_add_float.
    now rewrite Hb, Ha. }
  split; [exact Hload |].
  intros file_path w. rewrite load_lrc_file_lyrics.
  cbn [scan_lines]. now rewrite Hload.
Qed.

Lemma timestamp_line_gives_one_record_witness :
  load_line (" [01:02:03] Test " +:+ String LF "")
  = Ok (Some (S754_finite false 8729946402680996 (-47), "Test")) /\
  forall file_path w,
    lyrics (exec (load_lrc_file file_path
                    (Ok [" [01:02:03] Test " +:+ String LF ""])) w)
    = [(S754_finite false 8729946402680996 (-47), "Test")].
Proof.
  apply (timestamp_line_gives_one_record
           (" [01:02:03] Test " +:+ String LF "") colon "01" "02" "03" " Test"
           (seconds 62) (seconds 3)).
  - right; reflexivity.
  - reflexivity.
  - reflexivity.
  - reflexivity.
  - apply Nat.leb_le; reflexivity.
  - apply Nat.leb_le; reflexivity.
  - apply Nat.leb_le; reflexivity.
  - reflexivity.
  - vm_compute; reflexivity.
  - vm_compute; reflexivity.
  - vm_compute; reflexivity.
Defined.

(** Scenario B, and a timestamp without text. *)
Example scenario_b :
  lyrics (exec (load_lrc_file "b.lrc" (Ok ["[01:02:03]Test"])) init)
  = [(S754_finite false 8729946402680996 (-47), "Test")] /\
  lyrics (exec (load_lrc_file "b.lrc" (Ok ["[01:02.03]"])) init)
  = [(S754_finite false 8729946402680996 (-47), "")].
Proof. split; reflexivity. Qed.

(** C4 on the code: after a file whose third line raises, the lyrics are
    the two records collected so far, in file order and not ascending;
    the only call made is the warning, and playback can be started on
    them. *)
Theorem failed_load_leaves_unsorted_lyrics :
  let w := exec (load_lrc_file "song.lrc" (Ok unsorted_file)) init in
  lyrics w = [(seconds 5, "b"); (seconds 1, "a")] /\
  ~ StronglySorted time_le (lyrics w) /\
  trace w = [ShowWarning (WarnCannotRead OverflowError)] /\
  is_playing (exec (start_filling (seconds 0)) w) = true.
Proof.
  cbv zeta.
  assert (E : lyrics (exec (load_lrc_file "song.lrc" (Ok unsorted_file)) init)
              = [(seconds 5, "b"); (seconds 1, "a")]) by (vm_compute; reflexivity).
  split; [exact E |]. split; [| split; vm_compute; reflexivity].
  rewrite E. intros H. apply StronglySorted_inv in H. destruct H as [_ H].
  apply Forall_inv in H. vm_compute in H. discriminate.
Qed.

(** Whenever no line raises, the lyrics are the records of the lines,
    in ascending order of time. *)
Lemma successful_load_is_sorted file_path content w :
  snd (scan_lines content) = None ->
  StronglySorted time_le (lyrics (exec (load_lrc_file file_path (Ok content)) w)) /\
  Permutation (lyrics (exec (load_lrc_file file_path (Ok content)) w))
              (fst (scan_lines content)).
Proof.
  intros H. rewrite load_lrc_file_lyrics, H. split.
  - apply sort_by_time_sorted, scan_lines_nonneg.
  - apply sort_by_time_perm.
Qed.

(** Scenario A. *)
Example scenario_a_sorted :
  lyrics (exec (load_lrc_file "a.lrc" (Ok scenario_a)) init)
  = [(S754_zero false, "Hi"); (S754_finite false 6755399441055744 (-52), "Hello")].
Proof. reflexivity. Qed.

(** C5: [load_lrc_file] never raises; a line gives a record only if its
    stripped form is not empty, starts with a bracket and starts with a
    timestamp of one of the two formats; any other line, bracketed or
    not, is passed over without a record, an exception or a call. *)
Theorem malformed_lines_are_skipped :
  (forall file_path file w, outcome (load_lrc_file file_path file) w = Ok tt) /\
  (forall line r,
     load_line line = Ok (Some r) ->
     is_empty (strip line) = false /\
     startswith "["%char (strip line) = true /\
     timed_line (strip line)) /\
  (forall line,
     ~ timed_line (strip line) ->
     load_line line = Ok None /\ forall w, load_lines [line] w = (Ok tt, w)).
Proof.
  split; [exact load_lrc_file_outcome |]. split.
  - intros line r H. destruct (load_line_head line r H) as [H1 H2].
    repeat split; try assumption.
    destruct (load_line_cases line) as [E|E]; [congruence | exact E].
  - intros line Hn.
    assert (E : load_line line = Ok None)
      by (destruct (load_line_cases line); [assumption | contradiction]).
    split; [exact E |]. intros w. cbn [load_lines].
    unfold bind, lift. rewrite E. reflexivity.
Qed.

Lemma metadata_tag_not_timed : ~ timed_line (strip "[ti:Song title]").
Proof.
  intros (sep & m & s & f & rest & _ & Hm & _ & _ & H).
  rewrite timestamp_app in H.
  destruct m as [|c m]; [discriminate Hm |].
  cbn in H. injection H as Hc _. subst c. discriminate Hm.
Qed.

Lemma malformed_lines_are_skipped_witness :
  load_line "[ti:Song title]" = Ok None /\
  forall w, load_lines ["[ti:Song title]"] w = (Ok tt, w).
Proof.
  apply (proj2 (proj2 malformed_lines_are_skipped) "[ti:Song title]").
  exact metadata_tag_not_timed.
Defined.

(** C9: the lyrics a load leaves depend on the content alone, not on
    the path or on what was loaded before; loading the same content a
    second time gives the same lyrics again. *)
Theorem reload_gives_same_lyrics :
  (forall path path' content w w',
     lyrics (exec (load_lrc_file path (Ok content)) w)
     = lyrics (exec (load_lrc_file path' (Ok content)) w')) /\
  (forall path content w,
     lyrics (exec (load_lrc_file path (Ok content))
                  (exec (load_lrc_file path (Ok content)) w))
     = lyrics (exec (load_lrc_file path (Ok content)) w)).
Proof.
  split; intros; now rewrite !load_lrc_file_lyrics.
Qed.

End ParserTheorems.

(** ** The engine: the claims *)

Module EngineTheorems.
Import Parser Engine DispatchFacts SchedulerFacts SortFacts Samples.

Lemma sorted_lookup {A} (R : relation A) (l : list A) :
  StronglySorted R l ->
  forall j k a b, (j < k)%nat -> l !! j = Some a -> l !! k = Some b -> R a b.
Proof.
  induction 1 as [|x l _ IH Hx]; intros j k a b Hjk Ha Hb; [discriminate |].
  destruct k as [|k]; [lia |]. cbn in Hb. destruct j as [|j]; cbn in Ha.
  - injection Ha as <-. rewrite Forall_forall in Hx. apply Hx.
    eapply list_elem_of_lookup_2, Hb.
  - apply (IH j k); [lia | assumption ..].
Qed.

(** The records at consecutive indices of a sorted list are sorted. *)
Lemma sorted_segment {A} (R : relation A) (l : list A) n : forall i,
  StronglySorted R l ->
  StronglySorted R (omap (fun k => l !! k) (seq i n)).
Proof.
  induction n as [|n IH]; intros i Hs; [constructor |].
  change (seq i (S n)) with (i :: seq (S i) n).
  change (omap (fun k => l !! k) (i :: seq (S i) n))
    with (match l !! i with
          | Some x => x :: omap (fun k => l !! k) (seq (S i) n)
          | None => omap (fun k => l !! k) (seq (S i) n)
          end).
  destruct (l !! i) as [x|] eqn:Ex; [| now apply IH].
  constructor; [now apply IH |].
  apply Forall_forall. intros y Hy.
  apply list_elem_of_omap in Hy. destruct Hy as (k & Hk & Ey).
  apply elem_of_seq in Hk.
  apply (sorted_lookup R l Hs i k); [lia | assumption ..].
Qed.

(** C2: when the sequence is dispatched for a lyric, the calls made are
    those the actions ask for, in sequence order, up to the first call
    the backend rejects, whose exception is raised; if none is rejected
    every action runs. A text action always types the lyric, whatever
    its stored text is; any other action asks for the same call whatever
    the lyric is. In the loop, the lyric the sequence is dispatched for
    is the text of the record that is due: one pass of the body
    announces the record, makes the calls of the sequence for its text
    and moves the index on by one. *)
Theorem dispatch_runs_sequence_in_order B text acts w :
  resolves (heap w) (action_sequence w) acts ->
  (outcome (execute_action_sequence B text) w
   = match snd (perform B (sequence_calls text acts)) with
     | None => Ok tt | Some e => Raise e end /\
   trace (exec (execute_action_sequence B text) w)
   = trace w ++ fst (perform B (sequence_calls text acts))) /\
  (snd (perform B (sequence_calls text acts)) = None ->
   outcome (execute_action_sequence B text) w = Ok tt /\
   trace (exec (execute_action_sequence B text) w)
   = trace w ++ flat_map (action_calls text) acts) /\
  (forall a, action_type a = "text" ->
             action_calls text a = [KeyboardWrite (VStr text)]) /\
  (forall a text', action_type a <> "text" ->
                   action_calls text' a = action_calls text a) /\
  (forall now t0 (next : record),
     start_time w = Some t0 ->
     lyrics w !! current_index w = Some next ->
     PyFloat.ge (PyFloat.sub now t0) (fst next) = true ->
     snd (perform B (sequence_calls (snd next) acts)) = None ->
     outcome (loop_body B now) w = Ok tt /\
     trace (exec (loop_body B now) w)
     = trace w ++ [Highlight (Z.of_nat (current_index w))]
               ++ flat_map (action_calls (snd next)) acts ++ [TickSleep] /\
     current_index (exec (loop_body B now) w) = (current_index w + 1)%nat).
Proof.
  intros Hres.
  destruct (execute_action_sequence_spec B text acts w Hres) as (h' & _ & Hex).
  unfold outcome, exec. rewrite Hex. cbn [fst snd trace upd].
  split; [split; reflexivity |]. split; [| split; [| split]].
  - intros Hacc. rewrite Hacc. split; [reflexivity |].
    now rewrite (perform_all B _ Hacc).
  - intros a Ha. unfold action_calls. now rewrite Ha.
  - intros a text' Ha. unfold action_calls.
    destruct (String.eqb_spec (action_type a) "text"); [contradiction | reflexivity].
  - intros now t0 next Ht En Hdue Hacc.
    destruct (loop_body_due B now w t0 next acts Ht En Hdue Hres) as (h2 & _ & ->).
    rewrite Hacc, (perform_all B _ Hacc). cbn. auto.
Qed.

(** Scenario C: the default sequence dispatched for "La la". *)
Lemma dispatch_runs_sequence_in_order_witness :
  outcome (execute_action_sequence sample_backend "La la") init = Ok tt /\
  trace (exec (execute_action_sequence sample_backend "La la") init)
  = [KeyboardWrite (VStr "La la"); KeyboardPressAndRelease (VStr "enter")].
Proof.
  apply (proj1 (proj2 (dispatch_runs_sequence_in_order
                         sample_backend "La la" [text_block; enter_block] init
                         ltac:(repeat constructor)))).
  reflexivity.
Defined.

(** C3, as stated, fails: with a key the backend does not know in the
    sequence, the first due lyric is typed, the loop then ends with the
    exception, and ten polls with the clock far past both lyrics leave
    the index at 0 with the second lyric never dispatched, while the
    session still counts as playing. *)
Lemma unknown_key_halts_playback :
  press_error sample_backend (VStr "nosuchkey") = Some ValueError /\
  let res := lyric_filling_loop sample_backend (late_polls 10) edited in
  fst res = Raise ValueError /\
  length (lyrics (snd res)) = 2%nat /\
  current_index (snd res) = 0%nat /\
  is_playing (snd res) = true /\
  trace (snd res) = [Highlight 0; KeyboardWrite (VStr "Hi")].
Proof. vm_compute. repeat split; reflexivity. Qed.

Lemma perform_rejected_key B text pre key_action post e :
  action_type key_action = "key" ->
  press_error B (dict_get (params key_action) "key" (VStr "enter")) = Some e ->
  snd (perform B (sequence_calls text pre)) = None ->
  perform B (sequence_calls text (pre ++ key_action :: post))
  = (sequence_calls text pre, Some e).
Proof.
  intros Hty Hrej Hpre. unfold sequence_calls. rewrite flat_map_app.
  fold (sequence_calls text pre). rewrite perform_app, Hpre.
  rewrite (perform_all B _ Hpre). cbn [flat_map].
  assert (E : perform B (action_calls text key_action
                         ++ flat_map (action_calls text) post) = ([], Some e)).
  { unfold action_calls at 1. rewrite Hty. cbn [String.eqb Ascii.eqb Bool.eqb].
    cbn [app perform rejected]. now rewrite Hrej. }
  rewrite E. cbn. now rewrite app_nil_r.
Qed.

(** C3, amended: when a due lyric is dispatched and a key action of the
    sequence names a key the backend rejects, the actions in front of
    it having run, the backend's exception comes out of the loop at
    that point: the calls made are the announcement and the calls of
    the actions in front, the actions behind are skipped, the index
    stays on that lyric, the remaining polls are not used, the playing
    flag stays set, and a later start request changes nothing. *)
Theorem rejected_key_ends_loop B p polls w t0 (next : record)
    pre key_action post e :
  is_playing w = true -> start_time w = Some t0 -> ui p = [] ->
  lyrics w !! current_index w = Some next ->
  PyFloat.ge (PyFloat.sub (clock p) t0) (fst next) = true ->
  resolves (heap w) (action_sequence w) (pre ++ key_action :: post) ->
  action_type key_action = "key" ->
  press_error B (dict_get (params key_action) "key" (VStr "enter")) = Some e ->
  snd (perform B (sequence_calls (snd next) pre)) = None ->
  let res := lyric_filling_loop B (p :: polls) w in
  fst res = Raise e /\
  trace (snd res)
  = trace w ++ Highlight (Z.of_nat (current_index w))
               :: sequence_calls (snd next) pre /\
  current_index (snd res) = current_index w /\
  lyrics (snd res) = lyrics w /\
  is_playing (snd res) = true /\
  forall now, exec (start_filling now) (snd res) = snd res.
Proof.
  intros Hplay Ht Hui En Hdue Hres Hty Hrej Hpre. cbv zeta.
  rewrite loop_cons by (rewrite Hui; constructor). rewrite Hui. cbv zeta.
  rewrite Hplay. cbn [andb].
  pose proof (lookup_lt_Some _ _ _ En) as Hlt.
  rewrite (proj2 (Nat.ltb_lt _ _) Hlt).
  destruct (loop_body_due B (clock p) w t0 next _ Ht En Hdue Hres)
    as (h' & _ & Hbody).
  rewrite Hbody, (perform_rejected_key B _ pre key_action post e Hty Hrej Hpre).
  cbn [fst snd trace upd current_index lyrics is_playing].
  repeat split; try reflexivity; try assumption.
  intros now. unfold exec. rewrite start_filling_eq. cbn [snd lyrics upd is_playing].
  destruct (lyrics w); [discriminate | now rewrite Hplay].
Qed.

Lemma rejected_key_ends_loop_witness :
  let res := lyric_filling_loop sample_backend
               (Poll [] (seconds 100) :: late_polls 9) edited in
  fst res = Raise ValueError /\
  trace (snd res) = [Highlight 0; KeyboardWrite (VStr "Hi")] /\
  current_index (snd res) = 0%nat /\
  lyrics (snd res) = lyrics edited /\
  is_playing (snd res) = true /\
  forall now, exec (start_filling now) (snd res) = snd res.
Proof.
  apply (rejected_key_ends_loop sample_backend (Poll [] (seconds 100))
           (late_polls 9) edited (seconds 0) (seconds 0, "Hi")
           [text_block] unknown_key_block [enter_block] ValueError).
  - reflexivity.
  - reflexivity.
  - reflexivity.
  - reflexivity.
  - reflexivity.
  - repeat constructor.
  - reflexivity.
  - reflexivity.
  - reflexivity.
Defined.

(** C6: [start_filling] without lyrics makes one call, the warning,
    and nothing else: no thread is started, the index and the start
    time are kept, and an idle player stays idle. *)
Theorem start_without_lyrics now w :
  lyrics w = [] ->
  start_filling now w = (Ok tt, add_event (ShowWarning WarnNoLyrics) w) /\
  is_playing (exec (start_filling now) w) = is_playing w /\
  threads_started (trace (exec (start_filling now) w)) = threads_started (trace w) /\
  (is_playing w = false -> is_playing (exec (start_filling now) w) = false).
Proof.
  intros Hl. unfold exec. rewrite start_filling_eq, Hl. cbn [snd].
  split; [reflexivity |]. split; [reflexivity |]. split; [| auto].
  cbn [trace add_event]. rewrite threads_started_app. cbn. lia.
Qed.

Lemma start_without_lyrics_witness :
  start_filling (seconds 0) init
  = (Ok tt, add_event (ShowWarning WarnNoLyrics) init) /\
  is_playing (exec (start_filling (seconds 0)) init) = is_playing init /\
  threads_started (trace (exec (start_filling (seconds 0)) init))
  = threads_started (trace init) /\
  (is_playing init = false ->
   is_playing (exec (start_filling (seconds 0)) init) = false).
Proof. apply (start_without_lyrics (seconds 0) init). reflexivity. Defined.

(** C7, as stated, fails in its last part. The guard of
    [start_filling] reads the flag, not the thread: when the other
    thread stops the playback and starts it again between two checks of
    the loop condition, the loop that was running finds the flag set and
    goes on, from index 0 and with the new start time, while a second
    thread has been started. Two loops then run at once, and the first
    one alone announces lyric 0 twice. *)
Lemma stop_then_start_leaves_two_loops :
  let polls := [Poll [] (seconds 100);
                Poll [CallStop; CallStart (seconds 100)] (seconds 200);
                Poll [] (seconds 200)] in
  let res := lyric_filling_loop sample_backend polls playing in
  is_playing playing = true /\
  threads_started (trace playing) = 1%nat /\
  fired (trace playing) = [] /\
  fst res = Ok Polling /\
  is_playing (snd res) = true /\
  threads_started (trace (snd res)) = 2%nat /\
  fired (trace (snd res)) = [0; 0; 1]%nat.
Proof. vm_compute. repeat split; reflexivity. Qed.

(** C7, amended: [start_filling] while the playing flag is set keeps
    the index, the start time and the flag and starts no thread; with
    lyrics loaded it changes nothing at all, so any number of further
    requests leave the world as it is, and a loop that receives only
    start requests while it runs makes the calls it makes without
    them. *)
Theorem start_while_playing now w :
  is_playing w = true ->
  let w' := exec (start_filling now) w in
  (current_index w' = current_index w /\ start_time w' = start_time w /\
   is_playing w' = true /\
   threads_started (trace w') = threads_started (trace w)) /\
  (lyrics w <> [] ->
   w' = w /\
   (forall nows, foldl (fun v t => exec (start_filling t) v) w nows = w) /\
   (forall B polls, start_only polls ->
      lyric_filling_loop B polls w = lyric_filling_loop B (without_ui polls) w)).
Proof.
  intros Hp. cbv zeta. unfold exec. rewrite start_filling_eq. cbn [snd].
  destruct (lyrics w) as [|r l] eqn:El.
  - split; [| congruence].
    cbn [trace add_event current_index start_time is_playing].
    rewrite threads_started_app. cbn.
    repeat split; try assumption. lia.
  - rewrite Hp. split; [repeat split; assumption |]. intros _.
    split; [reflexivity |]. split.
    + induction nows as [|t nows IH]; [reflexivity |].
      cbn [foldl]. rewrite start_filling_eq, El, Hp. exact IH.
    + intros B polls Hpolls. apply starts_ignored; [assumption .. |].
      rewrite El. discriminate.
Qed.

Lemma start_while_playing_witness :
  let w' := exec (start_filling (seconds 7)) playing in
  (current_index w' = current_index playing /\
   start_time w' = start_time playing /\
   is_playing w' = true /\
   threads_started (trace w') = threads_started (trace playing)) /\
  (lyrics playing <> [] ->
   w' = playing /\
   (forall nows, foldl (fun v t => exec (start_filling t) v) playing nows = playing) /\
   (forall B polls, start_only polls ->
      lyric_filling_loop B polls playing
      = lyric_filling_loop B (without_ui polls) playing)).
Proof. apply (start_while_playing (seconds 7) playing). reflexivity. Defined.

(** C8, as stated, fails. The lyrics are in ascending order of time
    only after a load in which no line raised: a session played on the
    lyrics that the failed load of [unsorted_file] leaves runs to its
    end and fires the lyric of 5 s before the lyric of 1 s. And the
    index is bounded by the number of lyrics only as long as the lyrics
    are not replaced: after one pass of a session, the load of an empty
    file leaves the session playing with index 1 and no lyric. *)
Lemma unsorted_session_fires_out_of_order :
  let w := exec (start_filling (seconds 0))
             (exec (load_lrc_file "song.lrc" (Ok unsorted_file)) init) in
  let res := lyric_filling_loop sample_backend (late_polls 3) w in
  let v := exec (load_lrc_file "empty.lrc" (Ok []))
             (exec (lyric_filling_loop sample_backend (late_polls 1)) playing) in
  (is_playing w = true /\ current_index w = 0%nat /\
   fst res = Ok Completed /\
   fired (trace (snd res)) = [0; 1]%nat /\
   omap (fun k => lyrics w !! k) (fired (trace (snd res)))
   = [(seconds 5, "b"); (seconds 1, "a")] /\
   PyFloat.lt (seconds 1) (seconds 5) = true) /\
  (is_playing v = true /\ lyrics v = [] /\ current_index v = 1%nat).
Proof. vm_compute. repeat split; reflexivity. Qed.

(** C8, amended: a session started on loaded lyrics begins at index 0.
    While the loop runs on lyrics that are not replaced, the other
    thread being free to stop it but not to start it again, the lyrics
    are kept, no thread is started, the index never goes back and never
    passes the number of lyrics, and the lyrics announced are those from
    the old index up to the new one, each once, in index order, hence in
    ascending time when the lyrics are sorted. A loop left with the
    index at the number of lyrics has cleared the playing flag itself
    and shows the completed status; a loop left earlier was stopped and
    shows the stopped status, which is a different one. With all lyrics
    due, nothing rejected and more polls than lyrics left, the loop is
    left completed. *)
Theorem session_index_progress :
  (forall now w,
     lyrics w <> [] -> is_playing w = false ->
     current_index (exec (start_filling now) w) = 0%nat /\
     is_playing (exec (start_filling now) w) = true /\
     lyrics (exec (start_filling now) w) = lyrics w) /\
  (forall B polls w,
     stop_only polls -> (current_index w <= length (lyrics w))%nat ->
     let r := fst (lyric_filling_loop B polls w) in
     let w' := snd (lyric_filling_loop B polls w) in
     lyrics w' = lyrics w /\
     (current_index w <= current_index w' <= length (lyrics w))%nat /\
     exists evs, trace w' = trace w ++ evs /\ threads_started evs = 0%nat /\
       (forall x, r = Ok x ->
          fired evs = seq (current_index w) (current_index w' - current_index w) /\
          (StronglySorted time_le (lyrics w) ->
           StronglySorted time_le (omap (fun k => lyrics w !! k) (fired evs)))) /\
       (r = Ok Completed ->
          current_index w' = length (lyrics w) /\ is_playing w' = false /\
          last_status evs = Some StatusCompleted) /\
       (r = Ok Stopped ->
          (current_index w' < length (lyrics w))%nat /\ is_playing w' = false /\
          (is_playing w = true -> last_status evs = Some StatusStopped))) /\
  StatusCompleted <> StatusStopped /\
  (forall B polls w t0 acts,
     undisturbed polls ->
     is_playing w = true -> start_time w = Some t0 ->
     resolves (heap w) (action_sequence w) acts ->
     accepts_all B acts (lyrics w) ->
     all_due t0 (lyrics w) polls ->
     (current_index w <= length (lyrics w))%nat ->
     (length (lyrics w) - current_index w < length polls)%nat ->
     fst (lyric_filling_loop B polls w) = Ok Completed).
Proof.
  split; [| split; [| split]].
  - intros now w Hl Hp. unfold exec. rewrite start_filling_eq. cbn [snd].
    destruct (lyrics w) eqn:El; [congruence |]. rewrite Hp. cbn. auto.
  - intros B polls w Hpolls Hle.
    destruct (loop_summary B polls Hpolls w Hle)
      as ((Hl & _) & Hidx & evs & Ht & Hth & Hfired & Hcomp & Hstop).
    cbv zeta. split; [exact Hl |]. split; [exact Hidx |].
    exists evs. split; [exact Ht |]. split; [exact Hth |].
    split; [| split; assumption].
    intros x Hx. split; [eapply Hfired, Hx |].
    intros Hs. rewrite (Hfired x Hx). now apply sorted_segment.
  - discriminate.
  - intros B polls w t0 acts. apply loop_completes.
Qed.

Lemma playing_all_due : all_due (seconds 0) (lyrics playing) (late_polls 3).
Proof. repeat constructor. Qed.

Lemma session_index_progress_witness :
  fst (lyric_filling_loop sample_backend (late_polls 3) playing) = Ok Completed /\
  current_index (exec (start_filling (seconds 0)) loaded) = 0%nat.
Proof.
  split.
  - apply (proj2 (proj2 (proj2 session_index_progress))
             sample_backend (late_polls 3) playing (seconds 0)
             [text_block; enter_block]).
    + repeat constructor.
    + reflexivity.
    + reflexivity.
    + repeat constructor.
    + repeat constructor.
    + exact playing_all_due.
    + vm_compute. lia.
    + vm_compute. lia.
  - apply (proj1 session_index_progress (seconds 0) loaded).
    + discriminate.
    + reflexivity.
Defined.

(** C10: after any number of dispatches, for whatever lyrics and
    whatever they raise, the action sequence is the same list of
    references, every object of the heap is still stored with the kind
    and the parameters it had, and the sequence resolves to the same
    actions as before. *)
Theorem dispatch_keeps_action_sequence B texts : forall w,
  let w' := foldl (fun v t => exec (execute_action_sequence B t) v) w texts in
  action_sequence w' = action_sequence w /\
  heap w ⊆ heap w' /\
  (forall l a, heap w !! l = Some a -> heap w' !! l = Some a) /\
  (forall acts, resolves (heap w) (action_sequence w) acts ->
                resolves (heap w') (action_sequence w') acts).
Proof.
  induction texts as [|t texts IH]; intros w; cbv zeta; cbn [foldl].
  - repeat split; auto.
  - destruct (execute_action_sequence_frame B t w) as (r & h' & evs & Hex & Hsub & _).
    assert (E : exec (execute_action_sequence B t) w = upd h' evs w)
      by (unfold exec; now rewrite Hex).
    rewrite E. specialize (IH (upd h' evs w)). cbv zeta in IH.
    destruct IH as (Hsq & Hh & _ & _). cbn [action_sequence heap upd] in Hsq, Hh.
    assert (Hall : heap w ⊆ heap (foldl (fun v t => exec (execute_action_sequence B t) v)
                                         (upd h' evs w) texts))
      by (etrans; eassumption).
    split; [exact Hsq |]. split; [exact Hall |]. split.
    + intros l a Hl. eapply lookup_weaken; eassumption.
    + intros acts Hres. rewrite Hsq. eapply resolves_weaken; eassumption.
Qed.

(** The default placeholder keeps its empty text. *)
Example placeholder_unchanged :
  heap (exec (execute_action_sequence sample_backend "La la") init) !! 1%positive
  = Some text_block.
Proof. reflexivity. Qed.

End EngineTheorems.

(** ** More on lines and on the order of the lyrics *)

Module LineErrorFacts.
Import PyStr PyStrFacts Re ReFacts Parser ParserFacts LineFacts PyFloatFacts.

(** A string is its first line followed by nothing or by a line feed. *)
Lemma first_line_split (rest : string) :
  exists body tail,
    rest = body +:+ tail /\
    forallb (charset_mem CsAny) body = true /\
    starts_in CsAny tail = false.
Proof.
  induction rest as [|c rest (body & tail & Hr & Hb & Ht)].
  - exists "", "". repeat split; reflexivity.
  - destruct (charset_mem CsAny c) eqn:Ec.
    + exists (String c body), tail. cbn [append forallb]. rewrite Ec, Hb, <- Hr.
      repeat split. exact Ht.
    + exists "", (String c rest). cbn [append forallb starts_in]. rewrite Ec.
      repeat split; reflexivity.
Qed.

(** The line pattern on any string that starts with a timestamp: group
    2 is what follows up to the first line feed. *)
Lemma re_match_line_pattern_any sep m s f rest :
  sep = dot \/ sep = colon ->
  is_number m = true -> is_number s = true -> is_number f = true ->
  exists body,
    re_match line_pattern (timestamp sep m s f +:+ rest)
    = Some [(2%nat, body); (1%nat, timestamp sep m s f)].
Proof.
  intros Hsep Hm Hs Hf.
  destruct (first_line_split rest) as (body & tail & Hr & Hb & Ht).
  exists body. unfold re_match, line_pattern.
  assert (Hd : isdigit sep = false) by (destruct Hsep; subst; reflexivity).
  rewrite run_seq. cbn [run].
  rewrite !run_ts_plain by (assumption || reflexivity).
  assert (Hstar : forall caps,
    greedy CsAny rest caps
      (fun s1 caps1 => Some ((2%nat, consumed_upto rest s1) :: caps1))
    = Some ((2%nat, body) :: caps)).
  { intros caps. rewrite Hr at 1.
    apply greedy_first; [exact Hb | exact Ht |].
    rewrite Hr. now rewrite consumed_upto_app. }
  rewrite Hstar, consumed_upto_app.
  destruct Hsep; subst sep; reflexivity.
Qed.

(** A line whose stripped form starts with a timestamp, whatever
    follows: the record, or the exception of its numbers. *)
Lemma load_line_timed line sep m s f rest :
  sep = dot \/ sep = colon ->
  is_number m = true -> is_number s = true -> is_number f = true ->
  strip line = timestamp sep m s f +:+ rest ->
  exists body,
    load_line line
    = res_bind (groups_value m s f) (fun t => Ok (Some (t, strip body))).
Proof.
  intros Hsep Hm Hs Hf Hline.
  destruct (re_match_line_pattern_any sep m s f rest Hsep Hm Hs Hf) as (body & Hre).
  exists body.
  unfold load_line. rewrite Hline.
  assert (Hhead : negb (is_empty (timestamp sep m s f +:+ rest))
                  && startswith "["%char (timestamp sep m s f +:+ rest) = true)
    by (rewrite timestamp_app; reflexivity).
  rewrite Hhead, Hre. cbn [group Nat.eqb].
  rewrite <- (app_nil_r_s (timestamp sep m s f)).
  rewrite parse_time_timestamp by assumption.
  now destruct (groups_value _ _ _).
Qed.

Lemma of_int_raises n e : PyFloat.of_int n = Raise e -> e = OverflowError.
Proof.
  unfold PyFloat.of_int. destruct (binary_normalize _ _ _ _ _); congruence.
Qed.

Lemma timestamp_value_raises a b c e :
  timestamp_value a b c = Raise e -> e = OverflowError.
Proof.
  unfold timestamp_value, PyFloat.int_truediv_hundred, PyFloat.int_add_float.
  destruct (PyFloat.of_int c) as [x|e1] eqn:E1; cbn [res_bind].
  - destruct (PyFloat.of_int (a * 60 + b)) as [y|e2] eqn:E2; cbn [res_bind].
    + discriminate.
    + intros [= <-]. eapply of_int_raises, E2.
  - intros [= <-]. eapply of_int_raises, E1.
Qed.

Lemma groups_value_raises m s f e :
  groups_value m s f = Raise e -> e = ValueError \/ e = OverflowError.
Proof.
  rewrite groups_value_eq.
  destruct (int m) as [a|e1] eqn:Em; cbn [res_bind];
    [| intros [= <-]; left; eapply int_raises, Em].
  destruct (int s) as [b|e2] eqn:Es; cbn [res_bind];
    [| intros [= <-]; left; eapply int_raises, Es].
  destruct (int f) as [c|e3] eqn:Ef; cbn [res_bind];
    [| intros [= <-]; left; eapply int_raises, Ef].
  intros H. right. eapply timestamp_value_raises, H.
Qed.

Lemma scan_lines_length content :
  (length (fst (scan_lines content)) <= length content)%nat.
Proof.
  induction content as [|line content IH]; cbn [scan_lines]; [reflexivity |].
  destruct (load_line line) as [r|e]; [| cbn; lia].
  destruct (scan_lines content) as [rs oe]. cbn [fst length] in *.
  destruct r; cbn [length]; lia.
Qed.

End LineErrorFacts.

Module StableFacts.
Import Parser PyFloatFacts SortFacts Order.

Lemma eqb_rank (x y : float) :
  PyFloat.nonneg x = true -> PyFloat.nonneg y = true ->
  (SFeqb x y = true <-> PyFloat.rank x = PyFloat.rank y).
Proof.
  unfold SFeqb.
  destruct x as [sx|sx| |sx mx ex], y as [sy|sy| |sy my ey];
    cbn [PyFloat.nonneg SFcompare PyFloat.rank]; try discriminate;
    repeat match goal with s : bool |- _ => destruct s end;
    cbn [negb]; try discriminate; intros _ _;
    try (split; [reflexivity | reflexivity]);
    try (split; discriminate).
  rewrite compare_cont_Eq.
  destruct (Z.compare_spec ex ey); destruct (Pos.compare_spec mx my);
    split; try discriminate; try reflexivity; intros E;
    try (subst; reflexivity); injection E as ? ?; subst; lia.
Qed.

(** A record that is passed over on the way in has another time. *)
Lemma lt_not_same_time (t : float) (x y : record) :
  nonneg_key x -> nonneg_key y -> PyFloat.nonneg t = true ->
  PyFloat.lt (fst y) (fst x) = true ->
  same_time t x = true -> same_time t y = false.
Proof.
  unfold nonneg_key, same_time. intros Hx Hy Ht Hlt Hxt.
  apply lt_rank in Hlt; [| assumption ..].
  apply eqb_rank in Hxt; [| assumption ..].
  destruct (SFeqb (fst y) t) eqn:E; [| reflexivity].
  apply eqb_rank in E; [| assumption ..].
  rewrite E, <- Hxt in Hlt.
  destruct (PyFloat.rank (fst x)) as [[? ?] ?]. cbn in Hlt. lia.
Qed.

Lemma insert_same_time (t : float) (x : record) (l : list record) :
  nonneg_key x -> Forall nonneg_key l -> PyFloat.nonneg t = true ->
  List.filter (same_time t) (insert x l) = List.filter (same_time t) (x :: l).
Proof.
  intros Hx Hl Ht. induction Hl as [|y l Hy Hl IH]; [reflexivity |].
  cbn [insert]. destruct (PyFloat.lt (fst y) (fst x)) eqn:Elt; [| reflexivity].
  cbn [List.filter] in *. rewrite IH.
  destruct (same_time t x) eqn:Ex; [| reflexivity].
  now rewrite (lt_not_same_time t x y Hx Hy Ht Elt Ex).
Qed.

(** Sorting keeps the records of one time in the order they had. *)
Lemma sort_by_time_stable (t : float) (l : list record) :
  Forall nonneg_key l -> PyFloat.nonneg t = true ->
  List.filter (same_time t) (sort_by_time l) = List.filter (same_time t) l.
Proof.
  intros Hl Ht. induction Hl as [|x l Hx Hl IH]; [reflexivity |].
  cbn [sort_by_time foldr]. fold (sort_by_time l).
  rewrite insert_same_time; [| assumption | | assumption].
  - cbn [List.filter]. now rewrite IH.
  - eapply Permutation_Forall; [symmetry; apply sort_by_time_perm | assumption].
Qed.

End StableFacts.

Module ParserProperties.
Import PyStr PyStrFacts Parser ParserFacts LineFacts SortFacts LoadFacts Engine Samples.
Import LineErrorFacts StableFacts Order.

(** X1: whatever the file holds, and whether the load ends well or at
    a line that raises, every lyric [load_lrc_file] leaves has a time
    that is zero, positive or plus infinity: never negative, never a
    NaN. A file that cannot be read leaves the lyrics as they were. *)
Theorem lyric_times_are_never_negative :
  (forall file_path content w,
     Forall nonneg_key (lyrics (exec (load_lrc_file file_path (Ok content)) w))) /\
  (forall file_path e w,
     lyrics (exec (load_lrc_file file_path (Raise e)) w) = lyrics w).
Proof.
  split.
  - intros file_path content w. rewrite load_lrc_file_lyrics.
    destruct (snd (scan_lines content)); [apply scan_lines_nonneg |].
    eapply Permutation_Forall; [symmetry; apply sort_by_time_perm |].
    apply scan_lines_nonneg.
  - intros file_path e w. unfold exec. now rewrite load_lrc_file_unreadable.
Qed.

(** X2: when no line of the file raises, the lyrics are the records of
    the lines, none lost and none added, in ascending order of time;
    there are at most as many as the file has lines. *)
Theorem complete_load_sorts_the_records file_path content w :
  snd (scan_lines content) = None ->
  let ls := lyrics (exec (load_lrc_file file_path (Ok content)) w) in
  StronglySorted time_le ls /\
  Permutation ls (fst (scan_lines content)) /\
  (length ls <= length content)%nat.
Proof.
  intros H. cbv zeta. rewrite load_lrc_file_lyrics, H. split; [| split].
  - apply sort_by_time_sorted, scan_lines_nonneg.
  - apply sort_by_time_perm.
  - rewrite (Permutation_length (sort_by_time_perm _)). apply scan_lines_length.
Qed.

Lemma complete_load_sorts_the_records_witness :
  let ls := lyrics (exec (load_lrc_file "a.lrc" (Ok scenario_a)) init) in
  StronglySorted time_le ls /\
  Permutation ls (fst (scan_lines scenario_a)) /\
  (length ls <= length scenario_a)%nat.
Proof.
  apply (complete_load_sorts_the_records "a.lrc" scenario_a init).
  vm_compute; reflexivity.
Defined.

(** X3: the sort is stable. When no line raises, the lyrics that share
    a time [t] come out in the order their lines have in the file. *)
Theorem equal_times_keep_file_order file_path content w t :
  snd (scan_lines content) = None ->
  PyFloat.nonneg t = true ->
  List.filter (same_time t) (lyrics (exec (load_lrc_file file_path (Ok content)) w))
  = List.filter (same_time t) (fst (scan_lines content)).
Proof.
  intros H Ht. rewrite load_lrc_file_lyrics, H.
  apply sort_by_time_stable; [apply scan_lines_nonneg | assumption].
Qed.

Lemma equal_times_keep_file_order_witness :
  List.filter (same_time (seconds 1))
    (lyrics (exec (load_lrc_file "c.lrc" (Ok chorus_file)) init))
  = List.filter (same_time (seconds 1)) (fst (scan_lines chorus_file)).
Proof.
  apply (equal_times_keep_file_order "c.lrc" chorus_file init (seconds 1)).
  - vm_compute; reflexivity.
  - vm_compute; reflexivity.
Defined.

(** X4: what one line can do. It gives no record, silently, exactly
    when its stripped form does not start with a timestamp: the [None]
    that [parse_time] can return is never seen by [load_lrc_file]. A
    line raises only if it starts with a timestamp, and then nothing but
    [ValueError] or [OverflowError]: [ValueError] when one of the three
    groups of the timestamp has more than 4300 digits, which [int] does
    not read; and when none has, nothing but [OverflowError], from
    numbers that do not fit a float. *)
Theorem what_a_line_can_raise line :
  (load_line line = Ok None <-> ~ timed_line (strip line)) /\
  (forall e, load_line line = Raise e ->
     (e = ValueError \/ e = OverflowError) /\ timed_line (strip line)) /\
  (forall sep m s f rest,
     sep = dot \/ sep = colon ->
     is_number m = true -> is_number s = true -> is_number f = true ->
     strip line = timestamp sep m s f +:+ rest ->
     (~ short m \/ ~ short s \/ ~ short f -> load_line line = Raise ValueError) /\
     (short m -> short s -> short f ->
      forall e, load_line line = Raise e -> e = OverflowError)).
Proof.
  split; [split | split].
  - intros E (sep & m & s & f & rest & Hsep & Hm & Hs & Hf & Hline).
    destruct (load_line_timed line sep m s f rest Hsep Hm Hs Hf Hline) as (body & El).
    rewrite El in E. destruct (groups_value m s f); discriminate.
  - intros Hn. destruct (load_line_cases line); [assumption | contradiction].
  - intros e E.
    destruct (load_line_cases line) as [E0|Ht]; [congruence |].
    split; [| exact Ht].
    destruct Ht as (sep & m & s & f & rest & Hsep & Hm & Hs & Hf & Hline).
    destruct (load_line_timed line sep m s f rest Hsep Hm Hs Hf Hline) as (body & El).
    rewrite El in E. destruct (groups_value m s f) as [t|e'] eqn:Eg; [discriminate |].
    cbn in E. injection E as <-. eapply groups_value_raises, Eg.
  - intros sep m s f rest Hsep Hm Hs Hf Hline.
    destruct (load_line_timed line sep m s f rest Hsep Hm Hs Hf Hline) as (body & El).
    rewrite El. split.
    + intros Hlong. now rewrite (groups_value_long m s f Hm Hs Hf Hlong).
    + intros Lm Ls Lf e. rewrite (groups_value_short m s f Hm Hs Hf Lm Ls Lf).
      destruct (timestamp_value _ _ _) as [t|e'] eqn:Et; [discriminate |].
      cbn. intros [= <-]. eapply timestamp_value_raises, Et.
Qed.

Lemma what_a_line_can_raise_witness :
  load_line long_line = Raise ValueError /\
  forall e, load_line huge_line = Raise e -> e = OverflowError.
Proof.
  split.
  - apply (proj1 (proj2 (proj2 (what_a_line_can_raise long_line))
                    dot "0" "0" (zeros 4301) "x"
                    ltac:(left; reflexivity) ltac:(reflexivity) ltac:(reflexivity)
                    ltac:(vm_compute; reflexivity) ltac:(vm_compute; reflexivity))).
    right; right. unfold short. intros H. apply Nat.leb_le in H.
    vm_compute in H. discriminate.
  - apply (proj2 (proj2 (proj2 (what_a_line_can_raise huge_line))
                    dot "0" "0" (nines 400) "x"
                    ltac:(left; reflexivity) ltac:(reflexivity) ltac:(reflexivity)
                    ltac:(vm_compute; reflexivity) ltac:(vm_compute; reflexivity))).
    + apply Nat.leb_le; reflexivity.
    + apply Nat.leb_le; reflexivity.
    + apply Nat.leb_le; vm_compute; reflexivity.
Defined.

End ParserProperties.

(** ** Whole loads *)

Module WindowFacts.
Import PyStr Parser LineFacts SortFacts LoadFacts Engine DispatchFacts SchedulerFacts.
Import Session Window.

Lemma add_items_finite l : forall w,
  Forall finite_key l ->
  add_items l w = (Ok tt, upd (heap w) (map row_event l) w).
Proof.
  induction l as [|[seconds lyric] l IH]; intros w H.
  - cbn. now rewrite upd_id.
  - apply Forall_cons in H. destruct H as [Hx Hl].
    unfold finite_key in Hx. cbn [fst] in Hx.
    cbn [add_items]. unfold bind at 1.
    destruct seconds; try discriminate Hx; cbn [int_of_float_check ret];
      unfold bind at 1, emit, modify; rewrite IH by assumption;
      unfold_world; cbn; rewrite <- app_assoc; reflexivity.
Qed.

(** Whatever the times are, [add_items] only adds rows. *)
Lemma add_items_rows l : forall w,
  exists evs, snd (add_items l w) = upd (heap w) evs w /\
              Forall (fun ev => exists r, ev = row_event r) evs.
Proof.
  induction l as [|[seconds lyric] l IH]; intros w.
  - exists []. cbn. now rewrite upd_id.
  - cbn [add_items]. unfold bind at 1.
    assert (Hstop : exists evs, w = upd (heap w) evs w /\
                      Forall (fun ev => exists r, ev = row_event r) evs)
      by (exists []; now rewrite upd_id).
    destruct seconds; cbn [int_of_float_check ret raise snd]; try exact Hstop;
      unfold bind at 1, emit, modify;
      match goal with |- context [add_items l ?v] =>
        destruct (IH v) as (evs & E & Hevs); rewrite E end;
      eexists (_ :: evs);
      (split; [unfold_world; cbn; rewrite <- app_assoc; reflexivity |
               constructor; [eexists (_, _); reflexivity | exact Hevs]]).
Qed.

(** [load_lrc_file] on a file that could be read. *)
Lemma load_lrc_file_eq file_path content w :
  load_lrc_file file_path (Ok content) w
  = match snd (scan_lines content) with
    | Some e =>
        (Ok tt, add_event (ShowWarning (WarnCannotRead e))
                          (set_lyrics (fst (scan_lines content)) w))
    | None =>
        let ls := sort_by_time (fst (scan_lines content)) in
        match add_items ls (upd (heap w) [FileLabel file_path; LyricListClear]
                                (set_lyrics ls w)) with
        | (Ok _, w2) =>
            (Ok tt, add_event (SetStatus (StatusLoaded (length (lyrics w2)))) w2)
        | (Raise e, w2) => (Ok tt, add_event (ShowWarning (WarnCannotRead e)) w2)
        end
    end.
Proof.
  unfold load_lrc_file, try_except.
  unfold bind at 1. unfold lift at 1.
  unfold bind at 1. cbn [modify].
  unfold bind at 1. rewrite load_lines_scan.
  destruct (snd (scan_lines content)) as [e|]; [reflexivity |].
  cbn [set_lyrics lyrics app].
  unfold bind at 1. cbn [modify emit].
  unfold bind at 1. cbn [modify emit].
  unfold bind at 1. cbn [modify emit].
  unfold bind at 1. cbn [get].
  unfold bind at 1. cbv zeta.
  match goal with |- match match add_items ?l ?v with _ => _ end with _ => _ end
                     = match add_items ?l' ?v' with _ => _ end =>
    replace v' with v by (unfold_world; cbn; rewrite <- app_assoc; reflexivity);
    change l' with l; destruct (add_items l v) as [[[]|e] w2] end; reflexivity.
Qed.

Lemma rows_after_app evs1 evs2 rows :
  rows_after (evs1 ++ evs2) rows = rows_after evs2 (rows_after evs1 rows).
Proof. apply foldl_app. Qed.

Lemma rows_after_rows ls rows :
  rows_after (map row_event ls) rows = rows ++ ls.
Proof.
  revert rows. induction ls as [|[t x] ls IH]; intros rows; cbn.
  - now rewrite app_nil_r.
  - unfold rows_after in IH. rewrite IH, <- app_assoc. reflexivity.
Qed.

Lemma last_file_label_app a b :
  last_file_label (a ++ b)
  = match last_file_label b with Some s => Some s | None => last_file_label a end.
Proof. unfold last_file_label. rewrite omap_app. apply last_app. Qed.

Lemma last_file_label_rows ls : last_file_label (map row_event ls) = None.
Proof.
  unfold last_file_label.
  replace (omap _ (map row_event ls)) with (@nil string); [reflexivity |].
  induction ls as [|r ls IH]; [reflexivity | exact IH].
Qed.

Lemma last_status_rows ls : last_status (map row_event ls) = None.
Proof.
  unfold last_status.
  replace (omap _ (map row_event ls)) with (@nil status); [reflexivity |].
  induction ls as [|r ls IH]; [reflexivity | exact IH].
Qed.

(** *** The buttons *)













End WindowFacts.

(** ** Whole sessions *)

Module SessionFacts.
Import Parser Engine DispatchFacts SchedulerFacts Session.

Lemma quiet_stop_events : Forall quiet stop_events.
Proof. repeat constructor; intros []. Qed.



Section WithBackend.
Variable B : Backend.

(** A pass of the loop body while the current lyric is not due. *)
Lemma loop_body_waits now w t0 (next : record) :
  start_time w = Some t0 ->
  lyrics w !! current_index w = Some next ->
  PyFloat.ge (PyFloat.sub now t0) (fst next) = false ->
  loop_body B now w = (Ok tt, add_event TickSleep w).
Proof.
  intros Et En Hdue.
  unfold loop_body, bind at 1, get. rewrite Et.
  unfold bind at 1, current_lyric at 1, bind at 1, get. rewrite En. cbn [ret].
  rewrite Hdue. reflexivity.
Qed.

(** What the calls of the other thread leave, when they are stop
    requests. *)
Lemma after_stop_requests (cs : list ui_call) w :
  let w1 := match cs with
            | [] => w
            | _ :: _ => if is_playing w then stopped w else w
            end in
  lyrics w1 = lyrics w /\ current_index w1 = current_index w /\
  start_time w1 = start_time w /\ action_sequence w1 = action_sequence w /\
  heap w1 = heap w /\
  (cs <> [] -> is_playing w1 = false) /\
  exists e1, trace w1 = trace w ++ e1 /\ (e1 = [] \/ e1 = stop_events).
Proof.
  cbv zeta. destruct cs as [|c cs]; [| destruct (is_playing w) eqn:Ep].
  - do 5 (split; [reflexivity |]). split; [congruence |].
    exists []. rewrite app_nil_r. auto.
  - do 5 (split; [reflexivity |]). split; [reflexivity |].
    exists stop_events. auto.
  - do 5 (split; [reflexivity |]). split; [intros _; exact Ep |].
    exists []. rewrite app_nil_r. auto.
Qed.

(** The calls of a session that is left alone, with every lyric due
    and a backend that takes every call. *)
Lemma loop_plays polls : forall w t0 acts,
  undisturbed polls ->
  is_playing w = true -> start_time w = Some t0 ->
  resolves (heap w) (action_sequence w) acts ->
  accepts_all B acts (lyrics w) ->
  all_due t0 (lyrics w) polls ->
  (current_index w <= length (lyrics w))%nat ->
  (length (lyrics w) - current_index w < length polls)%nat ->
  exists h', heap w ⊆ h' /\
    lyric_filling_loop B polls w
    = (Ok Completed,
       World (lyrics w) false (Some t0) (length (lyrics w)) (action_sequence w) h'
             (trace w ++ played (current_index w) (drop (current_index w) (lyrics w)) acts
              ++ stop_events ++ [SetStatus StatusCompleted])).
Proof.
  induction polls as [|p polls IH]; intros w t0 acts Hq Hp Ht Hres Hacc Hdue Hle Hlen.
  { cbn in Hlen. lia. }
  apply Forall_cons in Hq. destruct Hq as [Hui Hq].
  apply Forall_cons in Hdue. destruct Hdue as [Hdue_p Hdue].
  rewrite loop_cons by (rewrite Hui; constructor). rewrite Hui. cbv zeta. rewrite Hp.
  cbn [andb]. destruct (current_index w <? length (lyrics w))%nat eqn:Elt.
  - apply Nat.ltb_lt in Elt.
    destruct (lookup_lt_is_Some_2 (lyrics w) (current_index w) Elt) as [next En].
    assert (Hin : next ∈ lyrics w) by (eapply list_elem_of_lookup_2, En).
    rewrite Forall_forall in Hdue_p. specialize (Hdue_p next Hin).
    pose proof Hacc as Hacc'. unfold accepts_all in Hacc'.
    rewrite Forall_forall in Hacc'. specialize (Hacc' next Hin).
    destruct (loop_body_due B (clock p) w t0 next acts Ht En Hdue_p Hres)
      as (h1 & Hsub1 & Hbody).
    rewrite Hbody, Hacc', (perform_all B _ Hacc').
    match goal with |- context [lyric_filling_loop B polls ?v] =>
      destruct (IH v t0 acts) as (h' & Hsub & Hloop) end;
      try assumption; try reflexivity.
    + cbn. eapply resolves_weaken; eassumption.
    + cbn. lia.
    + cbn in *. lia.
    + exists h'. split; [etrans; [exact Hsub1 | exact Hsub] |].
      rewrite Hloop. cbn [lyrics action_sequence trace current_index
                          set_current_index upd].
      rewrite (drop_S _ _ _ En). cbn [played].
      replace (current_index w + 1)%nat with (S (current_index w)) by lia.
      rewrite <- !app_assoc. reflexivity.
  - apply Nat.ltb_ge in Elt. rewrite loop_end_eq.
    destruct (length (lyrics w) <=? current_index w)%nat eqn:E;
      [| apply Nat.leb_gt in E; lia].
    rewrite Hp. exists (heap w). split; [reflexivity |].
    assert (Ei : current_index w = length (lyrics w)) by lia.
    rewrite Ei, drop_all. cbn [played app].
    destruct w as [ls pl st i sq h tr]. cbn in *. subst.
    unfold add_event, stopped. cbn. rewrite <- app_assoc. reflexivity.
Qed.

End WithBackend.
End SessionFacts.

(** ** The engine and the window: further properties *)

Module EngineProperties.
Import PyStr Parser LineFacts SortFacts LoadFacts Engine DispatchFacts SchedulerFacts.
Import Samples Session Window WindowFacts SessionFacts.

(** X5: after a load in which no line raises and no time is an
    infinity, the preview list has been cleared and filled again: its
    rows are the lyrics, one row each and in the same order, whatever
    it showed before; the status shows the number of lyrics and the file
    label the path. *)
Theorem preview_shows_the_lyrics file_path content w rows :
  snd (scan_lines content) = None ->
  Forall finite_key (fst (scan_lines content)) ->
  let w' := exec (load_lrc_file file_path (Ok content)) w in
  exists evs, trace w' = trace w ++ evs /\
    rows_after evs rows = lyrics w' /\
    last_status evs = Some (StatusLoaded (length (lyrics w'))) /\
    last_file_label evs = Some file_path.
Proof.
  intros Hscan Hfin. cbv zeta. unfold exec. rewrite load_lrc_file_eq, Hscan. cbv zeta.
  set (ls := sort_by_time (fst (scan_lines content))).
  assert (Hfin' : Forall finite_key ls)
    by (eapply Permutation_Forall; [symmetry; apply sort_by_time_perm | exact Hfin]).
  rewrite (add_items_finite ls _ Hfin'). cbn [snd].
  exists (load_events file_path ls). unfold load_events.
  split; [unfold_world; cbn; rewrite <- ?app_assoc; reflexivity |].
  split; [| split].
  - rewrite rows_after_app. cbn [rows_after foldl list_call].
    rewrite rows_after_app, rows_after_rows. reflexivity.
  - rewrite !last_status_app. reflexivity.
  - rewrite !last_file_label_app, last_file_label_rows. reflexivity.
Qed.

Lemma preview_shows_the_lyrics_witness :
  let w' := exec (load_lrc_file "a.lrc" (Ok scenario_a)) init in
  exists evs, trace w' = trace init ++ evs /\
    rows_after evs [(seconds 9, "old row")] = lyrics w' /\
    last_status evs = Some (StatusLoaded (length (lyrics w'))) /\
    last_file_label evs = Some "a.lrc".
Proof.
  apply (preview_shows_the_lyrics "a.lrc" scenario_a init [(seconds 9, "old row")]).
  - vm_compute; reflexivity.
  - repeat constructor.
Defined.

(** X6: after a load in which a line raises, the lyrics are the
    records of the lines in front of that line, in file order, and the
    only call made is the warning: the preview list, the file label and
    the status still show the file loaded before. *)
Theorem failed_load_leaves_the_preview file_path content w e rows :
  snd (scan_lines content) = Some e ->
  let w' := exec (load_lrc_file file_path (Ok content)) w in
  lyrics w' = fst (scan_lines content) /\
  trace w' = trace w ++ [ShowWarning (WarnCannotRead e)] /\
  rows_after (trace w') rows = rows_after (trace w) rows.
Proof.
  intros Hscan. cbv zeta. unfold exec. rewrite load_lrc_file_eq, Hscan. cbn [snd].
  split; [reflexivity |]. split; [reflexivity |].
  cbn [trace add_event set_lyrics]. now rewrite rows_after_app.
Qed.

Lemma failed_load_leaves_the_preview_witness :
  let w' := exec (load_lrc_file "song.lrc" (Ok unsorted_file)) loaded in
  lyrics w' = fst (scan_lines unsorted_file) /\
  trace w' = trace loaded ++ [ShowWarning (WarnCannotRead OverflowError)] /\
  rows_after (trace w') [] = rows_after (trace loaded) [].
Proof.
  apply (failed_load_leaves_the_preview "song.lrc" unsorted_file loaded OverflowError []).
  vm_compute; reflexivity.
Defined.

(** X7: a load, whatever the file and however it ends, touches only
    the lyrics and the widgets: the playing flag, the start time, the
    index, the action sequence and the objects are as before. A load
    during playback neither stops nor rewinds the session. *)
Theorem load_keeps_the_session file_path file w :
  let w' := exec (load_lrc_file file_path file) w in
  is_playing w' = is_playing w /\ start_time w' = start_time w /\
  current_index w' = current_index w /\
  action_sequence w' = action_sequence w /\ heap w' = heap w.
Proof.
  cbv zeta. unfold exec. destruct file as [content|e].
  2:{ rewrite load_lrc_file_unreadable. repeat split. }
  rewrite load_lrc_file_eq.
  destruct (snd (scan_lines content)) as [e|]; [repeat split |].
  cbv zeta.
  match goal with |- context [add_items ?l ?v] =>
    destruct (add_items_rows l v) as (evs & E & _);
    destruct (add_items l v) as [[[]|e] w2] end;
    cbn [snd] in *; subst w2; repeat split.
Qed.



(** X9: no lyric is dispatched before its time. As long as the clock
    has not reached the time of the current lyric, the loop only sleeps:
    the index stays, no lyric is announced and nothing is typed, pressed
    or waited for, whatever the times of the later lyrics are, and the
    loop is not left unless it is stopped. *)
Theorem no_lyric_before_its_time B polls w t0 (next : record) :
  stop_only polls ->
  start_time w = Some t0 ->
  lyrics w !! current_index w = Some next ->
  not_due t0 (fst next) polls ->
  let r := fst (lyric_filling_loop B polls w) in
  let w' := snd (lyric_filling_loop B polls w) in
  (r = Ok Polling \/ r = Ok Stopped) /\
  current_index w' = current_index w /\ lyrics w' = lyrics w /\
  exists evs, trace w' = trace w ++ evs /\ fired evs = [] /\ Forall quiet evs.
Proof.
  intros Hpolls. revert w t0 next.
  induction Hpolls as [|p polls Hp _ IH]; intros w t0 next Et En Hdue; cbv zeta.
  { cbn. split; [now left |]. repeat split. exists []. rewrite app_nil_r.
    repeat split. constructor. }
  apply Forall_cons in Hdue. destruct Hdue as [Hdue_p Hdue].
  rewrite (loop_cons B p polls w Hp). cbv zeta.
  pose proof (after_stop_requests (ui p) w) as H1. cbv zeta in H1.
  set (w1 := match ui p with [] => w | _ :: _ => if is_playing w then stopped w else w end) in *.
  destruct H1 as (Hl1 & Hi1 & Hs1 & _ & _ & _ & e1 & Ht1 & He1).
  assert (Hq1 : fired e1 = [] /\ Forall quiet e1).
  { destruct He1; subst e1; split; try reflexivity; [constructor | apply quiet_stop_events]. }
  clearbody w1.
  assert (En1 : lyrics w1 !! current_index w1 = Some next) by (rewrite Hl1, Hi1; exact En).
  destruct (is_playing w1 && (current_index w1 <? length (lyrics w1))%nat).
  - rewrite (loop_body_waits B (clock p) w1 t0 next) by (congruence || assumption).
    specialize (IH (add_event TickSleep w1) t0 next).
    cbv zeta in IH. cbn [start_time lyrics current_index add_event trace] in IH.
    destruct IH as (Hr & Hi & Hl & evs & Ht & Hf & Hq); try congruence; try assumption.
    split; [exact Hr |]. split; [congruence |]. split; [congruence |].
    exists (e1 ++ [TickSleep] ++ evs).
    split; [rewrite Ht, Ht1, <- !app_assoc; reflexivity |].
    split; [rewrite !fired_app, Hf; destruct Hq1 as [-> _]; reflexivity |].
    apply Forall_app. split; [apply Hq1 |].
    apply Forall_app. split; [| exact Hq]. repeat constructor. intros [].
  - rewrite loop_end_eq.
    apply lookup_lt_Some in En1.
    destruct (length (lyrics w1) <=? current_index w1)%nat eqn:E;
      [apply Nat.leb_le in E; lia |].
    cbn [fst snd]. split; [now right |]. split; [exact Hi1 |]. split; [exact Hl1 |].
    exists e1. split; [exact Ht1 |]. exact Hq1.
Qed.

Lemma no_lyric_before_its_time_witness :
  let r := fst (lyric_filling_loop sample_backend (early_polls 5) waiting) in
  let w' := snd (lyric_filling_loop sample_backend (early_polls 5) waiting) in
  (r = Ok Polling \/ r = Ok Stopped) /\
  current_index w' = current_index waiting /\ lyrics w' = lyrics waiting /\
  exists evs, trace w' = trace waiting ++ evs /\ fired evs = [] /\ Forall quiet evs.
Proof.
  apply (no_lyric_before_its_time sample_backend (early_polls 5) waiting (seconds 0)
           (S754_finite false 6755399441055744 (-52), "Hello")).
  - repeat constructor.
  - reflexivity.
  - reflexivity.
  - repeat constructor.
Defined.

(** X10: the loop dispatches at most one lyric for each pass, however
    many are due: the index grows by at most the number of passes. *)
Theorem one_lyric_for_each_pass B polls w :
  stop_only polls ->
  (current_index (exec (lyric_filling_loop B polls) w)
   <= current_index w + length polls)%nat.
Proof.
  intros Hpolls. unfold exec. revert w.
  induction Hpolls as [|p polls Hp _ IH]; intros w.
  { cbn. lia. }
  rewrite (loop_cons B p polls w Hp). cbv zeta.
  pose proof (after_stop_requests (ui p) w) as H1. cbv zeta in H1.
  set (w1 := match ui p with [] => w | _ :: _ => if is_playing w then stopped w else w end) in *.
  destruct H1 as (_ & Hi1 & _). clearbody w1.
  destruct (is_playing w1 && (current_index w1 <? length (lyrics w1))%nat).
  - pose proof (loop_body_summary B (clock p) w1) as Hb. cbv zeta in Hb.
    destruct (loop_body B (clock p) w1) as [r2 w2]. cbn [fst snd] in Hb.
    destruct Hb as (_ & _ & evs & _ & _ & Hcase).
    assert (Hi2 : (current_index w2 <= S (current_index w1))%nat)
      by (destruct Hcase as [(_ & -> & _)|(-> & _)]; lia).
    destruct r2 as [[]|e]; cbn [snd length].
    + specialize (IH w2). lia.
    + lia.
  - rewrite loop_end_eq.
    destruct (length (lyrics w1) <=? current_index w1)%nat; cbn [snd length].
    + destruct (is_playing w1); cbn; lia.
    + lia.
Qed.

Lemma one_lyric_for_each_pass_witness :
  (current_index (exec (lyric_filling_loop sample_backend (late_polls 1)) playing)
   <= current_index playing + length (late_polls 1))%nat.
Proof.
  apply (one_lyric_for_each_pass sample_backend (late_polls 1) playing).
  repeat constructor.
Defined.



(** X12: what a whole session does. Left alone, with every lyric due,
    a backend that takes every call and more passes than lyrics left,
    the loop makes exactly these calls: for each remaining lyric in
    turn, the highlight of its row, the calls of the action sequence run
    for its text, and one tick of sleep; then the calls of
    [stop_filling] and the completed status. Nothing else is touched
    but the index, the flag and the heap, which only grows. *)
Theorem a_session_plays_every_lyric_in_turn B polls w t0 acts :
  undisturbed polls ->
  is_playing w = true -> start_time w = Some t0 ->
  resolves (heap w) (action_sequence w) acts ->
  accepts_all B acts (lyrics w) ->
  all_due t0 (lyrics w) polls ->
  (current_index w <= length (lyrics w))%nat ->
  (length (lyrics w) - current_index w < length polls)%nat ->
  let w' := exec (lyric_filling_loop B polls) w in
  outcome (lyric_filling_loop B polls) w = Ok Completed /\
  trace w'
  = trace w ++ played (current_index w) (drop (current_index w) (lyrics w)) acts
    ++ stop_events ++ [SetStatus StatusCompleted] /\
  current_index w' = length (lyrics w) /\ is_playing w' = false /\
  lyrics w' = lyrics w /\ action_sequence w' = action_sequence w /\
  heap w ⊆ heap w'.
Proof.
  intros Hq Hp Ht Hres Hacc Hdue Hle Hlen. cbv zeta. unfold exec, outcome.
  destruct (loop_plays B polls w t0 acts Hq Hp Ht Hres Hacc Hdue Hle Hlen)
    as (h' & Hsub & ->).
  cbn. repeat split. exact Hsub.
Qed.

Lemma a_session_plays_every_lyric_in_turn_witness :
  let w' := exec (lyric_filling_loop sample_backend (late_polls 3)) playing in
  outcome (lyric_filling_loop sample_backend (late_polls 3)) playing = Ok Completed /\
  trace w'
  = trace playing
    ++ played (current_index playing) (drop (current_index playing) (lyrics playing))
              [text_block; enter_block]
    ++ stop_events ++ [SetStatus StatusCompleted] /\
  current_index w' = length (lyrics playing) /\ is_playing w' = false /\
  lyrics w' = lyrics playing /\ action_sequence w' = action_sequence playing /\
  heap playing ⊆ heap w'.
Proof.
  apply (a_session_plays_every_lyric_in_turn sample_backend (late_polls 3) playing
           (seconds 0) [text_block; enter_block]).
  - repeat constructor.
  - reflexivity.
  - reflexivity.
  - repeat constructor.
  - vm_compute. repeat constructor.
  - exact EngineTheorems.playing_all_due.
  - vm_compute. lia.
  - vm_compute. lia.
Defined.

End EngineProperties.

(** ** The action editor *)

Module EditorFacts.
Import Parser Engine DispatchFacts Editor.

Lemma setText1_data v it :
  data0 (snd (setText1 v it)) = data0 it /\ data1 (snd (setText1 v it)) = data1 it.
Proof. destruct v; split; reflexivity. Qed.

Lemma update_item_display_data it ty ps :
  data0 (snd (update_item_display it ty ps)) = data0 it /\
  data1 (snd (update_item_display it ty ps)) = data1 it.
Proof.
  unfold update_item_display.
  destruct (String.eqb ty "text");
    [destruct (setText1_data (dict_get ps "text" (VStr "")) (set_text0 InputText it))
       as [-> ->]; split; reflexivity |].
  destruct (String.eqb ty "key");
    [destruct (setText1_data (dict_get ps "key" (VStr "enter")) (set_text0 PressKey it))
       as [-> ->]; split; reflexivity |].
  destruct (String.eqb ty "wait"); split; reflexivity.
Qed.

Lemma block_of_row_of a : block_of (row_of a) = a.
Proof.
  unfold block_of, row_of.
  match goal with |- context [update_item_display ?it ?ty ?ps] =>
    destruct (update_item_display_data it ty ps) as [-> ->] end.
  now destruct a.
Qed.

Lemma map_block_of_row_of acts : map block_of (map row_of acts) = acts.
Proof.
  induction acts as [|a acts IH]; [reflexivity |].
  cbn [map]. now rewrite block_of_row_of, IH.
Qed.

Lemma update_item_display_ok it a :
  displayable a ->
  fst (update_item_display it (action_type a) (params a)) = Ok tt.
Proof.
  intros [Htext Hkey]. unfold update_item_display.
  destruct (String.eqb (action_type a) "text") eqn:E1.
  { apply String.eqb_eq in E1. destruct (Htext E1) as (s & ->). reflexivity. }
  destruct (String.eqb (action_type a) "key") eqn:E2.
  { apply String.eqb_eq in E2. destruct (Hkey E2) as (s & ->). reflexivity. }
  destruct (String.eqb (action_type a) "wait"); reflexivity.
Qed.

Lemma add_action_displayable a l :
  displayable a ->
  add_action (action_type a) (Some (params a)) l = (Ok tt, l ++ [row_of a]).
Proof.
  intros H. unfold add_action, row_of, or_empty.
  match goal with |- context [update_item_display ?it ?ty ?ps] =>
    pose proof (update_item_display_ok it a H) as E;
    destruct (update_item_display it ty ps) as [r it'] end.
  cbn [fst snd] in *. now subst r.
Qed.

Lemma add_actions_displayable acts : forall l,
  Forall displayable acts ->
  add_actions acts l = (Ok tt, l ++ map row_of acts).
Proof.
  induction acts as [|a acts IH]; intros l H; cbn [add_actions map].
  - now rewrite app_nil_r.
  - apply Forall_cons in H. destruct H as [Ha H].
    rewrite (add_action_displayable a l Ha), (IH _ H), <- app_assoc. reflexivity.
Qed.

Lemma deref_all_resolves ls acts w :
  resolves (heap w) ls acts -> deref_all ls w = (Ok acts, w).
Proof.
  induction 1 as [|l a ls acts Hl _ IH]; [reflexivity |].
  cbn [deref_all]. unfold bind at 1, deref. rewrite Hl.
  unfold bind at 1. rewrite IH. reflexivity.
Qed.

(** [get_actions] makes one new object for each row and touches
    nothing else. *)
Lemma get_actions_new rows : forall w,
  exists locs h',
    get_actions rows w = (Ok locs, set_heap h' w) /\
    heap w ⊆ h' /\
    resolves h' locs (map block_of rows) /\
    Forall (fun l => heap w !! l = None) locs /\
    NoDup locs.
Proof.
  induction rows as [|it rows IH]; intros w.
  - exists [], (heap w). cbn. destruct w; cbn.
    repeat split; try reflexivity; constructor.
  - cbn [get_actions]. unfold bind at 1, new_ActionBlock.
    set (l := fresh (dom (heap w))).
    set (h1 := <[l := {| action_type := data0 it;
                         params := or_empty (Some (data1 it)) |}]> (heap w)).
    assert (Hfresh : heap w !! l = None)
      by (apply not_elem_of_dom; subst l; apply is_fresh).
    assert (Hsub1 : heap w ⊆ h1) by (subst h1; now apply insert_subseteq).
    destruct (IH (set_heap h1 w)) as (locs & h' & Hget & Hsub & Hres & Hnew & Hnd).
    cbn [heap set_heap] in Hsub, Hnew.
    assert (Hl : h' !! l = Some {| action_type := data0 it; params := data1 it |}).
    { eapply lookup_weaken; [| exact Hsub]. subst h1. apply lookup_insert_eq. }
    exists (l :: locs), h'.
    unfold bind at 1. rewrite Hget. cbn [ret].
    split; [destruct w; reflexivity |].
    split; [etrans; eassumption |].
    split; [constructor; assumption |].
    split.
    + constructor; [exact Hfresh |].
      eapply Forall_impl; [exact Hnew |]. intros l' Hl'.
      destruct (heap w !! l') eqn:E; [| reflexivity].
      eapply lookup_weaken in E; [| exact Hsub1]. congruence.
    + constructor; [| exact Hnd].
      intros Hin. rewrite Forall_forall in Hnew. specialize (Hnew l Hin).
      subst h1. rewrite lookup_insert_eq in Hnew. discriminate.
Qed.

(** An edit of the rows is the same edit of the actions they stand
    for. *)
Lemma apply_edit_blocks rows e :
  map block_of (apply_edit rows e) = edit_action_list (map block_of rows) e.
Proof.
  destruct e as [[index|]|]; cbn [apply_edit edit_action_list].
  - unfold remove_action. revert index.
    induction rows as [|it rows IH]; intros [|index]; cbn; try reflexivity.
    now rewrite <- IH.
  - reflexivity.
  - reflexivity.
Qed.

Lemma edits_blocks es : forall rows,
  map block_of (foldl apply_edit rows es)
  = foldl edit_action_list (map block_of rows) es.
Proof.
  induction es as [|e es IH]; intros rows; [reflexivity |].
  cbn [foldl]. now rewrite IH, apply_edit_blocks.
Qed.

(** [open_action_editor] on a sequence that can be shown. *)
Lemma open_action_editor_eq dialog_exec w acts :
  resolves (heap w) (action_sequence w) acts ->
  Forall displayable acts ->
  open_action_editor dialog_exec w
  = if fst (dialog_exec (map row_of acts)) then
      match get_actions (snd (dialog_exec (map row_of acts))) w with
      | (Ok locs, w1) => (Ok tt, set_action_sequence locs w1)
      | (Raise e, w1) => (Raise e, w1)
      end
    else (Ok tt, w).
Proof.
  intros Hres Hd. unfold open_action_editor, bind at 1, get.
  unfold bind at 1. rewrite (deref_all_resolves _ _ _ Hres).
  unfold set_actions. rewrite (add_actions_displayable acts [] Hd). cbn [app].
  destruct (dialog_exec (map row_of acts)) as [[] rows']; reflexivity.
Qed.

(** The sequence after OK. *)
Lemma ok_installs_the_rows_aux dialog_exec w acts :
  resolves (heap w) (action_sequence w) acts ->
  Forall displayable acts ->
  fst (dialog_exec (map row_of acts)) = true ->
  outcome (open_action_editor dialog_exec) w = Ok tt /\
  resolves (heap (exec (open_action_editor dialog_exec) w))
           (action_sequence (exec (open_action_editor dialog_exec) w))
           (map block_of (snd (dialog_exec (map row_of acts)))).
Proof.
  intros Hres Hd Hyes. unfold exec, outcome.
  rewrite (open_action_editor_eq _ _ _ Hres Hd), Hyes.
  destruct (get_actions_new (snd (dialog_exec (map row_of acts))) w)
    as (locs & h' & Hget & _ & Hnew & _).
  rewrite Hget. cbn. split; [reflexivity | exact Hnew].
Qed.

End EditorFacts.

Module EditorTheorems.
Import Parser Engine DispatchFacts Samples Editor EditorFacts.

(** X13: when the editor is closed with Cancel, or in any way other
    than OK, nothing has happened: the action sequence, the objects and
    everything else are as they were, whatever was done to the rows in
    between. *)
Theorem cancel_keeps_the_sequence dialog_exec w acts :
  resolves (heap w) (action_sequence w) acts ->
  Forall displayable acts ->
  fst (dialog_exec (map row_of acts)) = false ->
  open_action_editor dialog_exec w = (Ok tt, w).
Proof.
  intros Hres Hd Hno. now rewrite (open_action_editor_eq _ _ _ Hres Hd), Hno.
Qed.

Lemma cancel_keeps_the_sequence_witness :
  open_action_editor press_cancel init = (Ok tt, init).
Proof.
  apply (cancel_keeps_the_sequence press_cancel init [text_block; enter_block]).
  - repeat constructor.
  - repeat constructor; intros; try discriminate; eexists; reflexivity.
  - reflexivity.
Defined.

(** X14: when the editor is closed with OK, the action sequence is
    replaced by one new object for each row the dialog ends with, in the
    order of the rows, with the kind and the parameters of the row. The
    objects of the old sequence are not touched and none of them is
    reused. If the rows were not edited, the new sequence resolves to
    the same actions as the old one: opening the editor and pressing OK
    changes the references and nothing that can be observed of the
    actions. *)
Theorem ok_installs_the_rows dialog_exec w acts :
  resolves (heap w) (action_sequence w) acts ->
  Forall displayable acts ->
  fst (dialog_exec (map row_of acts)) = true ->
  let rows' := snd (dialog_exec (map row_of acts)) in
  let w' := exec (open_action_editor dialog_exec) w in
  outcome (open_action_editor dialog_exec) w = Ok tt /\
  resolves (heap w') (action_sequence w') (map block_of rows') /\
  (rows' = map row_of acts -> resolves (heap w') (action_sequence w') acts) /\
  heap w ⊆ heap w' /\
  Forall (fun l => heap w !! l = None) (action_sequence w') /\
  NoDup (action_sequence w') /\
  lyrics w' = lyrics w /\ is_playing w' = is_playing w /\
  start_time w' = start_time w /\ current_index w' = current_index w /\
  trace w' = trace w.
Proof.
  intros Hres Hd Hyes. cbv zeta. unfold exec, outcome.
  rewrite (open_action_editor_eq _ _ _ Hres Hd), Hyes.
  destruct (get_actions_new (snd (dialog_exec (map row_of acts))) w)
    as (locs & h' & Hget & Hsub & Hnew & Hfresh & Hnd).
  rewrite Hget. cbn.
  split; [reflexivity |]. split; [exact Hnew |].
  split; [intros E; rewrite E in Hnew; now rewrite map_block_of_row_of in Hnew |].
  repeat split; assumption.
Qed.

Lemma ok_installs_the_rows_witness :
  let rows' := snd (press_ok (map row_of [text_block; enter_block])) in
  let w' := exec (open_action_editor press_ok) init in
  outcome (open_action_editor press_ok) init = Ok tt /\
  resolves (heap w') (action_sequence w') (map block_of rows') /\
  (rows' = map row_of [text_block; enter_block] ->
   resolves (heap w') (action_sequence w') [text_block; enter_block]) /\
  heap init ⊆ heap w' /\
  Forall (fun l => heap init !! l = None) (action_sequence w') /\
  NoDup (action_sequence w') /\
  lyrics w' = lyrics init /\ is_playing w' = is_playing init /\
  start_time w' = start_time init /\ current_index w' = current_index init /\
  trace w' = trace init.
Proof.
  apply (ok_installs_the_rows press_ok init [text_block; enter_block]).
  - repeat constructor.
  - repeat constructor; intros; try discriminate; eexists; reflexivity.
  - reflexivity.
Defined.

(** X15: the rows of the editor tell what the engine does. For an
    action whose parameters can be shown, the row of a key action shows
    the key that [execute] presses and the row of a wait action the
    duration it sleeps, also when the parameter is missing and both fall
    back on [enter] and on one second; the row of a text action shows
    the stored text, while what is typed is the lyric; an action of any
    other kind has an empty row and makes no call. *)
Theorem rows_show_what_is_executed a lyric_text :
  displayable a ->
  (action_type a = "key" ->
   exists k, text1 (row_of a) = Text k /\
             action_calls lyric_text a = [KeyboardPressAndRelease (VStr k)]) /\
  (action_type a = "wait" ->
   exists v, text1 (row_of a) = Seconds v /\
             action_calls lyric_text a = [TimeSleep v]) /\
  (action_type a = "text" ->
   exists s, text1 (row_of a) = Text s /\
             dict_get (params a) "text" (VStr "") = VStr s /\
             action_calls lyric_text a = [KeyboardWrite (VStr lyric_text)]) /\
  (action_type a <> "key" -> action_type a <> "wait" -> action_type a <> "text" ->
   text0 (row_of a) = NoLabel /\ text1 (row_of a) = NoText /\
   action_calls lyric_text a = []).
Proof.
  intros [Htext Hkey]. unfold row_of, update_item_display, action_calls.
  split; [| split; [| split]].
  - intros E. destruct (Hkey E) as (k & Hk). exists k. rewrite E, Hk. cbn. auto.
  - intros E. eexists. rewrite E. cbn. split; reflexivity.
  - intros E. destruct (Htext E) as (s & Hs). exists s. rewrite E, Hs. cbn. auto.
  - intros Nk Nw Nt.
    apply String.eqb_neq in Nk, Nw, Nt. rewrite Nk, Nw, Nt. cbn. auto.
Qed.

Lemma rows_show_what_is_executed_witness :
  exists k, text1 (row_of {| action_type := "key"; params := ∅ |}) = Text k /\
            action_calls "La la" {| action_type := "key"; params := ∅ |}
            = [KeyboardPressAndRelease (VStr k)].
Proof.
  apply (proj1 (rows_show_what_is_executed
                  {| action_type := "key"; params := ∅ |} "La la"
                  ltac:(split; intros; try discriminate; eexists; reflexivity))).
  reflexivity.
Defined.

(** X16: what the two buttons do to the rows is done to the sequence.
    When the user presses the remove button and the clear button, in
    any order and any number of times, and then presses OK, the new
    sequence is the old one with the same edits made to it: a removal
    takes out the action at the index of the current row, and nothing
    if there is no current row or no such index; a clearing leaves no
    action. Rows added or moved by a drag and drop are outside this
    statement. *)
Theorem edits_reach_the_sequence es w acts :
  resolves (heap w) (action_sequence w) acts ->
  Forall displayable acts ->
  let w' := exec (open_action_editor (edit_and_press_ok es)) w in
  outcome (open_action_editor (edit_and_press_ok es)) w = Ok tt /\
  resolves (heap w') (action_sequence w') (foldl edit_action_list acts es).
Proof.
  intros Hres Hd. cbv zeta.
  destruct (ok_installs_the_rows_aux (edit_and_press_ok es) w acts Hres Hd eq_refl)
    as (Hout & Hnew).
  split; [exact Hout |].
  unfold edit_and_press_ok in Hnew. cbn [snd] in Hnew.
  now rewrite edits_blocks, map_block_of_row_of in Hnew.
Qed.

Lemma edits_reach_the_sequence_witness :
  let es := [Remove None; Remove (Some 1%nat); Remove (Some 5%nat)] in
  let w' := exec (open_action_editor (edit_and_press_ok es)) init in
  outcome (open_action_editor (edit_and_press_ok es)) init = Ok tt /\
  resolves (heap w') (action_sequence w')
           (foldl edit_action_list [text_block; enter_block] es).
Proof.
  apply (edits_reach_the_sequence
           [Remove None; Remove (Some 1%nat); Remove (Some 5%nat)]
           init [text_block; enter_block]).
  - repeat constructor.
  - repeat constructor; intros; try discriminate; eexists; reflexivity.
Defined.

End EditorTheorems.

(** ** Dropped files and the preview text *)

Module DropFacts.
Import PyStr PyStrFacts Parser Engine Window.

Ltac by_cases_on_char c :=
  destruct c as [[] [] [] [] [] [] [] []]; vm_compute;
  split; intros H; try discriminate H; try reflexivity; auto;
  try (destruct H as [H|H]; discriminate H).

Lemma lower_char_dot c : lower_char c = "."%char <-> c = "."%char.
Proof. by_cases_on_char c. Qed.

Lemma lower_char_l c : lower_char c = "l"%char <-> either_case "l" "L" c.
Proof. unfold either_case. by_cases_on_char c. Qed.

Lemma lower_char_r c : lower_char c = "r"%char <-> either_case "r" "R" c.
Proof. unfold either_case. by_cases_on_char c. Qed.

Lemma lower_char_c c : lower_char c = "c"%char <-> either_case "c" "C" c.
Proof. unfold either_case. by_cases_on_char c. Qed.

Lemma lower_is_lrc s :
  lower s = ".lrc" <->
  exists l r c, either_case "l" "L" l /\ either_case "r" "R" r /\
                either_case "c" "C" c /\
                s = String "." (String l (String r (String c ""))).
Proof.
  split.
  - destruct s as [|a [|l [|r [|c [|x s]]]]]; cbn [lower]; intros H;
      try discriminate H.
    injection H as Ha Hl Hr Hc.
    apply (proj1 (lower_char_dot _)) in Ha. apply (proj1 (lower_char_l _)) in Hl.
    apply (proj1 (lower_char_r _)) in Hr. apply (proj1 (lower_char_c _)) in Hc.
    subst a.
    exists l, r, c. auto.
  - intros (l & r & c & Hl & Hr & Hc & ->). cbn [lower].
    apply (proj2 (lower_char_l _)) in Hl. apply (proj2 (lower_char_r _)) in Hr.
    apply (proj2 (lower_char_c _)) in Hc.
    now rewrite Hl, Hr, Hc.
Qed.

(** The test of [dropEvent] is passed by the names that end in a dot
    and the letters l, r, c, each in either case, and by no other. *)
Lemma endswith_lrc file_path :
  endswith ".lrc" (lower file_path) = true <-> lrc_name file_path.
Proof.
  unfold lrc_name. induction file_path as [|a s IH].
  - split; [discriminate |].
    intros (stem & l & r & c & _ & _ & _ & H). destruct stem; discriminate H.
  - cbn [lower endswith]. rewrite orb_true_iff, IH, String.eqb_eq.
    change (String (lower_char a) (lower s)) with (lower (String a s)).
    rewrite lower_is_lrc. split.
    + intros [(l & r & c & Hl & Hr & Hc & E)|(stem & l & r & c & Hl & Hr & Hc & E)].
      * exists "", l, r, c. auto.
      * exists (String a stem), l, r, c. rewrite E. auto.
    + intros (stem & l & r & c & Hl & Hr & Hc & E). destruct stem as [|b stem].
      * left. exists l, r, c. auto.
      * right. cbn in E. injection E as -> ->. exists stem, l, r, c. auto.
Qed.

(** *** The preview text *)

Lemma shows_time_str t n c :
  shows t n c = true ->
  exists h, (h = c \/ h = c - 1) /\
    time_str t
    = Ok (str (n / 60) +:+ ":" +:+ format_02d (n mod 60) +:+ "." +:+ format_02d h).
Proof.
  unfold shows, time_str.
  destruct (int_of_float t) as [whole|e]; [| discriminate].
  intros H. apply andb_true_iff in H. destruct H as [Hn H].
  apply Z.eqb_eq in Hn. subst whole. cbn [res_bind].
  destruct (float_sub_int t n) as [part|e]; [| discriminate]. cbn [res_bind] in *.
  destruct (float_mul_int part 100) as [scaled|e]; [| discriminate]. cbn [res_bind] in *.
  destruct (int_of_float scaled) as [h|e]; [| discriminate]. cbn [res_bind].
  exists h. split; [| reflexivity].
  apply orb_true_iff in H. destruct H as [H|H]; apply Z.eqb_eq in H; auto.
Qed.

Lemma in_range (k : nat) (n : Z) :
  0 <= n < Z.of_nat k -> In n (map Z.of_nat (seq 0 k)).
Proof.
  intros H. apply in_map_iff. exists (Z.to_nat n).
  split; [lia |]. apply in_seq. lia.
Qed.

(** What the check of [shows_all] establishes. *)
Lemma shows_all_sound (seconds : nat) n c :
  shows_all seconds = true ->
  0 <= n < Z.of_nat seconds -> 0 <= c < 100 ->
  exists frac t,
    PyFloat.int_truediv_hundred c = Ok frac /\
    PyFloat.int_add_float n frac = Ok t /\
    shows t n c = true.
Proof.
  intros H Hn Hc. unfold shows_all in H.
  rewrite List.forallb_forall in H.
  specialize (H c (in_range 100 c Hc)).
  destruct (PyFloat.int_truediv_hundred c) as [frac|e]; [| discriminate].
  rewrite List.forallb_forall in H.
  specialize (H n (in_range seconds n Hn)).
  destruct (PyFloat.int_add_float n frac) as [t|e] eqn:Et; [| discriminate].
  exists frac, t. split; [reflexivity |]. split; [exact Et | exact H].
Qed.

Lemma shows_all_five_minutes : shows_all 300 = true.
Proof. vm_compute. reflexivity. Qed.

End DropFacts.

Module WindowTheorems.
Import PyStr PyStrFacts Parser Engine Samples Window DropFacts.

(** X17: a drop on the window loads a file only when the first URL of
    the drop is a local file whose name ends in a dot followed by the
    letters l, r, c, each in either case; then the drop does what
    [load_lrc_file] does with that path. In every other case, and for
    every URL after the first, nothing happens at all. *)
Theorem drop_loads_lrc_names_only fs urls w :
  (dropEvent fs urls w <> (Ok tt, w) ->
   exists u rest, urls = u :: rest /\ isLocalFile u = true /\
                  lrc_name (toLocalFile u)) /\
  (forall u rest,
     urls = u :: rest -> isLocalFile u = true -> lrc_name (toLocalFile u) ->
     dropEvent fs urls w = load_lrc_file (toLocalFile u) (fs (toLocalFile u)) w).
Proof.
  split.
  - intros H. unfold dropEvent in H. destruct urls as [|u rest]; [now contradict H |].
    destruct (isLocalFile u) eqn:El; [| now contradict H].
    destruct (endswith ".lrc" (lower (toLocalFile u))) eqn:Ee; [| now contradict H].
    exists u, rest. split; [reflexivity |]. split; [exact El |].
    now apply endswith_lrc.
  - intros u rest -> El Hn. apply endswith_lrc in Hn.
    unfold dropEvent. now rewrite El, Hn.
Qed.

(** X18: the time shown in the preview list. For every timestamp
    [[m:s.c]] below five minutes, with [s] below 60 and [c] from 0 to 99,
    the row shows the minutes and the seconds of the timestamp, and in
    its last field either [c] or one less: the fraction is cut, not
    rounded, after a multiplication in floating point. [[0:01.13]] is
    shown as [0:01.12]. *)
Theorem preview_time_is_cut_not_rounded :
  (forall m s c,
     0 <= m < 5 -> 0 <= s < 60 -> 0 <= c < 100 ->
     exists t h,
       timestamp_value m s c = Ok t /\ (h = c \/ h = c - 1) /\
       time_str t = Ok (shown_as m s h) /\
       forall lyric,
         item_text t lyric = Ok ("[" +:+ shown_as m s h +:+ "] " +:+ lyric)) /\
  (exists t, timestamp_value 0 1 13 = Ok t /\ time_str t = Ok "0:01.12").
Proof.
  split.
  - intros m s c Hm Hs Hc.
    destruct (shows_all_sound 300 (m * 60 + s) c shows_all_five_minutes)
      as (frac & t & Ef & Et & H); [lia | exact Hc |].
    destruct (shows_time_str t (m * 60 + s) c H) as (h & Hh & Es).
    exists t, h. unfold timestamp_value. rewrite Ef. cbn [res_bind].
    split; [exact Et |]. split; [exact Hh |].
    assert (E : time_str t = Ok (shown_as m s h)).
    { rewrite Es. unfold shown_as.
      replace ((m * 60 + s) / 60) with m by (apply Z.div_unique with s; lia).
      replace ((m * 60 + s) mod 60) with s by (apply Z.mod_unique with m; lia).
      reflexivity. }
    split; [exact E |]. intros lyric. unfold item_text. now rewrite E.
  - exists (S754_finite false 5089067578928660 (-52)).
    split; vm_compute; reflexivity.
Qed.

Lemma preview_time_is_cut_not_rounded_witness :
  exists t h,
    timestamp_value 3 25 50 = Ok t /\ (h = 50 \/ h = 50 - 1) /\
    time_str t = Ok (shown_as 3 25 h) /\
    forall lyric,
      item_text t lyric = Ok ("[" +:+ shown_as 3 25 h +:+ "] " +:+ lyric).
Proof.
  apply (proj1 preview_time_is_cut_not_rounded 3 25 50); lia.
Defined.

End WindowTheorems.

(** ** The hotkeys *)

Module HotkeyFacts.
Import Hotkeys.

Lemma added_app a b : added (a ++ b) = (added a + added b)%nat.
Proof. unfold added. now rewrite List.filter_app, length_app. Qed.

Lemma removed_app a b : removed (a ++ b) = (removed a + removed b)%nat.
Proof. unfold removed. now rewrite List.filter_app, length_app. Qed.

Lemma register_hotkeys_accepted K s :
  accepts K ->
  register_hotkeys K s
  = {| start_hotkey := start_hotkey s; stop_hotkey := stop_hotkey s;
       calls := calls s ++ [AddHotkey (start_hotkey s) StartFilling;
                            AddHotkey (stop_hotkey s) StopFilling] |}.
Proof.
  intros [_ Ha]. unfold register_hotkeys. rewrite !Ha.
  unfold add_call. cbn. now rewrite <- app_assoc.
Qed.

(** One change with a library that takes every call: one removal, two
    additions, and the new key stored for its kind. *)
Lemma set_hotkey_accepted K hotkey_type key s :
  accepts K ->
  let s' := set_hotkey K hotkey_type key s in
  added (calls s') = (added (calls s) + 2)%nat /\
  removed (calls s') = (removed (calls s) + 1)%nat /\
  (hotkey_type = "start" -> start_hotkey s' = key /\ stop_hotkey s' = stop_hotkey s) /\
  (hotkey_type <> "start" -> stop_hotkey s' = key /\ start_hotkey s' = start_hotkey s).
Proof.
  intros HK. pose proof HK as [Hr _]. cbv zeta. unfold set_hotkey.
  rewrite !Hr, (register_hotkeys_accepted K _ HK).
  destruct (String.eqb hotkey_type "start") eqn:E;
    cbn [calls add_call set_start_hotkey set_stop_hotkey start_hotkey stop_hotkey];
    rewrite !added_app, !removed_app; cbn.
  - apply String.eqb_eq in E.
    split; [lia |]. split; [lia |]. split; [auto | congruence].
  - apply String.eqb_neq in E.
    split; [lia |]. split; [lia |]. split; [congruence | auto].
Qed.

End HotkeyFacts.

Module HotkeyTheorems.
Import Hotkeys HotkeyFacts.

(** X19: every change of a hotkey leaves one registration more than
    there was. With a library that takes every call, the window starts
    with two hotkeys added; each call of [set_hotkey] removes one hotkey
    and adds two, because [register_hotkeys] adds the hotkey that was
    not changed a second time. After [n] changes, [2 * (n + 1)] hotkeys
    have been added and [n] removed. When the library refuses the
    removal, the new key is dropped without a word: the setting keeps
    the old key, and both hotkeys are still added again. *)
Theorem each_change_adds_a_registration K :
  accepts K ->
  (forall changes,
     let s := set_hotkeys K changes (init K) in
     added (calls s) = (2 * (length changes + 1))%nat /\
     removed (calls s) = length changes) /\
  (forall K' key s e,
     remove_hotkey_error K' (calls s) (start_hotkey s) = Some e ->
     let s' := set_hotkey K' "start" key s in
     start_hotkey s' = start_hotkey s /\ stop_hotkey s' = stop_hotkey s /\
     s' = register_hotkeys K' s).
Proof.
  intros HK. split.
  - intros changes. cbv zeta.
    assert (H0 : added (calls (init K)) = 2%nat /\ removed (calls (init K)) = 0%nat).
    { unfold init. rewrite (register_hotkeys_accepted K _ HK). split; reflexivity. }
    revert H0. generalize (init K). intros s0 [Ha Hr].
    assert (H : added (calls (set_hotkeys K changes s0))
                = (added (calls s0) + 2 * length changes)%nat /\
                removed (calls (set_hotkeys K changes s0))
                = (removed (calls s0) + length changes)%nat).
    { clear Ha Hr. revert s0. unfold set_hotkeys.
      induction changes as [|[ty key] changes IH]; intros s0; cbn [foldl length].
      - split; lia.
      - destruct (IH (set_hotkey K ty key s0)) as [IHa IHr].
        destruct (set_hotkey_accepted K ty key s0 HK) as (Ha & Hr & _).
        cbn [fst snd]. rewrite IHa, IHr, Ha, Hr. split; lia. }
    destruct H as [-> ->]. rewrite Ha, Hr. split; lia.
  - intros K' key s e He. cbv zeta. unfold set_hotkey.
    change (String.eqb "start" "start") with true. cbv iota. rewrite He.
    split; [| split; [| reflexivity]];
      unfold register_hotkeys;
      destruct (add_hotkey_error K' (calls s) (start_hotkey s)); cbn;
      try reflexivity;
      destruct (add_hotkey_error K' _ (stop_hotkey s)); reflexivity.
Qed.

Lemma each_change_adds_a_registration_witness :
  let s := set_hotkeys obliging [("start", "f8"); ("stop", "f9"); ("start", "f6")]
                       (init obliging) in
  added (calls s) = (2 * (3 + 1))%nat /\ removed (calls s) = 3%nat.
Proof.
  apply (proj1 (each_change_adds_a_registration obliging
                  ltac:(split; intros; reflexivity))
           [("start", "f8"); ("stop", "f9"); ("start", "f6")]).
Defined.

End HotkeyTheorems.

(** ** Captured keys *)

Module KeyFacts.
Import PyStr PyStrFacts Window Keys.

Lemma in_codes (lo : nat) (n : nat) (key : Z) :
  Z.of_nat lo <= key < Z.of_nat (lo + n) ->
  In key (map Z.of_nat (seq lo n)).
Proof.
  intros H. apply in_map_iff. exists (Z.to_nat key).
  split; [lia |]. apply in_seq. lia.
Qed.

Lemma letters_well_formed :
  List.forallb (fun key => well_formed (lower (chr key)))
               (map Z.of_nat (seq 65 26)) = true.
Proof. vm_compute. reflexivity. Qed.

Lemma digits_well_formed :
  List.forallb (fun key => well_formed (chr key)) (map Z.of_nat (seq 48 10)) = true.
Proof. vm_compute. reflexivity. Qed.

Lemma get_key_name_well_formed Q key name :
  ascii_keys Q -> get_key_name Q key = Some name -> well_formed name = true.
Proof.
  intros (HA & HZ & H0 & H9). unfold get_key_name. rewrite HA, HZ, H0, H9.
  destruct ((65 <=? key) && (key <=? 90)) eqn:E1.
  { intros [= <-]. apply andb_true_iff in E1. destruct E1 as [E1 E2].
    apply Z.leb_le in E1, E2.
    pose proof letters_well_formed as H. rewrite List.forallb_forall in H.
    apply (H key). apply (in_codes 65 26). lia. }
  destruct ((48 <=? key) && (key <=? 57)) eqn:E2.
  { intros [= <-]. apply andb_true_iff in E2. destruct E2 as [E2 E3].
    apply Z.leb_le in E2, E3.
    pose proof digits_well_formed as H. rewrite List.forallb_forall in H.
    apply (H key). apply (in_codes 48 10). lia. }
  repeat match goal with
         | |- (if ?b then _ else _) = _ -> _ =>
             destruct b; [intros [= <-]; reflexivity |]
         end.
  discriminate.
Qed.

Lemma no_plus_app a b : no_plus (a +:+ b) = no_plus a && no_plus b.
Proof. apply forallb_app. Qed.

Lemma after_last_plus_no_plus s : no_plus s = true -> after_last_plus s = s.
Proof.
  destruct s as [|c s]; [reflexivity |]. cbn [after_last_plus].
  unfold no_plus at 1. cbn [forallb]. fold (no_plus s).
  intros H. apply andb_true_iff in H. destruct H as [Hc ->].
  destruct (ascii_dec c PLUS); [discriminate Hc | reflexivity].
Qed.

Lemma after_last_plus_plus p name :
  no_plus name = true -> after_last_plus ((p +:+ "+") +:+ name) = name.
Proof.
  intros H. induction p as [|c p IH]; cbn [append after_last_plus].
  - rewrite H. reflexivity.
  - rewrite no_plus_app.
    assert (E : no_plus (p +:+ "+") = false).
    { clear. induction p as [|c p IH]; [reflexivity |].
      cbn [append]. unfold no_plus. cbn [forallb]. fold (no_plus (p +:+ "+")).
      rewrite IH. apply andb_false_r. }
    rewrite E. cbn [andb]. exact IH.
Qed.

(** The name can be read off the end of the string. *)
Lemma after_last_plus_prefix m name :
  no_plus name = true -> after_last_plus (prefix m +:+ name) = name.
Proof.
  intros H. destruct m as [[] [] []]; unfold prefix; cbn [control alt shift].
  - exact (after_last_plus_plus "ctrl+alt+shift" name H).
  - exact (after_last_plus_plus "ctrl+alt" name H).
  - exact (after_last_plus_plus "ctrl+shift" name H).
  - exact (after_last_plus_plus "ctrl" name H).
  - exact (after_last_plus_plus "alt+shift" name H).
  - exact (after_last_plus_plus "alt" name H).
  - exact (after_last_plus_plus "shift" name H).
  - now apply after_last_plus_no_plus.
Qed.

Lemma app_inv_tail_s (a b c : string) : a +:+ c = b +:+ c -> a = b.
Proof.
  intros H.
  assert (Hl : String.length a = String.length b).
  { apply (f_equal String.length) in H. rewrite !length_app_s in H. lia. }
  revert b H Hl. induction a as [|x a IH]; intros [|y b] H Hl; cbn in *;
    try reflexivity; try discriminate.
  injection H as -> H. f_equal. apply IH; [exact H | lia].
Qed.

Lemma prefix_inj m1 m2 : prefix m1 = prefix m2 -> m1 = m2.
Proof.
  destruct m1 as [[] [] []], m2 as [[] [] []]; vm_compute; intros H;
    try discriminate H; reflexivity.
Qed.

End KeyFacts.

Module KeyTheorems.
Import PyStr PyStrFacts Window Keys KeyFacts.

(** X20: captured hotkeys can be told apart. When the letter and digit
    keys of Qt have the codes of their characters, every name
    [get_key_name] gives is not empty, in lower case and without a plus
    sign; so the string [keyPressEvent] emits, the modifiers in the
    order ctrl, alt, shift and then the name, is emitted for one set of
    modifiers and one name only: two key presses that give the same
    string have the same modifiers and keys of the same name. *)
Theorem captured_hotkeys_can_be_told_apart Q :
  ascii_keys Q ->
  (forall key name,
     get_key_name Q key = Some name ->
     name <> "" /\ lower name = name /\ no_plus name = true) /\
  (forall key1 m1 key2 m2 key_str,
     keyPressEvent Q key1 m1 = Some key_str ->
     keyPressEvent Q key2 m2 = Some key_str ->
     m1 = m2 /\ get_key_name Q key1 = get_key_name Q key2).
Proof.
  intros HQ.
  assert (Hwf : forall key name, get_key_name Q key = Some name ->
                  name <> "" /\ lower name = name /\ no_plus name = true).
  { intros key name H. apply (get_key_name_well_formed Q key name HQ) in H.
    unfold well_formed in H. apply andb_true_iff in H. destruct H as [H H3].
    apply andb_true_iff in H. destruct H as [H1 H2].
    split; [destruct name; [discriminate H1 | discriminate] |].
    split; [now apply String.eqb_eq | exact H3]. }
  split; [exact Hwf |].
  intros key1 m1 key2 m2 key_str. unfold keyPressEvent.
  destruct (get_key_name Q key1) as [n1|] eqn:E1; [| discriminate].
  destruct (get_key_name Q key2) as [n2|] eqn:E2; [| discriminate].
  intros [= H1] [= H2].
  destruct (Hwf key1 n1 E1) as (_ & _ & P1).
  destruct (Hwf key2 n2 E2) as (_ & _ & P2).
  assert (En : n1 = n2).
  { rewrite <- (after_last_plus_prefix m1 n1 P1), <- (after_last_plus_prefix m2 n2 P2).
    now rewrite H1, H2. }
  subst n2. split; [| reflexivity].
  apply prefix_inj. apply (app_inv_tail_s _ _ n1). now rewrite H1, H2.
Qed.

Lemma captured_hotkeys_can_be_told_apart_witness :
  "a" <> "" /\ lower "a" = "a" /\ no_plus "a" = true.
Proof.
  apply (proj1 (captured_hotkeys_can_be_told_apart qt6
                  ltac:(repeat split; reflexivity)) (Key_A qt6) "a").
  reflexivity.
Defined.

End KeyTheorems.
